(** * FileTypeAnalyzer: a shallow embedding of the analysis engine

    The development follows the browser script (the [DynamicTaskQueue]
    scheduler, [calculateEntropy], [getEntropyLevel], [analyzeFile], the
    name pre-calculation of [organizeFiles]) and the web worker
    ([bytesToHex], [detectType], [MAGIC_SIGNATURES]).

    Conventions.
    - A [Uint8Array] is a [list byte].
    - A JavaScript string that can hold arbitrary text (file names,
      extensions, folder names) is a list of UTF-16 code units,
      [jsstring]; string constants of the tables (hex patterns, type
      names) are ASCII and kept as [string].
    - JavaScript numbers holding counters are [Z] or [nat]; the entropy
      value is a real number ([R]): the IEEE double arithmetic of the
      source is idealised as exact real arithmetic. Time stamps of
      [performance.now()] are rationals ([Q]).
    - [String.prototype.toLowerCase] is a parameter of the definitions
      that use it; [asciiLowerCase] is its restriction to ASCII, used to
      run the definitions on concrete inputs. *)

From Stdlib Require Import ZArith NArith QArith List Bool Lia String Ascii Reals Lra.
From Stdlib.Strings Require Import Byte.
From Stdlib Require Import DecimalString DecimalN DecimalPos.
From stdpp Require Import gmap.
Import ListNotations.

#[local] Open Scope string_scope.
#[local] Open Scope nat_scope.

(* ================================================================== *)
(** * Strings                                                          *)
(* ================================================================== *)

(** A JavaScript string as its sequence of UTF-16 code units. *)
Abbreviation jsstring := (list N).

(** An ASCII literal as a JavaScript string. *)
Definition str (s : string) : jsstring :=
  map N_of_ascii (list_ascii_of_string s).

(** [s.lastIndexOf(c)]: the index of the last occurrence, or -1. *)
Fixpoint lastIndexOf_from (c : N) (s : jsstring) (i acc : Z) : Z :=
  match s with
  | [] => acc
  | x :: rest => lastIndexOf_from c rest (i + 1) (if N.eqb x c then i else acc)
  end.

Definition lastIndexOf (c : N) (s : jsstring) : Z :=
  lastIndexOf_from c s 0 (-1).

(** [s.substring(a)] and [s.substring(a, b)] for [0 <= a <= b]. *)
Definition substringFrom (a : Z) (s : jsstring) : jsstring :=
  drop (Z.to_nat a) s.

Definition substring (a b : Z) (s : jsstring) : jsstring :=
  take (Z.to_nat b - Z.to_nat a) (drop (Z.to_nat a) s).

Definition dot : N := 46.
Definition underscore : N := 95.

(** ASCII case folding: the behaviour of [toLowerCase] on code units
    below 128. *)
Definition asciiLowerUnit (c : N) : N :=
  if (65 <=? c)%N && (c <=? 90)%N then (c + 32)%N else c.

Definition asciiLowerCase (s : jsstring) : jsstring := map asciiLowerUnit s.

(** [`${n}`] for a non-negative integer. *)
Definition decimal (n : N) : jsstring :=
  str (NilZero.string_of_uint (N.to_uint n)).

(* ================================================================== *)
(** * Hex rendering of bytes ([bytesToHex])                            *)
(* ================================================================== *)

Definition hexChars : string := "0123456789ABCDEF".

Definition hexDigit (n : nat) : ascii :=
  match String.get n hexChars with
  | Some c => c
  | None => "0"%char
  end.

(** [b.toString(16).padStart(2, '0').toUpperCase()] *)
Definition byteToHex (b : byte) : string :=
  let n := Byte.to_nat b in
  String (hexDigit (n / 16)) (String (hexDigit (n mod 16)) EmptyString).

(** [Array.from(bytes).map(...).join('')] *)
Fixpoint bytesToHex (bytes : list byte) : string :=
  match bytes with
  | [] => EmptyString
  | b :: rest => byteToHex b ++ bytesToHex rest
  end.

(** [hex.startsWith(pattern)] *)
Definition startsWith (hex pattern : string) : bool := String.prefix pattern hex.

(* ================================================================== *)
(** * The web worker: [MAGIC_SIGNATURES] and [detectType]              *)
(* ================================================================== *)

Record WorkerSignature := mkWorkerSignature {
  w_hex : string;
  w_type : string;
  w_category : string
}.

Record TypeInfo := mkTypeInfo {
  ti_type : string;
  ti_category : string
}.

Definition MAGIC_SIGNATURES : list WorkerSignature :=
  [ mkWorkerSignature "89504E47" "PNG" "Image";
    mkWorkerSignature "FFD8FF" "JPEG" "Image";
    mkWorkerSignature "47494638" "GIF" "Image";
    mkWorkerSignature "25504446" "PDF" "Document";
    mkWorkerSignature "504B0304" "ZIP/DOCX/XLSX" "Archive";
    mkWorkerSignature "D0CF11E0" "DOC/XLS/PPT" "Document";
    mkWorkerSignature "52617221" "RAR" "Archive";
    mkWorkerSignature "377ABCAF" "7Z" "Archive";
    mkWorkerSignature "1F8B" "GZIP" "Archive";
    mkWorkerSignature "4D5A" "EXE/DLL" "Executable";
    mkWorkerSignature "7F454C46" "ELF" "Executable";
    mkWorkerSignature "494433" "MP3" "Audio";
    mkWorkerSignature "1A45DFA3" "MKV/WEBM" "Video";
    mkWorkerSignature "00000018" "MP4" "Video";
    mkWorkerSignature "00000020" "MP4" "Video" ].

Definition unknownType : TypeInfo := mkTypeInfo "Unknown" "Unknown".

(** The [for (const sig of table)] loop of [detectType], over any table. *)
Fixpoint detectIn (table : list WorkerSignature) (hex : string) : TypeInfo :=
  match table with
  | [] => unknownType
  | sig :: rest =>
      if startsWith hex (w_hex sig)
      then mkTypeInfo (w_type sig) (w_category sig)
      else detectIn rest hex
  end.

Definition detectType (bytes : list byte) : TypeInfo :=
  let hex := bytesToHex (take 16 bytes) in
  detectIn MAGIC_SIGNATURES hex.

(* ================================================================== *)
(** * Entropy ([calculateEntropy], [getEntropyLevel])                  *)
(* ================================================================== *)

(** [freq[b]++] on an array of counters. *)
Definition bump (freq : list nat) (i : nat) : list nat :=
  match freq !! i with
  | Some n => <[i := S n]> freq
  | None => freq
  end.

(** [new Array(256).fill(0)] followed by the counting loop. *)
Definition histogram (bytes : list byte) : list nat :=
  fold_left (fun freq b => bump freq (Byte.to_nat b)) bytes (replicate 256 0).

Definition log2 (x : R) : R := (ln x / ln 2)%R.

(** One iteration of the summation loop, for bucket count [f]. *)
Definition entropyStep (len : nat) (entropy : R) (f : nat) : R :=
  if 0 <? f
  then (let p := (INR f / INR len)%R in entropy - p * log2 p)%R
  else entropy.

Definition calculateEntropy (bytes : list byte) : R :=
  if length bytes =? 0 then 0%R
  else fold_left (entropyStep (length bytes)) (histogram bytes) 0%R.

Inductive EntropyLabel := LevelUnknown | Low | Medium | High.

Record EntropyLevel := mkEntropyLevel {
  level : EntropyLabel;
  class : string;
  level_description : string
}.

Definition getEntropyLevel (entropy : R) : EntropyLevel :=
  if Rlt_dec entropy 4 then mkEntropyLevel Low "entropy-low" "Text/Code"
  else if Rlt_dec entropy 7 then mkEntropyLevel Medium "entropy-medium" "Normal file"
  else mkEntropyLevel High "entropy-high" "Encrypted/Compressed".

(** [entropy >= 7.5] *)
Definition likelyEncrypted (entropy : R) : bool :=
  if Rge_dec entropy (75 / 10) then true else false.

(* ================================================================== *)
(** * The signature database and the extension fallback table          *)
(* ================================================================== *)

Record Signature := mkSignature {
  hex : string;
  sig_type : string;
  sig_category : string;
  sig_description : string;
  extensions : list jsstring
}.

Record Fallback := mkFallback {
  fb_type : string;
  fb_category : string;
  fb_description : string
}.

Definition magicDatabase : list Signature :=
  [ mkSignature "89504E47" "PNG" "Image" "Portable Network Graphics" [str ".png"];
    mkSignature "FFD8FFE0" "JPEG" "Image" "JPEG Image (JFIF)" [str ".jpg"; str ".jpeg"];
    mkSignature "FFD8FFE1" "JPEG" "Image" "JPEG Image (EXIF)" [str ".jpg"; str ".jpeg"];
    mkSignature "FFD8FFDB" "JPEG" "Image" "JPEG Image" [str ".jpg"; str ".jpeg"];
    mkSignature "FFD8FFEE" "JPEG" "Image" "JPEG Image" [str ".jpg"; str ".jpeg"];
    mkSignature "47494638" "GIF" "Image" "Graphics Interchange Format" [str ".gif"];
    mkSignature "424D" "BMP" "Image" "Bitmap Image" [str ".bmp"];
    mkSignature "38425053" "PSD" "Image" "Adobe Photoshop Document" [str ".psd"];
    mkSignature "49492A00" "TIFF" "Image" "Tagged Image File Format" [str ".tiff"; str ".tif"];
    mkSignature "4D4D002A" "TIFF" "Image" "Tagged Image File Format" [str ".tiff"; str ".tif"];
    mkSignature "00000100" "ICO" "Image" "Windows Icon" [str ".ico"];
    mkSignature "52494646" "WEBP/WAV/AVI" "Media" "RIFF Container" [str ".webp"; str ".wav"; str ".avi"];
    mkSignature "25504446" "PDF" "Document" "Portable Document Format" [str ".pdf"];
    mkSignature "D0CF11E0A1B11AE1" "DOC/XLS/PPT" "Document" "Microsoft Office Legacy" [str ".doc"; str ".xls"; str ".ppt"];
    mkSignature "504B0304" "ZIP/DOCX/XLSX" "Archive" "ZIP Archive or Office Open XML" [str ".zip"; str ".docx"; str ".xlsx"; str ".pptx"; str ".jar"; str ".apk"];
    mkSignature "504B0506" "ZIP" "Archive" "ZIP Archive (empty)" [str ".zip"];
    mkSignature "504B0708" "ZIP" "Archive" "ZIP Archive (spanned)" [str ".zip"];
    mkSignature "7B5C727466" "RTF" "Document" "Rich Text Format" [str ".rtf"];
    mkSignature "52617221" "RAR" "Archive" "RAR Archive" [str ".rar"];
    mkSignature "377ABCAF271C" "7Z" "Archive" "7-Zip Archive" [str ".7z"];
    mkSignature "1F8B" "GZIP" "Archive" "GZIP Compressed" [str ".gz"; str ".gzip"];
    mkSignature "425A68" "BZ2" "Archive" "BZIP2 Compressed" [str ".bz2"];
    mkSignature "FD377A585A00" "XZ" "Archive" "XZ Compressed" [str ".xz"];
    mkSignature "1F9D" "Z" "Archive" "LZW Compressed" [str ".z"];
    mkSignature "494433" "MP3" "Audio" "MP3 Audio (ID3)" [str ".mp3"];
    mkSignature "FFFB" "MP3" "Audio" "MP3 Audio" [str ".mp3"];
    mkSignature "FFF3" "MP3" "Audio" "MP3 Audio" [str ".mp3"];
    mkSignature "FFF2" "MP3" "Audio" "MP3 Audio" [str ".mp3"];
    mkSignature "664C6143" "FLAC" "Audio" "Free Lossless Audio Codec" [str ".flac"];
    mkSignature "4F676753" "OGG" "Audio" "OGG Vorbis" [str ".ogg"];
    mkSignature "1A45DFA3" "MKV/WEBM" "Video" "Matroska/WebM Video" [str ".mkv"; str ".webm"];
    mkSignature "464C56" "FLV" "Video" "Flash Video" [str ".flv"];
    mkSignature "000001BA" "MPEG" "Video" "MPEG Video" [str ".mpg"; str ".mpeg"];
    mkSignature "000001B3" "MPEG" "Video" "MPEG Video" [str ".mpg"; str ".mpeg"];
    mkSignature "00000018" "MP4" "Video" "MPEG-4 Video" [str ".mp4"; str ".m4v"];
    mkSignature "00000020" "MP4" "Video" "MPEG-4 Video" [str ".mp4"; str ".m4v"];
    mkSignature "0000001C" "MP4" "Video" "MPEG-4 Video" [str ".mp4"; str ".m4v"];
    mkSignature "4D5A" "EXE/DLL" "Executable" "Windows Executable" [str ".exe"; str ".dll"; str ".sys"];
    mkSignature "7F454C46" "ELF" "Executable" "Linux Executable" [str EmptyString];
    mkSignature "CAFEBABE" "CLASS" "Executable" "Java Class File" [str ".class"];
    mkSignature "FEEDFACE" "MACH-O" "Executable" "macOS Executable (32-bit)" [str EmptyString];
    mkSignature "FEEDFACF" "MACH-O" "Executable" "macOS Executable (64-bit)" [str EmptyString];
    mkSignature "6465780A" "DEX" "Executable" "Android Dalvik Executable" [str ".dex"];
    mkSignature "53514C69746520666F726D6174" "SQLITE" "Database" "SQLite Database" [str ".db"; str ".sqlite"; str ".sqlite3"];
    mkSignature "3C3F786D6C" "XML" "Data" "XML Document" [str ".xml"];
    mkSignature "3C21444F43545950" "HTML" "Web" "HTML Document" [str ".html"; str ".htm"];
    mkSignature "3C68746D6C" "HTML" "Web" "HTML Document" [str ".html"; str ".htm"];
    mkSignature "3C21646F63" "HTML" "Web" "HTML Document" [str ".html"; str ".htm"];
    mkSignature "00010000" "TTF" "Font" "TrueType Font" [str ".ttf"];
    mkSignature "4F54544F" "OTF" "Font" "OpenType Font" [str ".otf"];
    mkSignature "774F4646" "WOFF" "Font" "Web Open Font Format" [str ".woff"];
    mkSignature "774F4632" "WOFF2" "Font" "Web Open Font Format 2" [str ".woff2"];
    mkSignature "25215053" "PS" "Document" "PostScript" [str ".ps"; str ".eps"];
    mkSignature "4344303031" "ISO" "Disk" "ISO Disk Image" [str ".iso"] ].

Definition extensionMap : list (jsstring * Fallback) :=
  [ (str ".txt", mkFallback "Text" "Text" "Plain text file");
    (str ".log", mkFallback "Log" "Text" "Log file");
    (str ".md", mkFallback "Markdown" "Text" "Markdown document");
    (str ".csv", mkFallback "CSV" "Data" "Comma-separated values");
    (str ".json", mkFallback "JSON" "Data" "JSON data file");
    (str ".yaml", mkFallback "YAML" "Data" "YAML data file");
    (str ".yml", mkFallback "YAML" "Data" "YAML data file");
    (str ".cpp", mkFallback "C++" "Code" "C++ source file");
    (str ".c", mkFallback "C" "Code" "C source file");
    (str ".h", mkFallback "Header" "Code" "C/C++ header file");
    (str ".hpp", mkFallback "Header" "Code" "C++ header file");
    (str ".py", mkFallback "Python" "Code" "Python script");
    (str ".js", mkFallback "JavaScript" "Code" "JavaScript file");
    (str ".ts", mkFallback "TypeScript" "Code" "TypeScript file");
    (str ".java", mkFallback "Java" "Code" "Java source file");
    (str ".cs", mkFallback "C#" "Code" "C# source file");
    (str ".go", mkFallback "Go" "Code" "Go source file");
    (str ".rs", mkFallback "Rust" "Code" "Rust source file");
    (str ".rb", mkFallback "Ruby" "Code" "Ruby script");
    (str ".swift", mkFallback "Swift" "Code" "Swift source file");
    (str ".kt", mkFallback "Kotlin" "Code" "Kotlin source file");
    (str ".html", mkFallback "HTML" "Web" "HTML document");
    (str ".htm", mkFallback "HTML" "Web" "HTML document");
    (str ".css", mkFallback "CSS" "Web" "Cascading Style Sheet");
    (str ".scss", mkFallback "SCSS" "Web" "Sass stylesheet");
    (str ".less", mkFallback "LESS" "Web" "Less stylesheet");
    (str ".php", mkFallback "PHP" "Web" "PHP script");
    (str ".sql", mkFallback "SQL" "Database" "SQL script");
    (str ".sh", mkFallback "Shell" "Script" "Shell script");
    (str ".bash", mkFallback "Bash" "Script" "Bash script");
    (str ".bat", mkFallback "Batch" "Script" "Windows batch file");
    (str ".ps1", mkFallback "PowerShell" "Script" "PowerShell script");
    (str ".ini", mkFallback "INI" "Config" "Configuration file");
    (str ".cfg", mkFallback "Config" "Config" "Configuration file");
    (str ".conf", mkFallback "Config" "Config" "Configuration file") ].

(** [extensionMap[ext]] *)
Fixpoint lookupExtension (table : list (jsstring * Fallback)) (ext : jsstring)
  : option Fallback :=
  match table with
  | [] => None
  | (k, v) :: rest => if bool_decide (k = ext) then Some v else lookupExtension rest ext
  end.

(** The [for (const sig of magicDatabase) { if (hex.startsWith(sig.hex)) {
    ...; break; } }] loop: the signature the loop stops at, if any. *)
Fixpoint matchMagic (table : list Signature) (h : string) : option Signature :=
  match table with
  | [] => None
  | sig :: rest => if startsWith h (hex sig) then Some sig else matchMagic rest h
  end.

(** A string used as a condition is true when it is not empty. *)
Definition truthy (s : jsstring) : bool :=
  match s with
  | [] => false
  | _ :: _ => true
  end.

(** [array.includes(x)] *)
Definition includes (l : list jsstring) (x : jsstring) : bool :=
  bool_decide (x ∈ l).

(** The extension check made inside the loop once [sig] has matched. *)
Definition mismatchFor (sig : Signature) (actualExtension : jsstring) : bool :=
  if (0 <? length (extensions sig)) && truthy actualExtension
  then negb (includes (extensions sig) actualExtension)
  else false.

(* ================================================================== *)
(** * The analysis pipeline ([analyzeFile])                            *)
(* ================================================================== *)

(** The operations [analyzeFile] invokes, recorded in call order. *)
Inductive Call :=
| Call_currentFileData_set
| Call_bytesToHex
| Call_calculateEntropy
| Call_matchMagic
| Call_extensionMap
| Call_calculateSHA256.

#[global] Instance Call_eq_dec : EqDecision Call.
Proof. solve_decision. Defined.

(** A computation together with the calls it made. *)
Definition Traced (A : Type) : Type := (A * list Call)%type.

Definition ret {A} (a : A) : Traced A := (a, []).

Definition bind {A B} (m : Traced A) (k : A -> Traced B) : Traced B :=
  let r := k (fst m) in (fst r, (snd m ++ snd r)%list).

Definition invoke {A} (c : Call) (a : A) : Traced A := (a, [c]).

Notation "'let*' x ':=' m 'in' k" := (bind m (fun x => k))
  (at level 10, x name, m at level 200, k at level 200).

Module File.
(** The part of a DOM [File] the pipeline reads. [content] is the
    outcome of [file.arrayBuffer()]: the bytes, or the message of the
    error it was rejected with. *)
Record t := mk {
  name : jsstring;
  webkitRelativePath : jsstring;
  size : nat;
  type : jsstring;
  content : string + list byte
}.
End File.

Module Result.
(** The record [analyzeFile] resolves with. [sizeFormatted] is display
    text and is left out. [hash] is the value at the moment the record
    is resolved; the digest is patched in later by the promise started
    by [Call_calculateSHA256]. *)
Record t := mk {
  name : jsstring;
  path : jsstring;
  size : nat;
  actualExtension : jsstring;
  type : string;
  category : string;
  description : string;
  isCorrupt : bool;
  extensionMismatch : bool;
  entropy : R;
  entropyLevel : EntropyLevel;
  hash : string;
  hexPreview : string;
  isEncrypted : bool;
  mimeType : jsstring
}.
End Result.

(** Assignments to the fields of the record under construction. *)
Definition setType (ty cat desc : string) (r : Result.t) : Result.t :=
  {| Result.name := Result.name r; Result.path := Result.path r;
     Result.size := Result.size r;
     Result.actualExtension := Result.actualExtension r;
     Result.type := ty; Result.category := cat; Result.description := desc;
     Result.isCorrupt := Result.isCorrupt r;
     Result.extensionMismatch := Result.extensionMismatch r;
     Result.entropy := Result.entropy r;
     Result.entropyLevel := Result.entropyLevel r;
     Result.hash := Result.hash r;
     Result.hexPreview := Result.hexPreview r;
     Result.isEncrypted := Result.isEncrypted r;
     Result.mimeType := Result.mimeType r |}.

Definition setCorrupt (hashText : string) (r : Result.t) : Result.t :=
  {| Result.name := Result.name r; Result.path := Result.path r;
     Result.size := Result.size r;
     Result.actualExtension := Result.actualExtension r;
     Result.type := Result.type r; Result.category := Result.category r;
     Result.description := Result.description r;
     Result.isCorrupt := true;
     Result.extensionMismatch := Result.extensionMismatch r;
     Result.entropy := Result.entropy r;
     Result.entropyLevel := Result.entropyLevel r;
     Result.hash := hashText;
     Result.hexPreview := Result.hexPreview r;
     Result.isEncrypted := Result.isEncrypted r;
     Result.mimeType := Result.mimeType r |}.

Definition setExtensionMismatch (r : Result.t) : Result.t :=
  {| Result.name := Result.name r; Result.path := Result.path r;
     Result.size := Result.size r;
     Result.actualExtension := Result.actualExtension r;
     Result.type := Result.type r; Result.category := Result.category r;
     Result.description := Result.description r;
     Result.isCorrupt := Result.isCorrupt r;
     Result.extensionMismatch := true;
     Result.entropy := Result.entropy r;
     Result.entropyLevel := Result.entropyLevel r;
     Result.hash := Result.hash r;
     Result.hexPreview := Result.hexPreview r;
     Result.isEncrypted := Result.isEncrypted r;
     Result.mimeType := Result.mimeType r |}.

Definition setHexPreview (preview : string) (r : Result.t) : Result.t :=
  {| Result.name := Result.name r; Result.path := Result.path r;
     Result.size := Result.size r;
     Result.actualExtension := Result.actualExtension r;
     Result.type := Result.type r; Result.category := Result.category r;
     Result.description := Result.description r;
     Result.isCorrupt := Result.isCorrupt r;
     Result.extensionMismatch := Result.extensionMismatch r;
     Result.entropy := Result.entropy r;
     Result.entropyLevel := Result.entropyLevel r;
     Result.hash := Result.hash r;
     Result.hexPreview := preview;
     Result.isEncrypted := Result.isEncrypted r;
     Result.mimeType := Result.mimeType r |}.

(** [result.entropy = e; result.entropyLevel = getEntropyLevel(e);
    result.isEncrypted = e >= 7.5] *)
Definition setEntropy (e : R) (r : Result.t) : Result.t :=
  {| Result.name := Result.name r; Result.path := Result.path r;
     Result.size := Result.size r;
     Result.actualExtension := Result.actualExtension r;
     Result.type := Result.type r; Result.category := Result.category r;
     Result.description := Result.description r;
     Result.isCorrupt := Result.isCorrupt r;
     Result.extensionMismatch := Result.extensionMismatch r;
     Result.entropy := e;
     Result.entropyLevel := getEntropyLevel e;
     Result.hash := Result.hash r;
     Result.hexPreview := Result.hexPreview r;
     Result.isEncrypted := likelyEncrypted e;
     Result.mimeType := Result.mimeType r |}.

(** The body of the matching loop at the signature it stops at. *)
Definition applySignature (matched : option Signature) (r : Result.t) : Result.t :=
  match matched with
  | None => r
  | Some sig =>
      let r1 := setType (sig_type sig) (sig_category sig) (sig_description sig) r in
      if mismatchFor sig (Result.actualExtension r1)
      then setExtensionMismatch r1
      else r1
  end.

(** The extension fallback: [extensionMap] is consulted only when the
    type is still ['Unknown'] and the extension is not empty. *)
Definition applyFallback (r : Result.t) : Traced Result.t :=
  if bool_decide (Result.type r = "Unknown") && truthy (Result.actualExtension r)
  then
    let* found := invoke Call_extensionMap
                  (lookupExtension extensionMap (Result.actualExtension r)) in
    match found with
    | Some fallback =>
        ret (setType (fb_type fallback) (fb_category fallback)
                     (fb_description fallback) r)
    | None => ret r
    end
  else ret r.

(** 65536, the sample bound of the entropy step. *)
Definition sampleLimit : nat := Z.to_nat 65536.

Section Pipeline.

Variable toLowerCase : jsstring -> jsstring.

Definition getFileExtension (filename : jsstring) : jsstring :=
  let lastDot := lastIndexOf dot filename in
  if (0 <=? lastDot)%Z then toLowerCase (substringFrom lastDot filename) else [].

(** [a || b] on strings. *)
Definition orElse (a b : jsstring) : jsstring := if truthy a then a else b.

Definition initialResult (file : File.t) : Result.t :=
  {| Result.name := File.name file;
     Result.path := orElse (File.webkitRelativePath file) (File.name file);
     Result.size := File.size file;
     Result.actualExtension := getFileExtension (File.name file);
     Result.type := "Unknown";
     Result.category := "Unknown";
     Result.description := "Unrecognized file type";
     Result.isCorrupt := false;
     Result.extensionMismatch := false;
     Result.entropy := 0%R;
     Result.entropyLevel := mkEntropyLevel LevelUnknown EmptyString EmptyString;
     Result.hash := "Calculating...";
     Result.hexPreview := EmptyString;
     Result.isEncrypted := false;
     Result.mimeType := orElse (File.type file) (str "unknown") |}.

Definition analyzeFile (file : File.t) : Traced Result.t :=
  let result := initialResult file in
  match File.content file with
  | inl message =>
      (* the [catch] branch *)
      ret (setCorrupt "Error"
             (setType "Unreadable" "Error" ("Could not read file: " ++ message) result))
  | inr bytes =>
      let* _ := invoke Call_currentFileData_set tt in
      if length bytes <? 2 then
        ret (setCorrupt "N/A"
               (setType "Empty/Corrupt" "Error" "File too small to identify" result))
      else
        let headerBytes := take 64 bytes in
        let* h := invoke Call_bytesToHex (bytesToHex headerBytes) in
        let result := setHexPreview (String.substring 0 64 h) result in
        let sampleSize := Nat.min (length bytes) sampleLimit in
        let sampleBytes := take sampleSize bytes in
        let* e := invoke Call_calculateEntropy (calculateEntropy sampleBytes) in
        let result := setEntropy e result in
        let* matched := invoke Call_matchMagic (matchMagic magicDatabase h) in
        let result := applySignature matched result in
        let* result := applyFallback result in
        let* _ := invoke Call_calculateSHA256 tt in
        ret result
  end.

(** The record of [analyzeFile] for readable content of at least two
    bytes, before the extension fallback. *)
Definition scored (file : File.t) (bytes : list byte) : Result.t :=
  let h := bytesToHex (take 64 bytes) in
  applySignature (matchMagic magicDatabase h)
    (setEntropy (calculateEntropy (take (Nat.min (length bytes) sampleLimit) bytes))
       (setHexPreview (String.substring 0 64 h) (initialResult file))).

End Pipeline.

(** A file holding the four bytes 89 50 4E 47 under the given name. *)
Definition pngHeaderFile (name : string) : File.t :=
  File.mk (str name) [] 4 [] (inr [x89; x50; x4e; x47]).

(* ================================================================== *)
(** * The scheduler ([DynamicTaskQueue])                               *)
(* ================================================================== *)

(** JavaScript runs each callback to completion, so a run of the queue is
    a sequence of turns: the call of [start], then one turn per settled
    handler promise. The handler, the clock and the order in which the
    promises settle belong to the environment; they enter the model as
    the [Settlement]s of a schedule. The calls the queue makes to the
    outside (the handler, [onProgress], [console.error], [onComplete])
    are recorded in a trace, each with the value [activeCount] and the
    queue length had at that moment. The callbacks are taken to return
    normally, and the handler to return a promise (both callers pass an
    [async] function). The limit is an integer, as at every call site
    (128, 32, 4, 64), and [performance.now()] gives one reading per
    turn. *)

Section Scheduler.

Variables Item Result : Type.

(** The argument of [onProgress]. *)
Record Stats := mkStats {
  completed : nat;
  total : nat;
  active : Z;
  queueLen : nat;
  avgTime : Q
}.

Inductive Event :=
| HandlerCall (item : Item)
| ProgressCall (stats : Stats)
| ErrorLog
| CompleteCall (results : list Result).

Record Observation := mkObservation {
  event : Event;
  activeAt : Z;
  queueAt : nat
}.

Record DynamicTaskQueue := mkQueue {
  concurrency : Z;
  queue : list Item;
  activeCount : Z;
  results : list Result;
  onProgress : bool;   (* is a callback installed? *)
  onComplete : bool;
  paused : bool;
  times : list Q;
  startTime : Q;
  totalTasks : nat;
  (* the handler promises not settled yet, each with the [startStr]
     its callbacks captured *)
  pending : list (Item * Q);
  trace : list Observation
}.

Definition constructor (concurrency : Z) : DynamicTaskQueue :=
  {| concurrency := concurrency; queue := []; activeCount := 0;
     results := []; onProgress := false; onComplete := false;
     paused := false; times := []; startTime := 0; totalTasks := 0;
     pending := []; trace := [] |}.

Definition observe (e : Event) (q : DynamicTaskQueue) : DynamicTaskQueue :=
  {| concurrency := concurrency q; queue := queue q;
     activeCount := activeCount q; results := results q;
     onProgress := onProgress q; onComplete := onComplete q;
     paused := paused q; times := times q; startTime := startTime q;
     totalTasks := totalTasks q; pending := pending q;
     trace := (trace q ++ [mkObservation e (activeCount q) (length (queue q))])%list |}.

(** [queue.onProgress = ...; queue.onComplete = ...] *)
Definition installCallbacks (progress complete : bool) (q : DynamicTaskQueue)
  : DynamicTaskQueue :=
  {| concurrency := concurrency q; queue := queue q;
     activeCount := activeCount q; results := results q;
     onProgress := progress; onComplete := complete;
     paused := paused q; times := times q; startTime := startTime q;
     totalTasks := totalTasks q; pending := pending q; trace := trace q |}.

Definition add (items : list Item) (q : DynamicTaskQueue) : DynamicTaskQueue :=
  {| concurrency := concurrency q; queue := (queue q ++ items)%list;
     activeCount := activeCount q; results := results q;
     onProgress := onProgress q; onComplete := onComplete q;
     paused := paused q; times := times q; startTime := startTime q;
     totalTasks := totalTasks q + length items;
     pending := pending q; trace := trace q |}.

(** One iteration of the [while] loop: [activeCount++], [queue.shift()],
    read the clock, call the handler and keep its promise. *)
Definition dispatch (now : Q) (item : Item) (rest : list Item)
    (q : DynamicTaskQueue) : DynamicTaskQueue :=
  observe (HandlerCall item)
    {| concurrency := concurrency q; queue := rest;
       activeCount := activeCount q + 1; results := results q;
       onProgress := onProgress q; onComplete := onComplete q;
       paused := paused q; times := times q; startTime := startTime q;
       totalTasks := totalTasks q;
       pending := (pending q ++ [(item, now)])%list; trace := trace q |}.

(** [while (activeCount < concurrency && queue.length > 0)]; the
    recursion is on the items still queued. *)
Fixpoint fill (now : Q) (items : list Item) (q : DynamicTaskQueue)
  : DynamicTaskQueue :=
  match items with
  | [] => q
  | item :: rest =>
      if (activeCount q <? concurrency q)%Z
      then fill now rest (dispatch now item rest q)
      else q
  end.

Definition process (now : Q) (q : DynamicTaskQueue) : DynamicTaskQueue :=
  if paused q then q
  else
    let q := fill now (queue q) q in
    if (activeCount q =? 0)%Z && (length (queue q) =? 0) && onComplete q
    then observe (CompleteCall (results q)) q
    else q.

Definition start (now : Q) (q : DynamicTaskQueue) : DynamicTaskQueue :=
  process now
    {| concurrency := concurrency q; queue := queue q;
       activeCount := activeCount q; results := results q;
       onProgress := onProgress q; onComplete := onComplete q;
       paused := paused q; times := times q; startTime := now;
       totalTasks := totalTasks q; pending := pending q; trace := trace q |}.

(** [times.reduce((a, b) => a + b, 0) / times.length] *)
Definition averageOf (times : list Q) : Q :=
  if length times =? 0 then 0%Q
  else (fold_left Qplus times 0 / inject_Z (Z.of_nat (length times)))%Q.

Definition getAverageTime (q : DynamicTaskQueue) : Q := averageOf (times q).

(** [times.push(duration); if (times.length > 50) times.shift()] *)
Definition pushTime (duration : Q) (times : list Q) : list Q :=
  let times := (times ++ [duration])%list in
  if 50 <? length times then drop 1 times else times.

Definition statsOf (q : DynamicTaskQueue) : Stats :=
  {| completed := length (results q); total := totalTasks q;
     active := activeCount q; queueLen := length (queue q);
     avgTime := getAverageTime q |}.

(** The [.then(result => ...)] callback. *)
Definition onFulfilled (now startStr : Q) (result : Result)
    (q : DynamicTaskQueue) : DynamicTaskQueue :=
  let q :=
    {| concurrency := concurrency q; queue := queue q;
       activeCount := activeCount q - 1;
       results := (results q ++ [result])%list;
       onProgress := onProgress q; onComplete := onComplete q;
       paused := paused q;
       times := pushTime (now - startStr)%Q (times q);
       startTime := startTime q; totalTasks := totalTasks q;
       pending := pending q; trace := trace q |} in
  let q := if onProgress q then observe (ProgressCall (statsOf q)) q else q in
  process now q.

(** The [.catch(err => ...)] callback. *)
Definition onRejected (now : Q) (q : DynamicTaskQueue) : DynamicTaskQueue :=
  let q := observe ErrorLog q in
  let q :=
    {| concurrency := concurrency q; queue := queue q;
       activeCount := activeCount q - 1; results := results q;
       onProgress := onProgress q; onComplete := onComplete q;
       paused := paused q; times := times q; startTime := startTime q;
       totalTasks := totalTasks q; pending := pending q; trace := trace q |} in
  process now q.

Inductive Outcome :=
| Fulfilled (result : Result)
| Rejected.

(** The promise at position [index] of [pending] settles with
    [outcome] when the clock reads [at]. *)
Record Settlement := mkSettlement {
  index : nat;
  outcome : Outcome;
  at_time : Q
}.

Definition removePending (i : nat) (q : DynamicTaskQueue) : DynamicTaskQueue :=
  {| concurrency := concurrency q; queue := queue q;
     activeCount := activeCount q; results := results q;
     onProgress := onProgress q; onComplete := onComplete q;
     paused := paused q; times := times q; startTime := startTime q;
     totalTasks := totalTasks q; pending := delete i (pending q);
     trace := trace q |}.

(** One turn of the event loop; [None] when no such promise is
    pending. *)
Definition settle (s : Settlement) (q : DynamicTaskQueue) : option DynamicTaskQueue :=
  match pending q !! index s with
  | None => None
  | Some (_, startStr) =>
      let q := removePending (index s) q in
      Some match outcome s with
           | Fulfilled result => onFulfilled (at_time s) startStr result q
           | Rejected => onRejected (at_time s) q
           end
  end.

Fixpoint run (schedule : list Settlement) (q : DynamicTaskQueue)
  : option DynamicTaskQueue :=
  match schedule with
  | [] => Some q
  | s :: rest =>
      match settle s q with
      | Some q' => run rest q'
      | None => None
      end
  end.

(** A batch as the callers run it: new queue, callbacks, [add], [start]. *)
Definition batch (K : Z) (progress complete : bool) (items : list Item) (now : Q)
  : DynamicTaskQueue :=
  start now (add items (installCallbacks progress complete (constructor K))).

(** The results of the fulfilled settlements, in settlement order. *)
Fixpoint fulfilledResults (schedule : list Settlement) : list Result :=
  match schedule with
  | [] => []
  | s :: rest =>
      match outcome s with
      | Fulfilled r => r :: fulfilledResults rest
      | Rejected => fulfilledResults rest
      end
  end.

Definition isRejected (s : Settlement) : bool :=
  match outcome s with Rejected => true | Fulfilled _ => false end.

Definition rejections (schedule : list Settlement) : nat :=
  length (List.filter isRejected schedule).

Definition isComplete (o : Observation) : bool :=
  match event o with CompleteCall _ => true | _ => false end.

Definition isProgress (o : Observation) : bool :=
  match event o with ProgressCall _ => true | _ => false end.

Definition countOf (p : Observation -> bool) (t : list Observation) : nat :=
  length (List.filter p t).

Definition isHandlerCall (o : Observation) : bool :=
  match event o with HandlerCall _ => true | _ => false end.

(** The observations of one run of the [while] loop entered with
    [activeCount = lo] under the limit [hi]: handler calls, each made
    with [activeCount] above [lo] and at most [hi]. *)
Definition handlerCalls (lo hi : Z) (t : list Observation) : Prop :=
  Forall (fun o => isHandlerCall o = true /\ (lo < activeAt o <= hi)%Z) t.

(** The results a settlement appends. *)
Definition resultOf (s : Settlement) : list Result :=
  match outcome s with
  | Fulfilled r => [r]
  | Rejected => []
  end.

(** The state between two turns of a run: the counter equals the
    number of unsettled handler promises and stays within the limit,
    and so did it at every call made so far. *)
Record Consistent (q : DynamicTaskQueue) : Prop := mkConsistent {
  consistent_paused : paused q = false;
  consistent_active : activeCount q = Z.of_nat (length (pending q));
  consistent_limit : (activeCount q <= concurrency q)%Z;
  consistent_trace :
    Forall (fun o => (0 <= activeAt o <= concurrency q)%Z) (trace q)
}.

(** The observation [process] ends with when the queue is idle. *)
Definition completion (q : DynamicTaskQueue) : list Observation :=
  if (activeCount q =? 0)%Z && (length (queue q) =? 0) && onComplete q
  then [mkObservation (CompleteCall (results q)) (activeCount q) (length (queue q))]
  else [].

(** The observation a settlement starts with: the [onProgress] call of
    the [then] callback, made after its updates, or the error log of
    the [catch] callback. *)
Definition noticeOf (s : Settlement) (startStr : Q) (q : DynamicTaskQueue)
  : list Observation :=
  match outcome s with
  | Fulfilled r =>
      if onProgress q
      then [mkObservation
              (ProgressCall
                 {| completed := length (results q ++ [r]);
                    total := totalTasks q;
                    active := activeCount q - 1;
                    queueLen := length (queue q);
                    avgTime := averageOf (pushTime (at_time s - startStr)%Q (times q)) |})
              (activeCount q - 1) (length (queue q))]
      else []
  | Rejected => [mkObservation ErrorLog (activeCount q) (length (queue q))]
  end.

(** After [process], no slot is free while items are queued. *)
Definition Saturated (q : DynamicTaskQueue) : Prop :=
  queue q = [] \/ (concurrency q <= activeCount q)%Z.

(** The state of a batch of [N] items under the limit [K] after the
    settlements [history]: every item is settled, in flight or queued;
    the results are those of the fulfilled settlements, in order; and
    [onComplete] has been called only as the last call of an idle
    queue. *)
Record Tracking (N : nat) (K : Z) (history : list Settlement)
    (q : DynamicTaskQueue) : Prop := mkTracking {
  tracking_consistent : Consistent q;
  tracking_saturated : Saturated q;
  tracking_limit : concurrency q = K;
  tracking_onComplete : onComplete q = true;
  tracking_results : results q = fulfilledResults history;
  tracking_count : length history + length (pending q) + length (queue q) = N;
  tracking_trace :
    exists pre, trace q = (pre ++ completion q)%list /\ countOf isComplete pre = 0
}.

End Scheduler.

Arguments HandlerCall {Item Result}.
Arguments ProgressCall {Item Result}.
Arguments ErrorLog {Item Result}.
Arguments CompleteCall {Item Result}.
Arguments mkObservation {Item Result}.
Arguments event {Item Result}.
Arguments activeAt {Item Result}.
Arguments queueAt {Item Result}.
Arguments mkQueue {Item Result}.
Arguments concurrency {Item Result}.
Arguments queue {Item Result}.
Arguments activeCount {Item Result}.
Arguments results {Item Result}.
Arguments onProgress {Item Result}.
Arguments onComplete {Item Result}.
Arguments paused {Item Result}.
Arguments times {Item Result}.
Arguments startTime {Item Result}.
Arguments totalTasks {Item Result}.
Arguments pending {Item Result}.
Arguments trace {Item Result}.
Arguments constructor {Item Result}.
Arguments observe {Item Result}.
Arguments installCallbacks {Item Result}.
Arguments add {Item Result}.
Arguments dispatch {Item Result}.
Arguments fill {Item Result}.
Arguments process {Item Result}.
Arguments start {Item Result}.
Arguments getAverageTime {Item Result}.
Arguments statsOf {Item Result}.
Arguments onFulfilled {Item Result}.
Arguments onRejected {Item Result}.
Arguments Fulfilled {Result}.
Arguments Rejected {Result}.
Arguments mkSettlement {Result}.
Arguments index {Result}.
Arguments outcome {Result}.
Arguments at_time {Result}.
Arguments removePending {Item Result}.
Arguments settle {Item Result}.
Arguments run {Item Result}.
Arguments batch {Item Result}.
Arguments fulfilledResults {Result}.
Arguments isRejected {Result}.
Arguments rejections {Result}.
Arguments isComplete {Item Result}.
Arguments isProgress {Item Result}.
Arguments countOf {Item Result}.
Arguments isHandlerCall {Item Result}.
Arguments handlerCalls {Item Result}.
Arguments Consistent {Item Result}.
Arguments Saturated {Item Result}.
Arguments Tracking {Item Result}.
Arguments completion {Item Result}.
Arguments noticeOf {Item Result}.
Arguments resultOf {Result}.

(* ================================================================== *)
(** * Pre-calculation of file names ([organizeFiles], step 2)          *)
(* ================================================================== *)

(** The character class of the first [replace]: the control characters
    0x00 to 0x1F and less-than, greater-than, colon, double quote, slash,
    backslash, bar, question mark, asterisk. *)
Definition illegalUnit (c : N) : bool :=
  (c <=? 31)%N ||
  bool_decide (c ∈ [60; 62; 58; 34; 47; 92; 124; 63; 42]%N).

(** The first [replace]: every such character becomes an underscore. *)
Definition replaceIllegal (s : jsstring) : jsstring :=
  map (fun c => if illegalUnit c then underscore else c) s.

Fixpoint dropDots (s : jsstring) : jsstring :=
  match s with
  | [] => []
  | c :: rest => if N.eqb c dot then dropDots rest else s
  end.

(** The second [replace]: a leading run of dots becomes one underscore. *)
Definition replaceLeadingDots (s : jsstring) : jsstring :=
  match s with
  | [] => []
  | c :: _ => if N.eqb c dot then underscore :: dropDots s else s
  end.

Definition sanitize (name : jsstring) : jsstring :=
  substring 0 200 (replaceLeadingDots (replaceIllegal name)).

(** The code units [trim()] removes: WhiteSpace and LineTerminator. *)
Definition isWhiteSpace (c : N) : bool :=
  bool_decide (c ∈ [9; 10; 11; 12; 13; 32; 160; 5760; 8232; 8233; 8239; 8287;
                    12288; 65279]%N)
  || ((8192 <=? c)%N && (c <=? 8202)%N).

(** [!safeName || safeName.trim() === ''] *)
Definition isBlank (s : jsstring) : bool := forallb isWhiteSpace s.

(** The sanitized name, with the [unnamed_${Date.now()}] replacement;
    [now] is the reading of [Date.now()]. *)
Definition safeNameOf (now : N) (name : jsstring) : jsstring :=
  let safeName := sanitize name in
  if isBlank safeName then (str "unnamed_" ++ decimal now)%list else safeName.

(** The body of the duplicate loop: the name tried for [counter]. *)
Definition suffixed (safeName : jsstring) (counter : nat) : jsstring :=
  let dotIdx := lastIndexOf dot safeName in
  if (0 <? dotIdx)%Z
  then (substring 0 dotIdx safeName ++ [underscore] ++ decimal (N.of_nat counter)
          ++ substringFrom dotIdx safeName)%list
  else (safeName ++ [underscore] ++ decimal (N.of_nat counter))%list.

(** The name held by [finalName] at the [k]-th test of the loop
    condition: the sanitized name itself, then the suffixed names. *)
Definition attempt (safeName : jsstring) (k : nat) : jsstring :=
  match k with
  | 0 => safeName
  | S _ => suffixed safeName k
  end.

Section Resolver.

Variable toLowerCase : jsstring -> jsstring.
Variable Blob : Type.

Record WriteJob := mkWriteJob {
  folderName : jsstring;
  fileInfo_name : jsstring
}.

Record ReadyJob := mkReadyJob {
  ready_folderName : jsstring;
  finalName : jsstring;
  fileBlob : Blob
}.

(** [while (folderSet.has(finalName.toLowerCase())) { finalName = ...;
    counter++; }] with a bound on the number of tests of the
    condition; [None] when the bound is reached. *)
Fixpoint uniqueName (fuel : nat) (folderSet : gset jsstring)
    (safeName finalName : jsstring) (counter : nat) : option jsstring :=
  match fuel with
  | 0 => None
  | S fuel' =>
      if bool_decide (toLowerCase finalName ∈ folderSet)
      then uniqueName fuel' folderSet safeName (suffixed safeName counter) (S counter)
      else Some finalName
  end.

Record ResolverState := mkResolverState {
  usedNames : gmap jsstring (gset jsstring);
  readyJobs : list ReadyJob
}.

(** [usedNames.get(folder)] after the set has been initialised. *)
Definition folderSetOf (used : gmap jsstring (gset jsstring)) (folder : jsstring)
  : gset jsstring :=
  default ∅ (used !! folder).

(** The callback of [writeJobs.forEach]. *)
Definition resolveJob (currentFileData : gmap jsstring Blob) (now : N)
    (job : WriteJob) (st : ResolverState) : option ResolverState :=
  match currentFileData !! fileInfo_name job with
  | None => Some st
  | Some file =>
      let folderSet := folderSetOf (usedNames st) (folderName job) in
      let safeName := safeNameOf now (fileInfo_name job) in
      match uniqueName (S (size folderSet)) folderSet safeName safeName 1 with
      | None => None
      | Some final =>
          Some {| usedNames :=
                    <[folderName job := {[toLowerCase final]} ∪ folderSet]> (usedNames st);
                  readyJobs :=
                    (readyJobs st ++ [mkReadyJob (folderName job) final file])%list |}
      end
  end.

(** [writeJobs.forEach(...)]; [clock i] is the reading of [Date.now()]
    while the job at position [i] is handled. *)
Fixpoint resolveFrom (currentFileData : gmap jsstring Blob) (clock : nat -> N)
    (i : nat) (jobs : list WriteJob) (st : ResolverState) : option ResolverState :=
  match jobs with
  | [] => Some st
  | job :: rest =>
      match resolveJob currentFileData (clock i) job st with
      | None => None
      | Some st' => resolveFrom currentFileData clock (S i) rest st'
      end
  end.

Definition resolveNames (currentFileData : gmap jsstring Blob) (clock : nat -> N)
    (writeJobs : list WriteJob) : option (list ReadyJob) :=
  option_map readyJobs
    (resolveFrom currentFileData clock 0 writeJobs (mkResolverState ∅ [])).

(** The folder and the lower-cased name a ready job claims. *)
Definition claim (job : ReadyJob) : jsstring * jsstring :=
  (ready_folderName job, toLowerCase (finalName job)).

(** The sets of [usedNames] hold the claims of the ready jobs, and no
    claim is made twice. *)
Record Claimed (st : ResolverState) : Prop := mkClaimed {
  claimed_sets : forall folder x,
    x ∈ folderSetOf (usedNames st) folder <->
    (folder, x) ∈ map claim (readyJobs st);
  claimed_once : NoDup (map claim (readyJobs st))
}.

End Resolver.

Arguments mkReadyJob {Blob}.
Arguments ready_folderName {Blob}.
Arguments finalName {Blob}.
Arguments fileBlob {Blob}.
Arguments mkResolverState {Blob}.
Arguments usedNames {Blob}.
Arguments readyJobs {Blob}.
Arguments resolveJob toLowerCase {Blob}.
Arguments resolveFrom toLowerCase {Blob}.
Arguments resolveNames toLowerCase {Blob}.
Arguments claim toLowerCase {Blob}.
Arguments Claimed toLowerCase {Blob}.

(** The characters [bytesToHex] produces. *)
Definition isHexChar (c : ascii) : Prop :=
  In c (list_ascii_of_string hexChars).

(** What the worker loop returns: the first matching entry, or Unknown. *)
Inductive FirstMatch (h : string) (table : list WorkerSignature) : TypeInfo -> Prop :=
| FirstMatch_found pre sig post :
    table = (pre ++ sig :: post)%list ->
    Forall (fun s => startsWith h (w_hex s) = false) pre ->
    startsWith h (w_hex sig) = true ->
    FirstMatch h table (mkTypeInfo (w_type sig) (w_category sig))
| FirstMatch_none :
    Forall (fun s => startsWith h (w_hex s) = false) table ->
    FirstMatch h table unknownType.

(** Follows the wording of the specification, for comparison with
    [startsWith]: a pattern in which a question mark stands for one
    don't-care hex digit, skipped during the comparison. *)
Fixpoint spec_wildcardPrefix (pattern h : string) : bool :=
  match pattern, h with
  | EmptyString, _ => true
  | String _ _, EmptyString => false
  | String p pattern', String c h' =>
      (Ascii.eqb p "?" || Ascii.eqb p c) && spec_wildcardPrefix pattern' h'
  end.

(** The number of occurrences of the byte value [i]. *)
Fixpoint occ (i : nat) (bytes : list byte) : nat :=
  match bytes with
  | [] => 0
  | b :: rest => (if Nat.eqb (Byte.to_nat b) i then 1 else 0) + occ i rest
  end.

(** The term [p * Math.log2(p)] of a bucket holding [f] of [len] bytes,
    0 for an empty bucket. *)
Definition plogp (len f : nat) : R :=
  if 0 <? f then (INR f / INR len * log2 (INR f / INR len))%R else 0%R.

Definition Rsum (l : list R) : R := fold_right Rplus 0%R l.

(** The number of distinct byte values of a sequence. *)
#[global] Instance byte_eq_decision : EqDecision byte := Byte.byte_eq_dec.

Definition distinctValues (bytes : list byte) : nat :=
  length (remove_dups bytes).

(* ================================================================== *)
(** * Further definitions                                              *)
(* ================================================================== *)

(** Two patterns of which one is a prefix of the other. *)
Definition comparable (p1 p2 : string) : bool :=
  startsWith p1 p2 || startsWith p2 p1.

#[global] Instance Signature_eq_dec : EqDecision Signature.
Proof. solve_decision. Defined.

#[global] Instance WorkerSignature_eq_dec : EqDecision WorkerSignature.
Proof. solve_decision. Defined.

(** No pattern of the table is a prefix of the pattern of another entry. *)
Definition prefixFree (table : list Signature) : bool :=
  forallb (fun s1 =>
    forallb (fun s2 =>
      implb (comparable (hex s1) (hex s2)) (bool_decide (s1 = s2))) table) table.

(** Entries of the two tables with comparable patterns carry the same
    type and category. *)
Definition tablesAgree (worker : list WorkerSignature) (table : list Signature) : bool :=
  forallb (fun w =>
    forallb (fun s =>
      implb (comparable (w_hex w) (hex s))
            (bool_decide (w_type w = sig_type s) &&
             bool_decide (w_category w = sig_category s))) table) worker.

(** The items the handler was called with, in call order. *)
Fixpoint handlerItems {Item Result : Type} (t : list (Observation Item Result))
  : list Item :=
  match t with
  | [] => []
  | o :: rest =>
      match event o with
      | HandlerCall item => item :: handlerItems rest
      | _ => handlerItems rest
      end
  end.

(** The [completed] counts passed to [onProgress], in call order. *)
Fixpoint progressCompleted {Item Result : Type} (t : list (Observation Item Result))
  : list nat :=
  match t with
  | [] => []
  | o :: rest =>
      match event o with
      | ProgressCall stats => completed stats :: progressCompleted rest
      | _ => progressCompleted rest
      end
  end.

(* ================================================================== *)
(** * The concurrency profile of [analyzeFiles]                        *)
(* ================================================================== *)

(** [fileArray.reduce((acc, f) => acc + f.size, 0)] *)
Definition totalSizeOf (sizes : list nat) : nat := fold_left Nat.add sizes 0.

(** [totalSize / totalFiles], as an exact quotient. *)
Definition averageSize (sizes : list nat) : Q :=
  (inject_Z (Z.of_nat (totalSizeOf sizes)) / inject_Z (Z.of_nat (length sizes)))%Q.

(** The limit [analyzeFiles] creates its queue with, for the file sizes
    of the batch; [None] for an empty batch, for which the function
    returns before creating a queue. *)
Definition analysisConcurrency (sizes : list nat) : option Z :=
  if length sizes =? 0 then None
  else
    let avgSize := averageSize sizes in
    if Qlt_le_dec avgSize (1024 * 1024) then Some 128%Z
    else if Qlt_le_dec (50 * 1024 * 1024) avgSize then Some 4%Z
    else Some 32%Z.

(** A name that can be written on the usual file systems: none of the
    characters the first [replace] removes, not blank, no leading dot. *)
Definition legalName (n : jsstring) : Prop :=
  Forall (fun c => illegalUnit c = false) n /\
  isBlank n = false /\
  head n <> Some dot.

(** What is known of a ready job: how it is named and which write job
    it comes from. *)
Definition Resolved {Blob : Type} (currentFileData : gmap jsstring Blob)
    (jobs : list WriteJob) (r : ReadyJob Blob) : Prop :=
  legalName (finalName r) /\
  exists job now k,
    In job jobs /\
    ready_folderName r = folderName job /\
    currentFileData !! fileInfo_name job = Some (fileBlob r) /\
    finalName r = attempt (safeNameOf now (fileInfo_name job)) k.

(* ================================================================== *)
(** * Escaping for HTML attributes ([escapeAttr])                      *)
(* ================================================================== *)

(** [s.replace(/c/g, by)] for a one-character pattern. *)
Definition replaceAll (c : N) (by_ : jsstring) (s : jsstring) : jsstring :=
  flat_map (fun x => if N.eqb x c then by_ else [x]) s.

Definition ampersand : N := 38.
Definition doubleQuote : N := 34.
Definition apostrophe : N := 39.
Definition lessThan : N := 60.
Definition greaterThan : N := 62.

(** [escapeAttr(text)] for a string [text]: the five replacements, one
    after the other. *)
Definition escapeAttr (text : jsstring) : jsstring :=
  replaceAll greaterThan (str "&gt;")
    (replaceAll lessThan (str "&lt;")
       (replaceAll apostrophe (str "&#39;")
          (replaceAll doubleQuote (str "&quot;")
             (replaceAll ampersand (str "&amp;") text)))).

(** The replacement of one character by its entity, the reading of the
    chain of replacements the theorems compare it with. *)
Definition escapeUnit (c : N) : jsstring :=
  if N.eqb c ampersand then str "&amp;"
  else if N.eqb c doubleQuote then str "&quot;"
  else if N.eqb c apostrophe then str "&#39;"
  else if N.eqb c lessThan then str "&lt;"
  else if N.eqb c greaterThan then str "&gt;"
  else [c].

(** The characters that end or open markup inside a quoted attribute. *)
Definition breaksAttribute (c : N) : bool :=
  N.eqb c doubleQuote || N.eqb c apostrophe || N.eqb c lessThan || N.eqb c greaterThan.

(* ================================================================== *)
(** * String extraction ([extractStrings])                             *)
(* ================================================================== *)

(** [byte >= 32 && byte <= 126] *)
Definition printable (b : byte) : bool :=
  (32 <=? Byte.to_N b)%N && (Byte.to_N b <=? 126)%N.

Record FoundString := mkFoundString {
  offset : Z;
  value : jsstring
}.

Definition lengthZ (s : jsstring) : Z := Z.of_nat (length s).

(** The body of the [for] loop, from index [i] on; [rest] holds the
    bytes from [i]. *)
Fixpoint extractLoop (minLength : Z) (rest : list byte) (i : Z)
    (strings : list FoundString) (currentString : jsstring)
  : list FoundString * jsstring :=
  match rest with
  | [] => (strings, currentString)
  | byte :: rest' =>
      if printable byte
      then extractLoop minLength rest' (i + 1) strings
             (currentString ++ [Byte.to_N byte])%list
      else
        let strings' :=
          if (minLength <=? lengthZ currentString)%Z
          then (strings ++ [mkFoundString (i - lengthZ currentString) currentString])%list
          else strings in
        extractLoop minLength rest' (i + 1) strings' []
  end.

Definition extractStrings (bytes : list byte) (minLength : Z) : list FoundString :=
  let '(strings, currentString) := extractLoop minLength bytes 0 [] [] in
  if (minLength <=? lengthZ currentString)%Z
  then (strings ++
        [mkFoundString (Z.of_nat (length bytes) - lengthZ currentString)
           currentString])%list
  else strings.

(** [run] is a run of printable bytes of [bytes] that cannot be
    extended: the byte before it and the byte after it, where there is
    one, are not printable. *)
Definition MaximalRun (bytes before run after : list byte) : Prop :=
  bytes = (before ++ run ++ after)%list /\
  forallb printable run = true /\
  (forall b, last before = Some b -> printable b = false) /\
  (forall b, head after = Some b -> printable b = false).

(** The state of the loop when the bytes [done] have been read. *)
Definition LoopState (done : list byte) (i : Z) (currentString : jsstring) : Prop :=
  i = Z.of_nat (length done) /\
  exists pre run,
    done = (pre ++ run)%list /\ currentString = map Byte.to_N run /\
    forallb printable run = true /\
    (forall b, last pre = Some b -> printable b = false).

(* ================================================================== *)
(** * Summary statistics ([displayResults], [saveToHistory],
      [exportReport])                                                  *)
(* ================================================================== *)

(** The own properties of a plain object, in insertion order. *)
Definition JsObject (V : Type) : Type := list (string * V).

Fixpoint getOwn {V} (k : string) (o : JsObject V) : option V :=
  match o with
  | [] => None
  | (k', v) :: rest => if String.eqb k' k then Some v else getOwn k rest
  end.

(** [o[k] = v]: the property is replaced where it is, or added last. *)
Fixpoint setOwn {V} (k : string) (v : V) (o : JsObject V) : JsObject V :=
  match o with
  | [] => [(k, v)]
  | (k', v') :: rest =>
      if String.eqb k' k then (k', v) :: rest else (k', v') :: setOwn k v rest
  end.

(** The own keys in insertion order; [Object.keys(o)] lists them so
    when none of them is an array index. *)
Definition keysOf {V} (o : JsObject V) : list string := map fst o.

(** The names [Object.prototype] defines: for these [o[k]] is found on
    the prototype of an object literal and is truthy. *)
Definition inheritedKeys : list string :=
  [ "constructor"; "__proto__"; "hasOwnProperty"; "isPrototypeOf";
    "propertyIsEnumerable"; "toLocaleString"; "toString"; "valueOf";
    "__defineGetter__"; "__defineSetter__"; "__lookupGetter__";
    "__lookupSetter__" ]%string.

Definition inherited (k : string) : bool :=
  existsb (String.eqb k) inheritedKeys.

Record TypeStat := mkTypeStat {
  stat_count : nat;
  stat_size : nat;
  stat_category : string
}.

(** The three statements on [typeStats] in the [forEach] of
    [displayResults]. For a type that names a property of
    [Object.prototype] the test finds that property, nothing is
    initialised, and the two updates do not reach an own property. *)
Definition recordStat (typeStats : JsObject TypeStat) (f : Result.t)
  : JsObject TypeStat :=
  if inherited (Result.type f) then typeStats
  else
    let typeStats1 :=
      match getOwn (Result.type f) typeStats with
      | Some _ => typeStats
      | None => setOwn (Result.type f) (mkTypeStat 0 0 (Result.category f)) typeStats
      end in
    let typeStats2 :=
      match getOwn (Result.type f) typeStats1 with
      | Some s =>
          setOwn (Result.type f)
            (mkTypeStat (stat_count s + 1) (stat_size s) (stat_category s)) typeStats1
      | None => typeStats1
      end in
    match getOwn (Result.type f) typeStats2 with
    | Some s =>
        setOwn (Result.type f)
          (mkTypeStat (stat_count s) (stat_size s + Result.size f) (stat_category s))
          typeStats2
    | None => typeStats2
    end.

(** [analysisResults.reduce((sum, f) => sum + f.size, 0)] *)
Definition totalSizeOfResults (analysisResults : list Result.t) : nat :=
  fold_left (fun sum f => sum + Result.size f) analysisResults 0.

Record Tally := mkTally {
  typeStats : JsObject TypeStat;
  issues : nat;
  encryptedCount : nat
}.

(** The callback of the [forEach] of [displayResults]. *)
Definition tallyStep (t : Tally) (f : Result.t) : Tally :=
  {| typeStats := recordStat (typeStats t) f;
     issues := if Result.isCorrupt f || Result.extensionMismatch f
               then issues t + 1 else issues t;
     encryptedCount := if Result.isEncrypted f
                       then encryptedCount t + 1 else encryptedCount t |}.

Definition tally (analysisResults : list Result.t) : Tally :=
  fold_left tallyStep analysisResults (mkTally [] 0 0).

(** The numbers on the summary cards. *)
Record Summary := mkSummary {
  card_totalFiles : nat;
  card_totalSize : nat;
  card_fileTypes : nat;
  card_issues : nat;
  card_encryptedFiles : nat
}.

Definition displayResults (analysisResults : list Result.t) : Summary :=
  let totalSize := totalSizeOfResults analysisResults in
  let t := tally analysisResults in
  {| card_totalFiles := length analysisResults;
     card_totalSize := totalSize;
     card_fileTypes := length (keysOf (typeStats t));
     card_issues := issues t;
     card_encryptedFiles := encryptedCount t |}.

(** [[...new Set(xs)]]: the distinct values in order of first
    occurrence. *)
Fixpoint setFrom (seen xs : list string) : list string :=
  match xs with
  | [] => seen
  | x :: rest =>
      setFrom (if existsb (String.eqb x) seen then seen else seen ++ [x])%list rest
  end.

Definition uniqueValues (xs : list string) : list string := setFrom [] xs.

(** The numeric fields of the report of [exportReport]. *)
Record Report := mkReport {
  report_totalFiles : nat;
  report_totalSize : nat;
  report_corruptFiles : nat;
  report_mismatchedFiles : nat;
  report_encryptedFiles : nat;
  report_uniqueTypes : nat
}.

Definition exportReport (analysisResults : list Result.t) : Report :=
  {| report_totalFiles := length analysisResults;
     report_totalSize := totalSizeOfResults analysisResults;
     report_corruptFiles := length (List.filter Result.isCorrupt analysisResults);
     report_mismatchedFiles :=
       length (List.filter Result.extensionMismatch analysisResults);
     report_encryptedFiles := length (List.filter Result.isEncrypted analysisResults);
     report_uniqueTypes :=
       length (uniqueValues (map Result.type analysisResults)) |}.

(** The entry [saveToHistory] puts in front of the history; [date] is
    the reading of the clock. *)
Record HistoryEntry := mkHistoryEntry {
  entry_date : jsstring;
  entry_filesCount : nat;
  entry_totalSize : nat;
  entry_issues : nat;
  entry_types : list string
}.

Definition historyEntry (date : jsstring) (analysisResults : list Result.t)
  : HistoryEntry :=
  {| entry_date := date;
     entry_filesCount := length analysisResults;
     entry_totalSize := totalSizeOfResults analysisResults;
     entry_issues :=
       length (List.filter (fun f => Result.isCorrupt f || Result.extensionMismatch f)
                 analysisResults);
     entry_types := uniqueValues (map Result.type analysisResults) |}.

(** [history.unshift(entry); if (history.length > 20) history.pop();] *)
Definition saveToHistory (history : list HistoryEntry) (date : jsstring)
    (analysisResults : list Result.t) : list HistoryEntry :=
  let history1 := historyEntry date analysisResults :: history in
  if 20 <? length history1 then removelast history1 else history1.

(** Sums over the entries of [typeStats]. *)
Definition sumOver (g : TypeStat -> nat) (o : JsObject TypeStat) : nat :=
  fold_right (fun kv acc => g (snd kv) + acc) 0 o.

(** The queue's results for a batch of files, in the order given. *)
Definition recordsOf (toLowerCase : jsstring -> jsstring) (files : list File.t)
  : list Result.t :=
  map (fun file => fst (analyzeFile toLowerCase file)) files.

(* ================================================================== *)
(** * Suggested names ([showFixExtensions])                            *)
(* ================================================================== *)

(** [name.replace(/\.[^.]+$/, '')]: the pattern matches from the last
    dot when at least one character follows it. *)
Definition stripExtension (name : jsstring) : jsstring :=
  let lastDot := lastIndexOf dot name in
  if (0 <=? lastDot)%Z && (lastDot <? Z.of_nat (length name) - 1)%Z
  then substring 0 lastDot name
  else name.

(** [magicDatabase.find(s => s.type === f.type)] *)
Definition findByType (ty : string) : option Signature :=
  List.find (fun s => String.eqb (sig_type s) ty) magicDatabase.

(** [sig?.extensions?.[0] || '.unknown'] *)
Definition suggestedExt (f : Result.t) : jsstring :=
  match findByType (Result.type f) with
  | Some sig =>
      match extensions sig with
      | e :: _ => if truthy e then e else str ".unknown"
      | [] => str ".unknown"
      end
  | None => str ".unknown"
  end.

Definition suggestedName (f : Result.t) : jsstring :=
  (stripExtension (Result.name f) ++ suggestedExt f)%list.

(** The pairs of old and new name [showFixExtensions] lists; [None]
    when no result is mismatched and only the toast is shown. *)
Definition showFixExtensions (analysisResults : list Result.t)
  : option (list (jsstring * jsstring)) :=
  let mismatched := List.filter Result.extensionMismatch analysisResults in
  if length mismatched =? 0 then None
  else Some (map (fun f => (Result.name f, suggestedName f)) mismatched).

(** The file under another name. *)
Definition renamed (file : File.t) (newName : jsstring) : File.t :=
  File.mk newName (File.webkitRelativePath file) (File.size file)
    (File.type file) (File.content file).

(** What the table gives for the type of any of its signatures: the
    first signature of that type has a first extension; when that is not
    empty it is a dot followed by characters other than the dot, and the
    signature lists it. No signature lists [.unknown]. *)
Definition suggestionFits (sig : Signature) : bool :=
  negb (includes (extensions sig) (str ".unknown")) &&
  match findByType (sig_type sig) with
  | Some sig0 =>
      match extensions sig0 with
      | [] :: _ => true
      | (c :: rest) :: _ =>
          N.eqb c dot && negb (existsb (N.eqb dot) rest) &&
          includes (extensions sig) (c :: rest)
      | [] => false
      end
  | None => false
  end.

(* ================================================================== *)
(** * The worker pool ([runOnWorker], [processQueue],
      [handleWorkerMessage])                                           *)
(* ================================================================== *)

(** [l.findIndex(p)], [None] for -1. *)
Fixpoint findIndex {A} (p : A -> bool) (l : list A) : option nat :=
  match l with
  | [] => None
  | x :: rest => if p x then Some 0 else option_map S (findIndex p rest)
  end.

Record PoolTask := mkPoolTask {
  task_id : nat;
  sent : bool
}.

(** A message posted to a worker: the index of the worker in the pool
    and the id of the task. *)
Record Posted := mkPosted {
  posted_worker : nat;
  posted_id : nat
}.

(** The pool: the [busy] flags of the workers, the queue of tasks not
    yet answered, the id counter, and the messages posted so far. *)
Record Pool := mkPool {
  workerPool : list bool;
  workerQueue : list PoolTask;
  workerIdCounter : nat;
  postedMessages : list Posted
}.

(** [initWorkerPool] for [count] workers; [count] is 0 when workers
    are not supported. *)
Definition initWorkerPool (count : nat) : Pool :=
  mkPool (replicate count false) [] 0 [].

Definition processQueue (p : Pool) : Pool :=
  match findIndex negb (workerPool p),
        findIndex (fun t => negb (sent t)) (workerQueue p) with
  | Some w, Some i =>
      match workerQueue p !! i with
      | Some pendingTask =>
          {| workerPool := <[w := true]> (workerPool p);
             workerQueue :=
               <[i := mkPoolTask (task_id pendingTask) true]> (workerQueue p);
             workerIdCounter := workerIdCounter p;
             postedMessages :=
               (postedMessages p ++ [mkPosted w (task_id pendingTask)])%list |}
      | None => p
      end
  | _, _ => p
  end.

(** [runOnWorker]: with an empty pool the promise is rejected and
    nothing is queued. *)
Definition runOnWorker (p : Pool) : Pool :=
  if length (workerPool p) =? 0 then p
  else
    processQueue
      {| workerPool := workerPool p;
         workerQueue :=
           (workerQueue p ++ [mkPoolTask (workerIdCounter p) false])%list;
         workerIdCounter := workerIdCounter p + 1;
         postedMessages := postedMessages p |}.

(** What a worker sends: the ready notice, or the answer to a task. *)
Inductive WorkerMessage :=
| ReadyNotice
| Answer (id : nat) (success : bool).

(** [handleWorkerMessage] for a message of the worker at index
    [worker]. *)
Definition handleWorkerMessage (worker : nat) (m : WorkerMessage) (p : Pool) : Pool :=
  match m with
  | ReadyNotice => p
  | Answer id _ =>
      let queue' :=
        match findIndex (fun t => task_id t =? id) (workerQueue p) with
        | Some taskIndex => delete taskIndex (workerQueue p)
        | None => workerQueue p
        end in
      processQueue
        {| workerPool := <[worker := false]> (workerPool p);
           workerQueue := queue';
           workerIdCounter := workerIdCounter p;
           postedMessages := postedMessages p |}
  end.

Inductive PoolEvent :=
| Submit
| Message (worker : nat) (m : WorkerMessage).

Definition poolStep (p : Pool) (e : PoolEvent) : Pool :=
  match e with
  | Submit => runOnWorker p
  | Message worker m => handleWorkerMessage worker m p
  end.

Definition runPool (events : list PoolEvent) (p : Pool) : Pool :=
  fold_left poolStep events p.

Definition countIf {A} (p : A -> bool) (l : list A) : nat :=
  length (List.filter p l).

(** The ids in the pool: those of the queue are distinct and were
    given out by the counter, as were the posted ones; no id was posted
    twice, and the id of a task not yet sent was not posted. *)
Record PoolIds (p : Pool) : Prop := mkPoolIds {
  pool_ids_distinct : NoDup (map task_id (workerQueue p));
  pool_ids_below : Forall (fun t => task_id t < workerIdCounter p) (workerQueue p);
  pool_posted_below :
    Forall (fun m => posted_id m < workerIdCounter p) (postedMessages p);
  pool_posted_once : NoDup (map posted_id (postedMessages p));
  pool_unsent_unposted :
    forall i t, workerQueue p !! i = Some t -> sent t = false ->
                ~ In (task_id t) (map posted_id (postedMessages p))
}.

(** No worker is idle while a task waits to be sent. *)
Definition Conserving (p : Pool) : Prop :=
  countIf negb (workerPool p) = 0 \/
  countIf (fun t => negb (sent t)) (workerQueue p) = 0.

(* ================================================================== *)
(** * Properties                                                       *)
(* ================================================================== *)

(* ================================================================== *)
(** * Signature matching                                               *)
(* ================================================================== *)

(** [startsWith] is literal prefix comparison. *)
Lemma startsWith_spec (h pattern : string) :
  startsWith h pattern = true <-> exists rest, h = pattern ++ rest.
Proof.
  unfold startsWith. revert h.
  induction pattern as [|c pattern IH]; intros h; simpl.
  - split; [intros _; exists h; reflexivity | intros _; now destruct h].
  - destruct h as [|d h]; simpl.
    + split; [discriminate | intros [rest Hrest]; discriminate].
    + destruct (ascii_dec c d) as [->|Hne].
      * rewrite IH. split; intros [rest Hrest]; exists rest.
        -- now rewrite Hrest.
        -- now inversion Hrest.
      * split; [discriminate | intros [rest Hrest]; inversion Hrest; congruence].
Qed.

Lemma startsWith_head (h pattern : string) (c : ascii) :
  startsWith h (String c pattern) = true ->
  exists h', h = String c h' /\ startsWith h' pattern = true.
Proof.
  unfold startsWith. destruct h as [|d h]; simpl; [discriminate|].
  destruct (ascii_dec c d) as [->|]; [|discriminate].
  intros H; exists h; auto.
Qed.

Lemma hexDigit_isHexChar (n : nat) : isHexChar (hexDigit n).
Proof.
  unfold isHexChar, hexDigit.
  do 16 (destruct n as [|n]; [simpl; tauto|]).
  simpl. tauto.
Qed.

Lemma bytesToHex_chars (bytes : list byte) (c : ascii) :
  In c (list_ascii_of_string (bytesToHex bytes)) -> isHexChar c.
Proof.
  induction bytes as [|b bytes IH]; simpl; [tauto|].
  intros [<-|[<-|H]]; auto using hexDigit_isHexChar.
Qed.

(** A pattern that matches a rendered header consists of hex digits. *)
Lemma startsWith_chars (h pattern : string) (c : ascii) :
  startsWith h pattern = true ->
  In c (list_ascii_of_string pattern) ->
  In c (list_ascii_of_string h).
Proof.
  revert h. induction pattern as [|p pattern IH]; intros h Hm Hin; simpl in Hin.
  - contradiction.
  - apply startsWith_head in Hm as (h' & -> & Hm'). simpl.
    destruct Hin as [->|Hin]; [now left | right; eauto].
Qed.

Lemma literal_only (bytes : list byte) (pattern : string) (c : ascii) :
  In c (list_ascii_of_string pattern) -> ~ isHexChar c ->
  startsWith (bytesToHex bytes) pattern = false.
Proof.
  intros Hin Hnot.
  destruct (startsWith (bytesToHex bytes) pattern) eqn:Hm; [|reflexivity].
  exfalso. apply Hnot. eapply bytesToHex_chars, startsWith_chars; eauto.
Qed.

Lemma detectIn_first (table : list WorkerSignature) (h : string) :
  FirstMatch h table (detectIn table h).
Proof.
  induction table as [|sig table IH]; simpl.
  - apply FirstMatch_none. constructor.
  - destruct (startsWith h (w_hex sig)) eqn:Hm.
    + apply (FirstMatch_found h _ [] sig table); auto.
    + inversion IH as [pre sig' post Heq Hpre Hsig Hres | Hall Hres].
      * apply (FirstMatch_found h _ (sig :: pre) sig' post); auto.
        simpl. now rewrite Heq.
      * apply FirstMatch_none. now constructor.
Qed.

(** The same for the loop of [analyzeFile]. *)
Lemma matchMagic_first (table : list Signature) (h : string) :
  match matchMagic table h with
  | Some sig =>
      exists pre post, table = (pre ++ sig :: post)%list /\
        Forall (fun s => startsWith h (hex s) = false) pre /\
        startsWith h (hex sig) = true
  | None => Forall (fun s => startsWith h (hex s) = false) table
  end.
Proof.
  induction table as [|sig table IH]; simpl.
  - constructor.
  - destruct (startsWith h (hex sig)) eqn:Hm.
    + exists [], table. auto.
    + destruct (matchMagic table h) as [sig'|].
      * destruct IH as (pre & post & -> & Hpre & Hsig).
        exists (sig :: pre), post. auto.
      * now constructor.
Qed.

(** C10. [detectType] reads its input through [bytes.slice(0, 16)]: two
    inputs with the same first 16 bytes get the same type and category,
    whatever follows. *)
Theorem detectType_first_16_bytes (a b : list byte) :
  take 16 a = take 16 b -> detectType a = detectType b.
Proof.
  intros H. unfold detectType. now rewrite H.
Qed.

Lemma detectType_first_16_bytes_witness :
  let a := (repeat x00 16 ++ [x01])%list in
  let b := (repeat x00 16 ++ [xff; x02])%list in
  a <> b /\ detectType a = detectType b.
Proof.
  split; [discriminate|].
  apply (detectType_first_16_bytes
           (repeat x00 16 ++ [x01])%list (repeat x00 16 ++ [xff; x02])%list).
  reflexivity.
Defined.



(* ================================================================== *)
(** * The analysis pipeline                                            *)
(* ================================================================== *)

Section PipelineFacts.

Variable toLowerCase : jsstring -> jsstring.

(** The record and the calls for content of fewer than two bytes. *)
Lemma analyzeFile_short (file : File.t) (bytes : list byte) :
  File.content file = inr bytes -> length bytes < 2 ->
  analyzeFile toLowerCase file =
    (setCorrupt "N/A"
       (setType "Empty/Corrupt" "Error" "File too small to identify"
          (initialResult toLowerCase file)),
     [Call_currentFileData_set]).
Proof.
  intros Hc Hlen. unfold analyzeFile. rewrite Hc.
  apply Nat.ltb_lt in Hlen. unfold bind, invoke, ret; simpl. now rewrite Hlen.
Qed.

Lemma analyzeFile_long (file : File.t) (bytes : list byte) :
  File.content file = inr bytes -> 2 <= length bytes ->
  analyzeFile toLowerCase file =
    (fst (applyFallback (scored toLowerCase file bytes)),
     [Call_currentFileData_set; Call_bytesToHex; Call_calculateEntropy;
      Call_matchMagic] ++ snd (applyFallback (scored toLowerCase file bytes))
      ++ [Call_calculateSHA256])%list.
Proof.
  intros Hc Hlen. unfold analyzeFile. rewrite Hc.
  assert (Hlt : (length bytes <? 2) = false) by (apply Nat.ltb_ge; lia).
  unfold bind, invoke, ret. cbn [fst snd]. rewrite Hlt. cbn [fst snd app].
  reflexivity.
Qed.

Lemma analyzeFile_unreadable (file : File.t) (message : string) :
  File.content file = inl message ->
  analyzeFile toLowerCase file =
    (setCorrupt "Error"
       (setType "Unreadable" "Error" ("Could not read file: " ++ message)
          (initialResult toLowerCase file)), []).
Proof. intros Hc. unfold analyzeFile. now rewrite Hc. Qed.

Lemma applyFallback_calls (r : Result.t) :
  snd (applyFallback r) = [] \/ snd (applyFallback r) = [Call_extensionMap].
Proof.
  unfold applyFallback.
  destruct (bool_decide _ && truthy _); [|now left].
  right. unfold bind, invoke. cbn [fst snd].
  now destruct (lookupExtension extensionMap (Result.actualExtension r)).
Qed.

(** Fields the fallback step leaves alone. *)
Lemma applyFallback_keeps (r : Result.t) :
  Result.extensionMismatch (fst (applyFallback r)) = Result.extensionMismatch r /\
  Result.entropy (fst (applyFallback r)) = Result.entropy r /\
  Result.entropyLevel (fst (applyFallback r)) = Result.entropyLevel r /\
  Result.isEncrypted (fst (applyFallback r)) = Result.isEncrypted r /\
  Result.isCorrupt (fst (applyFallback r)) = Result.isCorrupt r /\
  Result.actualExtension (fst (applyFallback r)) = Result.actualExtension r.
Proof.
  unfold applyFallback.
  destruct (bool_decide _ && truthy _); [|now simpl].
  unfold bind, invoke. cbn [fst snd].
  now destruct (lookupExtension extensionMap (Result.actualExtension r)).
Qed.

Lemma applySignature_keeps (m : option Signature) (r : Result.t) :
  Result.entropy (applySignature m r) = Result.entropy r /\
  Result.entropyLevel (applySignature m r) = Result.entropyLevel r /\
  Result.isEncrypted (applySignature m r) = Result.isEncrypted r /\
  Result.isCorrupt (applySignature m r) = Result.isCorrupt r /\
  Result.actualExtension (applySignature m r) = Result.actualExtension r.
Proof.
  destruct m as [sig|]; simpl; [|tauto].
  now destruct (mismatchFor sig (Result.actualExtension r)).
Qed.

Lemma applySignature_mismatch (m : option Signature) (r : Result.t) :
  Result.extensionMismatch r = false ->
  Result.extensionMismatch (applySignature m r) =
    match m with
    | Some sig => mismatchFor sig (Result.actualExtension r)
    | None => false
    end.
Proof.
  intros Hr. destruct m as [sig|]; simpl; [|exact Hr].
  now destruct (mismatchFor sig (Result.actualExtension r)).
Qed.

Lemma scored_mismatch (file : File.t) (bytes : list byte) :
  Result.extensionMismatch (scored toLowerCase file bytes) =
    match matchMagic magicDatabase (bytesToHex (take 64 bytes)) with
    | Some sig => mismatchFor sig (getFileExtension toLowerCase (File.name file))
    | None => false
    end.
Proof. unfold scored. now rewrite applySignature_mismatch. Qed.

Lemma mismatchFor_true (sig : Signature) (ext : jsstring) :
  mismatchFor sig ext = true <->
  extensions sig <> [] /\ ext <> [] /\ ext ∉ extensions sig.
Proof.
  unfold mismatchFor, includes.
  destruct (extensions sig) as [|x exts] eqn:He; simpl.
  - split; [discriminate | intros [H _]; congruence].
  - destruct ext as [|c ext]; simpl.
    + split; [discriminate | intros (_ & H & _); congruence].
    + rewrite negb_true_iff, bool_decide_eq_false.
      split; [intros H; repeat split; auto; discriminate | tauto].
Qed.

(** When the flag of the resolved record is set. *)
Lemma analyzeFile_mismatch (file : File.t) :
  Result.extensionMismatch (fst (analyzeFile toLowerCase file)) = true <->
  exists bytes sig,
    File.content file = inr bytes /\ 2 <= length bytes /\
    matchMagic magicDatabase (bytesToHex (take 64 bytes)) = Some sig /\
    extensions sig <> [] /\
    getFileExtension toLowerCase (File.name file) <> [] /\
    getFileExtension toLowerCase (File.name file) ∉ extensions sig.
Proof.
  destruct (File.content file) as [message|bytes] eqn:Hc.
  - rewrite (analyzeFile_unreadable _ _ Hc). simpl.
    split; [discriminate | intros (b & s & H & _); discriminate].
  - destruct (Nat.lt_ge_cases (length bytes) 2) as [Hlen|Hlen].
    + rewrite (analyzeFile_short _ _ Hc Hlen). simpl.
      split; [discriminate|].
      intros (b & s & H & Hb & _). injection H as <-. lia.
    + rewrite (analyzeFile_long _ _ Hc Hlen). cbn [fst snd].
      destruct (applyFallback_keeps (scored toLowerCase file bytes)) as (-> & _).
      rewrite scored_mismatch.
      destruct (matchMagic magicDatabase (bytesToHex (take 64 bytes)))
        as [sig|] eqn:Hm.
      * rewrite mismatchFor_true. split.
        -- intros H. exists bytes, sig. tauto.
        -- intros (b & s & Hb & _ & Hs & H). injection Hb as <-.
           rewrite Hm in Hs. injection Hs as <-. exact H.
      * split; [discriminate|].
        intros (b & s & Hb & _ & Hs & _). injection Hb as <-.
        rewrite Hm in Hs. discriminate.
Qed.

Lemma analyzeFile_entropy_fields (file : File.t) :
  let r := fst (analyzeFile toLowerCase file) in
  Result.isEncrypted r = likelyEncrypted (Result.entropy r) /\
  forall bytes, File.content file = inr bytes -> 2 <= length bytes ->
    Result.entropy r =
      calculateEntropy (take (Nat.min (length bytes) sampleLimit) bytes) /\
    Result.entropyLevel r = getEntropyLevel (Result.entropy r).
Proof.
  assert (H0 : likelyEncrypted 0 = false).
  { unfold likelyEncrypted. destruct (Rge_dec 0 (75 / 10)); [lra | reflexivity]. }
  cbv zeta. destruct (File.content file) as [message|bytes] eqn:Hc.
  - rewrite (analyzeFile_unreadable _ _ Hc). simpl. split; [now rewrite H0|].
    intros b Hb; discriminate.
  - destruct (Nat.lt_ge_cases (length bytes) 2) as [Hlen|Hlen].
    + rewrite (analyzeFile_short _ _ Hc Hlen). simpl. split; [now rewrite H0|].
      intros b Hb Hl. injection Hb as <-. lia.
    + rewrite (analyzeFile_long _ _ Hc Hlen). cbn [fst snd].
      destruct (applyFallback_keeps (scored toLowerCase file bytes)) as (_ & -> & -> & -> & _).
      unfold scored.
      destruct (applySignature_keeps
                  (matchMagic magicDatabase (bytesToHex (take 64 bytes)))
                  (setEntropy (calculateEntropy (take (Nat.min (length bytes) sampleLimit) bytes))
                     (setHexPreview (String.substring 0 64 (bytesToHex (take 64 bytes)))
                        (initialResult toLowerCase file))))
        as (-> & -> & -> & _).
      simpl. split; [reflexivity|].
      intros b Hb _. injection Hb as <-. auto.
Qed.

End PipelineFacts.

(** C6. Content of fewer than two bytes, the empty content included,
    gives the record marked corrupt with the description File too small
    to identify, and the only call made is the store into
    [currentFileData]: the signature loop, [calculateEntropy] and
    [calculateSHA256] are not invoked. *)
Theorem short_content_short_circuits
    (toLowerCase : jsstring -> jsstring) (file : File.t) (bytes : list byte) :
  File.content file = inr bytes -> length bytes < 2 ->
  let r := fst (analyzeFile toLowerCase file) in
  let calls := snd (analyzeFile toLowerCase file) in
  Result.isCorrupt r = true /\
  Result.description r = "File too small to identify" /\
  Result.type r = "Empty/Corrupt" /\
  Result.hash r = "N/A" /\
  calls = [Call_currentFileData_set] /\
  ~ In Call_matchMagic calls /\
  ~ In Call_calculateEntropy calls /\
  ~ In Call_calculateSHA256 calls.
Proof.
  intros Hc Hlen. simpl. rewrite (analyzeFile_short _ _ _ Hc Hlen). simpl.
  repeat split; try reflexivity; intros [H|[]]; discriminate.
Qed.

Lemma short_content_short_circuits_witness :
  let file := File.mk (str "empty.bin") [] 0 [] (inr []) in
  Result.isCorrupt (fst (analyzeFile asciiLowerCase file)) = true /\
  snd (analyzeFile asciiLowerCase file) = [Call_currentFileData_set].
Proof.
  destruct (short_content_short_circuits asciiLowerCase
              (File.mk (str "empty.bin") [] 0 [] (inr [])) [] eq_refl)
    as (H1 & _ & _ & _ & H2 & _).
  - simpl. lia.
  - split; [exact H1 | exact H2].
Defined.

(** For comparison: content of two bytes or more goes through all three. *)
Lemma long_content_calls
    (toLowerCase : jsstring -> jsstring) (file : File.t) (bytes : list byte) :
  File.content file = inr bytes -> 2 <= length bytes ->
  let calls := snd (analyzeFile toLowerCase file) in
  In Call_matchMagic calls /\ In Call_calculateEntropy calls /\
  In Call_calculateSHA256 calls.
Proof.
  intros Hc Hlen. simpl. rewrite (analyzeFile_long _ _ _ Hc Hlen). simpl.
  repeat split; auto 6.
  do 4 right. apply in_or_app. right. now left.
Qed.

(** C7, as the code has it. The flag of the resolved record is set
    exactly when the content was read and has two bytes or more, a
    signature matched, the signature lists at least one extension, the
    file has a non-empty extension, and that extension (lower-cased) is
    not in the list. A file with no extension is never flagged. The four
    bytes 89 50 4E 47 are classified PNG/Image, flagged under the name
    image.txt and not flagged under image.png. *)
Theorem extension_mismatch_rule :
  (forall (toLowerCase : jsstring -> jsstring) (file : File.t),
     Result.extensionMismatch (fst (analyzeFile toLowerCase file)) = true <->
     exists bytes sig,
       File.content file = inr bytes /\ 2 <= length bytes /\
       matchMagic magicDatabase (bytesToHex (take 64 bytes)) = Some sig /\
       extensions sig <> [] /\
       getFileExtension toLowerCase (File.name file) <> [] /\
       getFileExtension toLowerCase (File.name file) ∉ extensions sig) /\
  (let r := fst (analyzeFile asciiLowerCase (pngHeaderFile "image.txt")) in
   Result.type r = "PNG" /\ Result.category r = "Image" /\
   Result.extensionMismatch r = true) /\
  (let r := fst (analyzeFile asciiLowerCase (pngHeaderFile "image.png")) in
   Result.type r = "PNG" /\ Result.category r = "Image" /\
   Result.extensionMismatch r = false).
Proof.
  split; [exact analyzeFile_mismatch|].
  split; cbv zeta;
    (erewrite analyzeFile_long by (simpl; first [reflexivity | lia]));
    cbn [fst]; repeat split; reflexivity.
Qed.

(** C7, counterexample to the rule as stated: the PNG signature matches,
    it lists an extension, the empty extension of the name is not in its
    list, and the flag stays unset. *)
Lemma extensionless_file_not_flagged :
  let file := pngHeaderFile "image" in
  let ext := getFileExtension asciiLowerCase (File.name file) in
  exists sig,
    matchMagic magicDatabase (bytesToHex [x89; x50; x4e; x47]) = Some sig /\
    extensions sig <> [] /\ (ext ∉ extensions sig) /\
    Result.extensionMismatch (fst (analyzeFile asciiLowerCase file)) = false.
Proof.
  cbv zeta.
  exists (mkSignature "89504E47" "PNG" "Image" "Portable Network Graphics" [str ".png"]).
  split; [reflexivity|]. split; [discriminate|]. split.
  - intros H. apply list_elem_of_In in H. simpl in H. destruct H as [H|[]].
    vm_compute in H. discriminate.
  - erewrite analyzeFile_long by (simpl; first [reflexivity | lia]).
    reflexivity.
Qed.

(** C9. The label is Low below 4, Medium from 4 up to 7, High from 7 on;
    the flag of the record is set exactly when the entropy is at least
    7.5; between 7 and 7.5 the label is High and the flag is unset. In
    the record of a readable file of two bytes or more the label is the
    label of the recorded entropy. *)
Theorem entropy_bands_and_encrypted_flag :
  (forall e : R,
     ((e < 4)%R -> level (getEntropyLevel e) = Low) /\
     ((4 <= e < 7)%R -> level (getEntropyLevel e) = Medium) /\
     ((7 <= e)%R -> level (getEntropyLevel e) = High) /\
     (likelyEncrypted e = true <-> (75 / 10 <= e)%R) /\
     ((7 <= e < 75 / 10)%R ->
        level (getEntropyLevel e) = High /\ likelyEncrypted e = false)) /\
  (forall (toLowerCase : jsstring -> jsstring) (file : File.t),
     let r := fst (analyzeFile toLowerCase file) in
     (Result.isEncrypted r = true <-> (75 / 10 <= Result.entropy r)%R) /\
     (forall bytes, File.content file = inr bytes -> 2 <= length bytes ->
        Result.entropyLevel r = getEntropyLevel (Result.entropy r))).
Proof.
  assert (Hflag : forall e, likelyEncrypted e = true <-> (75 / 10 <= e)%R).
  { intros e. unfold likelyEncrypted.
    destruct (Rge_dec e (75 / 10)); split; intros; try reflexivity;
      try discriminate; lra. }
  split.
  - intros e.
    assert (Hlow : (e < 4)%R -> level (getEntropyLevel e) = Low).
    { intros H. unfold getEntropyLevel. destruct (Rlt_dec e 4); [reflexivity | lra]. }
    assert (Hmed : (4 <= e < 7)%R -> level (getEntropyLevel e) = Medium).
    { intros H. unfold getEntropyLevel.
      destruct (Rlt_dec e 4); [lra|]. destruct (Rlt_dec e 7); [reflexivity | lra]. }
    assert (Hhigh : (7 <= e)%R -> level (getEntropyLevel e) = High).
    { intros H. unfold getEntropyLevel.
      destruct (Rlt_dec e 4); [lra|]. destruct (Rlt_dec e 7); [lra | reflexivity]. }
    split; [exact Hlow|]. split; [exact Hmed|]. split; [exact Hhigh|].
    split; [apply Hflag|].
    intros [H7 H75]. split; [auto|].
    destruct (likelyEncrypted e) eqn:He; [|reflexivity].
    apply Hflag in He. lra.
  - intros lower file. cbv zeta.
    destruct (analyzeFile_entropy_fields lower file) as [Hflag' Hlvl].
    split.
    + rewrite Hflag'. apply Hflag.
    + intros bytes Hc Hlen. now destruct (Hlvl bytes Hc Hlen).
Qed.

(* ================================================================== *)
(** * Entropy                                                          *)
(* ================================================================== *)

Lemma bump_length (freq : list nat) (i : nat) :
  length (bump freq i) = length freq.
Proof.
  unfold bump. destruct (freq !! i); [apply length_insert | reflexivity].
Qed.

Lemma bump_lookup (freq : list nat) (i j : nat) :
  i < length freq ->
  bump freq i !! j =
    (fun n => (if Nat.eqb i j then 1 else 0) + n) <$> (freq !! j).
Proof.
  intros Hi. unfold bump.
  destruct (lookup_lt_is_Some_2 freq i Hi) as [n Hn]. rewrite Hn.
  destruct (Nat.eqb_spec i j) as [->|Hne].
  - rewrite list_lookup_insert_eq by exact Hi. now rewrite Hn.
  - rewrite list_lookup_insert_ne by exact Hne.
    destruct (freq !! j); reflexivity.
Qed.

Lemma count_loop_lookup (bytes : list byte) (freq : list nat) (j : nat) :
  length freq = 256 ->
  fold_left (fun f b => bump f (Byte.to_nat b)) bytes freq !! j =
    (fun n => n + occ j bytes) <$> (freq !! j).
Proof.
  revert freq. induction bytes as [|b bytes IH]; intros freq Hlen; simpl.
  - destruct (freq !! j); simpl; [f_equal; lia | reflexivity].
  - rewrite IH by (now rewrite bump_length).
    rewrite bump_lookup by (pose proof (Byte.to_nat_bounded b); lia).
    destruct (freq !! j); simpl; [f_equal; lia | reflexivity].
Qed.

Lemma histogram_length (bytes : list byte) : length (histogram bytes) = 256.
Proof.
  unfold histogram. generalize (replicate 256 0), (length_replicate 256 0).
  induction bytes as [|b bytes IH]; intros freq Hlen; simpl; [exact Hlen|].
  apply IH. now rewrite bump_length.
Qed.

(** The counting loop computes the occurrence counts of the 256 values. *)
Lemma histogram_occ (bytes : list byte) :
  histogram bytes = map (fun i => occ i bytes) (seq 0 256).
Proof.
  apply list_eq. intros j. unfold histogram.
  rewrite count_loop_lookup by apply length_replicate.
  rewrite list_lookup_fmap.
  destruct (Nat.lt_ge_cases j 256) as [Hj|Hj].
  - rewrite lookup_replicate_2 by exact Hj.
    rewrite lookup_seq_lt by exact Hj. reflexivity.
  - rewrite (proj1 (lookup_replicate_None 256 0 j)) by lia.
    rewrite lookup_seq_ge by lia. reflexivity.
Qed.

Lemma occ_le_length (i : nat) (bytes : list byte) : occ i bytes <= length bytes.
Proof.
  induction bytes as [|b bytes IH]; simpl; [lia|].
  destruct (Nat.eqb _ i); lia.
Qed.

Lemma occ_two_values (i j : nat) (bytes : list byte) :
  i <> j -> occ i bytes + occ j bytes <= length bytes.
Proof.
  intros Hne. induction bytes as [|b bytes IH]; simpl; [lia|].
  destruct (Nat.eqb_spec (Byte.to_nat b) i), (Nat.eqb_spec (Byte.to_nat b) j); lia.
Qed.

Lemma occ_present (b : byte) (bytes : list byte) :
  In b bytes -> 0 < occ (Byte.to_nat b) bytes.
Proof.
  induction bytes as [|c bytes IH]; simpl; [tauto|].
  intros [->|H].
  - rewrite Nat.eqb_refl. lia.
  - specialize (IH H). lia.
Qed.

Lemma occ_all_equal (b : byte) (bytes : list byte) (i : nat) :
  Forall (eq b) bytes ->
  occ i bytes = if Nat.eqb (Byte.to_nat b) i then length bytes else 0.
Proof.
  induction 1 as [|c bytes <- _ IH]; simpl.
  - now destruct (Nat.eqb _ i).
  - rewrite IH. destruct (Nat.eqb _ i); lia.
Qed.

Lemma to_nat_inj (a b : byte) : Byte.to_nat a = Byte.to_nat b -> a = b.
Proof.
  intros H. pose proof (Byte.of_to_nat a) as Ha.
  rewrite H, Byte.of_to_nat in Ha. congruence.
Qed.

(** The bucket counts add up to the number of bytes. *)
Lemma indicator_sum (k a n : nat) (g : nat -> nat) :
  sum_list (map (fun i => (if Nat.eqb k i then 1 else 0) + g i) (seq a n)) =
  (if (a <=? k) && (k <? a + n) then 1 else 0) + sum_list (map g (seq a n)).
Proof.
  revert a. induction n as [|n IH]; intros a; simpl.
  - replace (k <? a + 0) with (k <? a) by (f_equal; lia).
    destruct (Nat.leb_spec a k), (Nat.ltb_spec k a); simpl; lia.
  - rewrite IH.
    destruct (Nat.eqb_spec k a), (Nat.leb_spec a k), (Nat.leb_spec (S a) k),
      (Nat.ltb_spec k (S a + n)), (Nat.ltb_spec k (a + S n)); simpl; lia.
Qed.

Lemma occ_sum (bytes : list byte) :
  sum_list (map (fun i => occ i bytes) (seq 0 256)) = length bytes.
Proof.
  induction bytes as [|b bytes IH].
  - simpl occ. generalize (seq 0 256). intros l. induction l; simpl; auto.
  - cbn [occ length]. rewrite indicator_sum, IH.
    pose proof (Byte.to_nat_bounded b).
    destruct (Nat.leb_spec 0 (Byte.to_nat b)), (Nat.ltb_spec (Byte.to_nat b) (0 + 256));
      simpl; lia.
Qed.

Section EntropyFacts.

#[local] Open Scope R_scope.

Lemma ln2_pos : 0 < ln 2.
Proof. rewrite <- ln_1. apply ln_increasing; lra. Qed.

Lemma ln_le_minus_1 (x : R) : 0 < x -> ln x <= x - 1.
Proof.
  intros Hx. pose proof (exp_ineq1_le (ln x)) as H.
  rewrite exp_ln in H by exact Hx. lra.
Qed.

Lemma ln_256 : ln 256 = 8 * ln 2.
Proof.
  replace 256 with (2 ^ 8) by lra.
  rewrite ln_pow by lra. simpl INR. lra.
Qed.

(** The summation loop subtracts the bucket terms one by one. *)
Lemma summation_loop (len : nat) (freq : list nat) (e : R) :
  fold_left (entropyStep len) freq e = e - Rsum (map (plogp len) freq).
Proof.
  revert e. induction freq as [|f freq IH]; intros e; simpl.
  - lra.
  - rewrite IH. unfold entropyStep, plogp.
    destruct (0 <? f)%nat; simpl; lra.
Qed.

Lemma calculateEntropy_sum (bytes : list byte) :
  bytes <> [] ->
  calculateEntropy bytes =
    - Rsum (map (plogp (length bytes)) (histogram bytes)).
Proof.
  intros Hne. unfold calculateEntropy.
  destruct bytes as [|b bytes]; [congruence|].
  cbn [length Nat.eqb]. rewrite summation_loop. lra.
Qed.

Lemma plogp_nonpos (len f : nat) :
  (0 < len)%nat -> (f <= len)%nat -> plogp len f <= 0.
Proof.
  intros Hlen Hf. unfold plogp.
  destruct (Nat.ltb_spec 0 f) as [Hpos|_]; [|lra].
  assert (Hl : 0 < INR len) by (apply lt_0_INR; lia).
  assert (Hp : 0 < INR f) by (apply lt_0_INR; lia).
  assert (Hle : INR f <= INR len) by (apply le_INR; lia).
  assert (Hq : 0 < INR f / INR len) by (apply Rdiv_lt_0_compat; assumption).
  assert (Hq1 : INR f / INR len <= 1).
  { apply Rmult_le_reg_r with (INR len); [exact Hl|].
    unfold Rdiv. rewrite Rmult_assoc, Rinv_l by lra. lra. }
  assert (Hln : ln (INR f / INR len) <= 0).
  { destruct Hq1 as [Hlt|Heq].
    - left. rewrite <- ln_1. now apply ln_increasing.
    - rewrite Heq, ln_1. lra. }
  unfold log2. pose proof ln2_pos.
  assert (ln (INR f / INR len) / ln 2 <= 0).
  { unfold Rdiv. apply Rmult_le_reg_r with (ln 2); [assumption|].
    rewrite Rmult_assoc, Rinv_l by lra. lra. }
  nra.
Qed.

(** The bound of one bucket term that sums to 8 over 256 buckets. *)
Lemma plogp_upper (len f : nat) :
  (0 < len)%nat ->
  - plogp len f * ln 2 <= / 256 - INR f / INR len + INR f / INR len * (8 * ln 2).
Proof.
  intros Hlen. unfold plogp.
  assert (Hl : 0 < INR len) by (apply lt_0_INR; lia).
  pose proof ln2_pos as H2.
  destruct (Nat.ltb_spec 0 f) as [Hpos|Hz].
  - assert (Hp : 0 < INR f) by (apply lt_0_INR; lia).
    set (p := INR f / INR len).
    assert (Hq : 0 < p) by (apply Rdiv_lt_0_compat; assumption).
    assert (Hx : 0 < / (256 * p)) by (apply Rinv_0_lt_compat; lra).
    pose proof (ln_le_minus_1 _ Hx) as Hln.
    rewrite ln_Rinv, ln_mult, ln_256 in Hln by lra.
    unfold log2.
    replace (- (p * (ln p / ln 2)) * ln 2) with (- (p * ln p)) by (field; lra).
    assert (Hmul : p * (- (8 * ln 2 + ln p)) <= p * (/ (256 * p) - 1))
      by (apply Rmult_le_compat_l; lra).
    replace (p * (/ (256 * p) - 1)) with (/ 256 - p) in Hmul by (field; lra).
    lra.
  - assert (f = 0)%nat as -> by lia. simpl INR.
    unfold Rdiv. rewrite !Rmult_0_l. lra.
Qed.

Lemma Rsum_INR (len : nat) (freq : list nat) :
  Rsum (map (fun f => INR f / INR len) freq) = INR (sum_list freq) / INR len.
Proof.
  induction freq as [|f freq IH]; simpl.
  - unfold Rdiv. now rewrite Rmult_0_l.
  - rewrite IH, plus_INR. unfold Rdiv. lra.
Qed.

Lemma Rsum_upper (len : nat) (freq : list nat) :
  (0 < len)%nat ->
  - Rsum (map (plogp len) freq) * ln 2 <=
    INR (length freq) / 256
    + (8 * ln 2 - 1) * Rsum (map (fun f => INR f / INR len) freq).
Proof.
  intros Hlen. induction freq as [|f freq IH].
  - simpl. lra.
  - cbn [map Rsum fold_right length]. fold (Rsum (map (plogp len) freq)).
    fold (Rsum (map (fun f => INR f / INR len) freq)).
    rewrite S_INR. pose proof (plogp_upper len f Hlen). lra.
Qed.

Lemma Rsum_nonpos (len : nat) (freq : list nat) :
  (0 < len)%nat -> Forall (fun f => (f <= len)%nat) freq ->
  Rsum (map (plogp len) freq) <= 0.
Proof.
  intros Hlen. induction 1 as [|f freq Hf _ IH]; simpl; [lra|].
  pose proof (plogp_nonpos len f Hlen Hf). fold (Rsum (map (plogp len) freq)). lra.
Qed.

Lemma Rsum_zero (len : nat) (freq : list nat) :
  (0 < len)%nat -> Forall (fun f => (f <= len)%nat) freq ->
  Rsum (map (plogp len) freq) = 0 ->
  Forall (fun f => plogp len f = 0) freq.
Proof.
  intros Hlen. induction 1 as [|f freq Hf Hall IH]; simpl; [constructor|].
  fold (Rsum (map (plogp len) freq)). intros Hsum.
  pose proof (plogp_nonpos len f Hlen Hf).
  pose proof (Rsum_nonpos len freq Hlen Hall).
  constructor; [lra | apply IH; lra].
Qed.

Lemma plogp_zero (len f : nat) :
  (0 < len)%nat -> (plogp len f = 0 <-> f = 0%nat \/ f = len).
Proof.
  intros Hlen. unfold plogp.
  assert (Hl : 0 < INR len) by (apply lt_0_INR; lia).
  destruct (Nat.ltb_spec 0 f) as [Hpos|Hz].
  - assert (Hp : 0 < INR f) by (apply lt_0_INR; lia).
    assert (Hq : 0 < INR f / INR len) by (apply Rdiv_lt_0_compat; assumption).
    pose proof ln2_pos as H2. split.
    + intros H. right.
      destruct (Req_dec (INR f / INR len) 1) as [H1|H1].
      * apply INR_eq. apply (f_equal (fun x => x * INR len)) in H1.
        unfold Rdiv in H1. rewrite Rmult_assoc, Rinv_l in H1 by lra. lra.
      * exfalso. apply (ln_neq_0 _ H1 Hq).
        unfold log2 in H.
        apply Rmult_integral in H as [H|H]; [lra|].
        unfold Rdiv in H. apply Rmult_integral in H as [H|H]; [exact H|].
        pose proof (Rinv_0_lt_compat _ H2). lra.
    + intros [Hf | Hf]; subst f; [lia|].
      unfold Rdiv. rewrite Rinv_r by lra. unfold log2. rewrite ln_1.
      unfold Rdiv. lra.
  - split; [intros _; left; lia | reflexivity].
Qed.

Lemma histogram_bounded (bytes : list byte) :
  Forall (fun f => (f <= length bytes)%nat) (histogram bytes).
Proof.
  rewrite histogram_occ. apply Forall_forall. intros f Hf.
  apply list_elem_of_In, in_map_iff in Hf as (i & <- & _). apply occ_le_length.
Qed.

Lemma entropy_nonneg (bytes : list byte) : 0 <= calculateEntropy bytes.
Proof.
  destruct bytes as [|b bytes]; [unfold calculateEntropy; simpl; lra|].
  rewrite calculateEntropy_sum by discriminate.
  pose proof (Rsum_nonpos (length (b :: bytes)) (histogram (b :: bytes))) as H.
  specialize (H ltac:(simpl; lia) (histogram_bounded _)). lra.
Qed.

Lemma entropy_le_8 (bytes : list byte) : calculateEntropy bytes <= 8.
Proof.
  destruct bytes as [|b bytes]; [unfold calculateEntropy; simpl; lra|].
  rewrite calculateEntropy_sum by discriminate.
  set (l := b :: bytes).
  assert (Hlen : (0 < length l)%nat) by (simpl; lia).
  pose proof (Rsum_upper (length l) (histogram l) Hlen) as H.
  rewrite Rsum_INR, histogram_length in H.
  rewrite histogram_occ, occ_sum in H.
  assert (Hl : 0 < INR (length l)) by (apply lt_0_INR; lia).
  replace (INR (length l) / INR (length l)) with 1 in H by (field; lra).
  replace (INR 256) with 256 in H by (simpl; lra).
  rewrite <- histogram_occ in H.
  pose proof ln2_pos as H2.
  apply Rmult_le_reg_r with (ln 2); [exact H2 | lra].
Qed.

Lemma entropy_zero_iff (bytes : list byte) :
  bytes <> [] ->
  (calculateEntropy bytes = 0 <-> exists b, Forall (eq b) bytes).
Proof.
  intros Hne. rewrite calculateEntropy_sum by exact Hne.
  assert (Hlen : (0 < length bytes)%nat)
    by (destruct bytes; [congruence | simpl; lia]).
  split.
  - intros H.
    assert (Hz : Forall (fun f => plogp (length bytes) f = 0) (histogram bytes)).
    { apply Rsum_zero; [exact Hlen | apply histogram_bounded | lra]. }
    rewrite histogram_occ in Hz.
    assert (Hocc : forall b, In b bytes ->
              occ (Byte.to_nat b) bytes = length bytes).
    { intros b Hb. rewrite Forall_forall in Hz.
      assert (Hin : In (occ (Byte.to_nat b) bytes)
                       (map (fun i => occ i bytes) (seq 0 256))).
      { apply in_map_iff. exists (Byte.to_nat b). split; [reflexivity|].
        apply in_seq. pose proof (Byte.to_nat_bounded b). lia. }
      apply list_elem_of_In, Hz in Hin.
      apply plogp_zero in Hin; [|exact Hlen].
      pose proof (occ_present b bytes Hb). lia. }
    destruct bytes as [|b0 bytes]; [congruence|].
    exists b0. apply Forall_forall. intros b Hb. apply list_elem_of_In in Hb.
    apply to_nat_inj.
    destruct (Nat.eq_dec (Byte.to_nat b0) (Byte.to_nat b)) as [|Hd]; [assumption|].
    pose proof (occ_two_values _ _ (b0 :: bytes) Hd) as H2.
    rewrite (Hocc b0), (Hocc b) in H2 by (simpl; auto). lia.
  - intros [b Hall].
    assert (Hz : Forall (fun f => plogp (length bytes) f = 0) (histogram bytes)).
    { rewrite histogram_occ. apply Forall_forall. intros f Hf.
      apply list_elem_of_In, in_map_iff in Hf as (i & <- & _).
      apply plogp_zero; [exact Hlen|].
      rewrite (occ_all_equal b bytes i Hall).
      destruct (Nat.eqb _ i); auto. }
    clear -Hz. induction Hz as [|f freq Hf _ IH]; simpl; [lra|].
    fold (Rsum (map (plogp (length bytes)) freq)) in *. lra.
Qed.

End EntropyFacts.

Lemma distinctValues_one (bytes : list byte) :
  bytes <> [] ->
  (distinctValues bytes = 1 <-> exists b, Forall (eq b) bytes).
Proof.
  intros Hne. unfold distinctValues. split.
  - destruct (remove_dups bytes) as [|b [|c l]] eqn:Hr; try discriminate.
    intros _. exists b. apply Forall_forall. intros x Hx.
    apply elem_of_remove_dups in Hx. rewrite Hr in Hx.
    apply list_elem_of_singleton in Hx. congruence.
  - intros [b Hall].
    pose proof (NoDup_remove_dups bytes) as Hnd.
    assert (Hsub : Forall (eq b) (remove_dups bytes)).
    { apply Forall_forall. intros x Hx. rewrite elem_of_remove_dups in Hx.
      rewrite Forall_forall in Hall. exact (Hall x Hx). }
    revert Hnd Hsub.
    destruct (remove_dups bytes) as [|x [|y l]] eqn:Hr; intros Hnd Hsub.
    + destruct bytes as [|b0 bytes]; [congruence|].
      assert (b0 ∈ remove_dups (b0 :: bytes))
        by (apply elem_of_remove_dups; left).
      rewrite Hr in H. inversion H.
    + reflexivity.
    + exfalso. inversion Hsub as [|? ? Hx Hrest]; subst.
      inversion Hrest as [|? ? Hy _]; subst.
      inversion Hnd as [|? ? Hnotin _]; subst. apply Hnotin. left.
Qed.


(* ================================================================== *)
(** * The scheduler                                                    *)
(* ================================================================== *)

Section SchedulerFacts.

Variables Item Result : Type.

Implicit Types q : DynamicTaskQueue Item Result.
Implicit Types t : list (Observation Item Result).

Lemma countOf_app (p : Observation Item Result -> bool) t1 t2 :
  countOf p (t1 ++ t2) = countOf p t1 + countOf p t2.
Proof. unfold countOf. now rewrite List.filter_app, length_app. Qed.

Lemma handlerCalls_count (p : Observation Item Result -> bool) lo hi t :
  (forall o, isHandlerCall o = true -> p o = false) ->
  handlerCalls lo hi t -> countOf p t = 0.
Proof.
  intros Hp. induction 1 as [|o t [Ho _] _ IH]; [reflexivity|].
  unfold countOf in *. simpl. now rewrite (Hp o Ho).
Qed.

Lemma handlerCalls_weaken lo lo' hi t :
  (lo' <= lo)%Z -> handlerCalls lo hi t -> handlerCalls lo' hi t.
Proof.
  intros Hlo H. unfold handlerCalls in *. eapply Forall_impl; [exact H|].
  intros o [Ho Hb]. split; [exact Ho | lia].
Qed.

(** The effect of the [while] loop. *)
Lemma fill_spec (now : Q) (items : list Item) q :
  queue q = items ->
  let q' := fill now items q in
  concurrency q' = concurrency q /\ results q' = results q /\
  onProgress q' = onProgress q /\ onComplete q' = onComplete q /\
  paused q' = paused q /\ totalTasks q' = totalTasks q /\
  times q' = times q /\
  exists started added,
    pending q' = (pending q ++ started)%list /\
    items = (map fst started ++ queue q')%list /\
    activeCount q' = (activeCount q + Z.of_nat (length started))%Z /\
    trace q' = (trace q ++ added)%list /\
    handlerCalls (activeCount q) (concurrency q) added /\
    Saturated q' /\
    ((activeCount q <= concurrency q)%Z -> (activeCount q' <= concurrency q)%Z).
Proof.
  revert q. induction items as [|item rest IH]; intros q Hq; cbn [fill].
  - repeat split. exists [], []. rewrite !app_nil_r. simpl.
    repeat split; try (rewrite ?Z.add_0_r; reflexivity).
    + now rewrite Hq.
    + constructor.
    + now left.
    + auto.
  - destruct (Z.ltb_spec (activeCount q) (concurrency q)) as [Hlt|Hge].
    + specialize (IH (dispatch now item rest q) eq_refl).
      cbv zeta in IH. cbn [dispatch observe concurrency results onProgress
        onComplete paused totalTasks times pending activeCount trace queue] in IH.
      destruct IH as (H1 & H2 & H3 & H4 & H5 & H6 & H7 &
                      started & added & Hp & Hi & Ha & Ht & Hc & Hs & Hl).
      repeat split; try assumption.
      exists ((item, now) :: started),
             (mkObservation (HandlerCall item) (activeCount q + 1)
                (length rest) :: added).
      repeat split.
      * now rewrite Hp, <- app_assoc.
      * simpl. now rewrite <- Hi.
      * rewrite Ha. simpl length. lia.
      * now rewrite Ht, <- app_assoc.
      * constructor; [split; [reflexivity | simpl; lia]|].
        eapply handlerCalls_weaken; [|exact Hc]. lia.
      * exact Hs.
      * intros _. apply Hl. lia.
    + repeat split. exists [], []. rewrite !app_nil_r. simpl.
      repeat split; try (rewrite ?Z.add_0_r; reflexivity).
      * now rewrite Hq.
      * constructor.
      * now right.
      * auto.
Qed.

Lemma process_spec (now : Q) q :
  paused q = false ->
  let q' := process now q in
  concurrency q' = concurrency q /\ results q' = results q /\
  onProgress q' = onProgress q /\ onComplete q' = onComplete q /\
  paused q' = paused q /\ totalTasks q' = totalTasks q /\
  times q' = times q /\
  exists started added,
    pending q' = (pending q ++ started)%list /\
    queue q = (map fst started ++ queue q')%list /\
    activeCount q' = (activeCount q + Z.of_nat (length started))%Z /\
    trace q' = (trace q ++ added ++ completion q')%list /\
    handlerCalls (activeCount q) (concurrency q) added /\
    Saturated q' /\
    ((activeCount q <= concurrency q)%Z -> (activeCount q' <= concurrency q)%Z).
Proof.
  intros Hp. unfold process. rewrite Hp. cbv zeta.
  pose proof (fill_spec now (queue q) q eq_refl) as H. cbv zeta in H.
  destruct H as (H1 & H2 & H3 & H4 & H5 & H6 & H7 &
                 started & added & Hpe & Hi & Ha & Ht & Hc & Hs & Hl).
  set (q1 := fill now (queue q) q) in *.
  assert (Hshape :
    (if (activeCount q1 =? 0)%Z && (length (queue q1) =? 0) && onComplete q1
     then observe (CompleteCall (results q1)) q1 else q1) =
    {| concurrency := concurrency q1; queue := queue q1;
       activeCount := activeCount q1; results := results q1;
       onProgress := onProgress q1; onComplete := onComplete q1;
       paused := paused q1; times := times q1; startTime := startTime q1;
       totalTasks := totalTasks q1; pending := pending q1;
       trace := (trace q1 ++ completion q1)%list |}).
  { unfold completion.
    destruct ((activeCount q1 =? 0)%Z && (length (queue q1) =? 0) && onComplete q1).
    - reflexivity.
    - rewrite app_nil_r. now destruct q1. }
  rewrite Hshape.
  cbn [concurrency results onProgress onComplete paused totalTasks
       times pending activeCount trace queue].
  do 7 (split; [congruence|]).
  exists started, added.
  split; [assumption|]. split; [assumption|]. split; [assumption|].
  split; [|split; [assumption|split; [exact Hs|exact Hl]]].
  now rewrite Ht, <- app_assoc.
Qed.

(** One turn of the event loop, as a whole. *)
Lemma settle_spec (s : Settlement Result) q q' :
  paused q = false ->
  settle s q = Some q' ->
  exists item startStr started added,
    pending q !! index s = Some (item, startStr) /\
    pending q' = (delete (index s) (pending q) ++ started)%list /\
    queue q = (map fst started ++ queue q')%list /\
    concurrency q' = concurrency q /\
    onProgress q' = onProgress q /\ onComplete q' = onComplete q /\
    paused q' = paused q /\ totalTasks q' = totalTasks q /\
    activeCount q' = (activeCount q - 1 + Z.of_nat (length started))%Z /\
    results q' = (results q ++ resultOf s)%list /\
    trace q' = (trace q ++ noticeOf s startStr q ++ added ++ completion q')%list /\
    handlerCalls (activeCount q - 1) (concurrency q) added /\
    Saturated q' /\
    ((activeCount q - 1 <= concurrency q)%Z ->
     (activeCount q' <= concurrency q)%Z).
Proof.
  intros Hp Hs. unfold settle in Hs.
  destruct (pending q !! index s) as [[item startStr]|] eqn:Hl; [|discriminate].
  injection Hs as <-. exists item, startStr.
  unfold noticeOf, resultOf.
  destruct (outcome s) as [r|].
  - unfold onFulfilled. cbv zeta.
    cbn [removePending concurrency results onProgress onComplete paused
         totalTasks times pending activeCount trace queue].
    match goal with
    | |- context [process ?n ?x] => pose proof (process_spec n x) as H
    end.
    destruct (onProgress q) eqn:Hprog;
      cbn [observe concurrency results onProgress onComplete paused
           totalTasks times pending activeCount trace queue] in H |- *;
      specialize (H Hp); cbv zeta in H;
      destruct H as (H1 & H2 & H3 & H4 & H5 & H6 & H7 &
                     started & added & Hpe & Hi & Ha & Ht & Hc & Hsat & Hlim);
      exists started, added;
      (repeat split; try assumption; try congruence);
      rewrite Ht; unfold statsOf, getAverageTime; cbn;
      rewrite <- ?app_assoc; reflexivity.
  - unfold onRejected. cbv zeta.
    cbn [removePending observe concurrency results onProgress onComplete paused
         totalTasks times pending activeCount trace queue].
    match goal with
    | |- context [process ?n ?x] => pose proof (process_spec n x) as H
    end.
    cbn [observe concurrency results onProgress onComplete paused
         totalTasks times pending activeCount trace queue] in H.
    specialize (H Hp). cbv zeta in H.
    destruct H as (H1 & H2 & H3 & H4 & H5 & H6 & H7 &
                   started & added & Hpe & Hi & Ha & Ht & Hc & Hsat & Hlim).
    exists started, added.
    repeat split; try assumption; try congruence.
    + now rewrite H2, app_nil_r.
    + rewrite Ht. rewrite <- ?app_assoc. reflexivity.
Qed.

Lemma completion_bound q :
  Forall (fun o => activeAt o = activeCount q) (completion q).
Proof.
  unfold completion. destruct (_ && _ && _); repeat constructor.
Qed.

Lemma completion_count q :
  countOf isComplete (completion q) = length (completion q).
Proof. unfold completion. now destruct (_ && _ && _). Qed.

Lemma noticeOf_bound (s : Settlement Result) (startStr : Q) q :
  Forall (fun o => activeAt o = activeCount q \/ activeAt o = (activeCount q - 1)%Z)
    (noticeOf s startStr q).
Proof.
  unfold noticeOf. destruct (outcome s); [destruct (onProgress q)|].
  - constructor; [now right | constructor].
  - constructor.
  - constructor; [now left | constructor].
Qed.

Lemma noticeOf_not_complete (s : Settlement Result) (startStr : Q) q :
  countOf isComplete (noticeOf s startStr q) = 0.
Proof.
  unfold noticeOf. destruct (outcome s); [destruct (onProgress q)|]; reflexivity.
Qed.

(** Consistency is established by [process] ... *)
Lemma process_consistent (now : Q) q :
  paused q = false ->
  activeCount q = Z.of_nat (length (pending q)) ->
  (activeCount q <= concurrency q)%Z ->
  Forall (fun o => (0 <= activeAt o <= concurrency q)%Z) (trace q) ->
  Consistent (process now q) /\ Saturated (process now q).
Proof.
  intros Hp Ha Hl Ht.
  destruct (process_spec now q Hp)
    as (H1 & H2 & H3 & H4 & H5 & H6 & H7 &
        started & added & Hpe & Hi & Hac & Htr & Hc & Hsat & Hlim).
  split; [|exact Hsat].
  assert (Hact : activeCount (process now q)
                 = Z.of_nat (length (pending (process now q)))).
  { rewrite Hac, Hpe, length_app. lia. }
  constructor.
  - congruence.
  - exact Hact.
  - rewrite H1. auto.
  - rewrite H1, Htr. rewrite !Forall_app. split; [exact Ht|]. split.
    + eapply Forall_impl; [exact Hc|]. intros o [_ Hb]. simpl in Hb. lia.
    + eapply Forall_impl; [apply completion_bound|].
      intros o ->. specialize (Hlim Hl). lia.
Qed.

(** ... and kept by every turn. *)
Lemma settle_consistent (s : Settlement Result) q q' :
  Consistent q -> settle s q = Some q' ->
  Consistent q' /\ Saturated q'.
Proof.
  intros [Hp Ha Hl Ht] Hs.
  destruct (settle_spec s q q' Hp Hs)
    as (item & startStr & started & added & Hlk & Hpe & Hq & H1 & H2 & H3 &
        H4 & H5 & Hac & Hres & Htr & Hc & Hsat & Hlim).
  split; [|exact Hsat].
  assert (Hlen : length (delete (index s) (pending q)) = length (pending q) - 1)
    by (apply length_delete; eauto).
  assert (Hpos : 0 < length (pending q))
    by (apply lookup_lt_Some in Hlk; lia).
  constructor.
  - congruence.
  - rewrite Hac, Hpe, length_app, Hlen, Ha. lia.
  - rewrite H1. apply Hlim. lia.
  - rewrite H1, Htr. rewrite !Forall_app. split; [exact Ht|]. split; [|split].
    + eapply Forall_impl; [apply noticeOf_bound|].
      intros o Ho. simpl in Ho. lia.
    + eapply Forall_impl; [exact Hc|]. intros o [_ Hb]. simpl in Hb. lia.
    + eapply Forall_impl; [apply completion_bound|].
      intros o ->. rewrite Hac. specialize (Hlim ltac:(lia)). lia.
Qed.

Lemma run_consistent (schedule : list (Settlement Result)) q q' :
  Consistent q -> run schedule q = Some q' -> Consistent q'.
Proof.
  revert q. induction schedule as [|s schedule IH]; intros q Hq Hr; simpl in Hr.
  - now injection Hr as <-.
  - destruct (settle s q) as [q1|] eqn:Hs; [|discriminate].
    apply (IH q1); [|exact Hr]. now apply (settle_consistent s q).
Qed.

Lemma run_concurrency (schedule : list (Settlement Result)) q q' :
  Consistent q -> run schedule q = Some q' -> concurrency q' = concurrency q.
Proof.
  revert q. induction schedule as [|s schedule IH]; intros q Hq Hr; simpl in Hr.
  - now injection Hr as <-.
  - destruct (settle s q) as [q1|] eqn:Hs; [|discriminate].
    destruct (settle_consistent s q q1 Hq Hs) as [Hq1 _].
    rewrite (IH q1 Hq1 Hr).
    destruct (settle_spec s q q1 (consistent_paused _ _ q Hq) Hs)
      as (_ & _ & _ & _ & _ & _ & _ & H1 & _).
    exact H1.
Qed.

Lemma batch_fields (K : Z) (progress complete : bool)
    (items : list Item) (now : Q) :
  let q : DynamicTaskQueue Item Result := batch K progress complete items now in
  concurrency q = K /\ onProgress q = progress /\ onComplete q = complete /\
  totalTasks q = length items /\ results q = [] /\
  length (pending q) + length (queue q) = length items.
Proof.
  cbv zeta. unfold batch, start.
  match goal with
  | |- context [process ?n ?x] =>
      destruct (process_spec n x eq_refl)
        as (H1 & H2 & H3 & H4 & H5 & H6 & H7 &
            started & added & Hpe & Hi & Hac & Htr & Hc & Hsat & Hlim)
  end.
  apply (f_equal (@length Item)) in Hi.
  rewrite length_app, length_map in Hi.
  apply (f_equal (@length (Item * Q))) in Hpe. rewrite length_app in Hpe.
  cbn [add installCallbacks constructor concurrency results onProgress
       onComplete paused totalTasks times pending activeCount trace queue
       app length]
    in *.
  repeat split; try assumption. lia.
Qed.

Lemma batch_concurrency (K : Z) (progress complete : bool)
    (items : list Item) (now : Q) :
  concurrency (batch (Result := Result) K progress complete items now) = K.
Proof. apply batch_fields. Qed.

Lemma batch_consistent (K : Z) (progress complete : bool)
    (items : list Item) (now : Q) :
  (0 <= K)%Z ->
  Consistent (batch (Result := Result) K progress complete items now) /\
  Saturated (batch (Result := Result) K progress complete items now).
Proof.
  intros HK. unfold batch, start. apply process_consistent; simpl; auto.
Qed.

Lemma fulfilledResults_app (h1 h2 : list (Settlement Result)) :
  fulfilledResults (h1 ++ h2) = (fulfilledResults h1 ++ fulfilledResults h2)%list.
Proof.
  induction h1 as [|s h1 IH]; simpl; [reflexivity|].
  destruct (outcome s); simpl; now rewrite IH.
Qed.

Lemma fulfilledResults_single (s : Settlement Result) :
  fulfilledResults [s] = resultOf s.
Proof. unfold resultOf. simpl. now destruct (outcome s). Qed.

Lemma fulfilled_rejected_count (schedule : list (Settlement Result)) :
  length (fulfilledResults schedule) + rejections schedule = length schedule.
Proof.
  unfold rejections. induction schedule as [|s schedule IH]; simpl; [reflexivity|].
  unfold isRejected at 1. destruct (outcome s); simpl; lia.
Qed.

(** Under a limit of at least 1, the queue is idle exactly when no
    handler promise is pending. *)
Lemma completion_idle q :
  Consistent q -> Saturated q -> (1 <= concurrency q)%Z -> onComplete q = true ->
  (pending q = [] ->
     completion q = [mkObservation (CompleteCall (results q)) 0 0] /\
     activeCount q = 0%Z /\ queue q = []) /\
  (pending q <> [] -> completion q = []).
Proof.
  intros [Hp Ha Hl Ht] Hsat HK Hc. unfold completion. split.
  - intros Hnil. rewrite Hnil in Ha. simpl in Ha.
    assert (Hq : queue q = []) by (destruct Hsat as [Hq|Hq]; [exact Hq | lia]).
    rewrite Ha, Hq, Hc. simpl. auto.
  - intros Hne.
    assert (Hz : (activeCount q =? 0)%Z = false).
    { apply Z.eqb_neq. destruct (pending q); [congruence | simpl in Ha; lia]. }
    now rewrite Hz.
Qed.

Lemma tracking_batch (K : Z) (progress : bool) (items : list Item) (now : Q) :
  (1 <= K)%Z ->
  Tracking (length items) K [] (batch (Result := Result) K progress true items now).
Proof.
  intros HK.
  destruct (batch_consistent K progress true items now ltac:(lia)) as [Hc Hs].
  destruct (batch_fields K progress true items now)
    as (H1 & H2 & H3 & H4 & H5 & H6).
  constructor; try assumption.
  unfold batch, start.
  match goal with
  | |- context [process ?n ?x] =>
      destruct (process_spec n x eq_refl)
        as (_ & _ & _ & _ & _ & _ & _ &
            started & added & _ & _ & _ & Htr & Hcalls & _)
  end.
  exists added. split; [exact Htr|].
  eapply handlerCalls_count; [|exact Hcalls].
  intros o. unfold isHandlerCall, isComplete. now destruct (event o).
Qed.

Lemma tracking_settle (N : nat) (K : Z) (history : list (Settlement Result))
    (s : Settlement Result) q q' :
  (1 <= K)%Z -> Tracking N K history q -> settle s q = Some q' ->
  Tracking N K (history ++ [s]) q'.
Proof.
  intros HK [Hc Hsat Hlim Hon Hres Hcount (pre & Htr & Hpre)] Hs.
  destruct (settle_consistent s q q' Hc Hs) as [Hc' Hsat'].
  destruct (settle_spec s q q' (consistent_paused _ _ q Hc) Hs)
    as (item & startStr & started & added & Hlk & Hpe & Hq & H1 & H2 & H3 &
        H4 & H5 & Hac & Hr & Htr' & Hcalls & _ & _).
  assert (Hne : pending q <> []) by (intros E; rewrite E in Hlk; discriminate).
  assert (Hlen : length (delete (index s) (pending q)) = length (pending q) - 1)
    by (apply length_delete; eauto).
  assert (Hpos : 0 < length (pending q))
    by (apply lookup_lt_Some in Hlk; lia).
  constructor; try assumption; try congruence.
  - rewrite Hr, Hres, fulfilledResults_app, fulfilledResults_single. reflexivity.
  - apply (f_equal (@length Item)) in Hq. rewrite length_app, length_map in Hq.
    rewrite Hpe, !length_app, Hlen. simpl. lia.
  - exists (pre ++ noticeOf s startStr q ++ added)%list. split.
    + rewrite Htr', Htr.
      destruct (completion_idle q Hc Hsat ltac:(lia) Hon) as [_ Hidle].
      rewrite (Hidle Hne), app_nil_r, <- !app_assoc. reflexivity.
    + rewrite !countOf_app, Hpre, noticeOf_not_complete.
      erewrite handlerCalls_count; [reflexivity| |exact Hcalls].
      intros o. unfold isHandlerCall, isComplete. now destruct (event o).
Qed.

Lemma tracking_run (N : nat) (K : Z) (history schedule : list (Settlement Result))
    q q' :
  (1 <= K)%Z -> Tracking N K history q -> run schedule q = Some q' ->
  Tracking N K (history ++ schedule) q'.
Proof.
  intros HK. revert history q.
  induction schedule as [|s schedule IH]; intros history q Hq Hr; simpl in Hr.
  - injection Hr as <-. now rewrite app_nil_r.
  - destruct (settle s q) as [q1|] eqn:Hs; [|discriminate].
    replace (history ++ s :: schedule)%list with ((history ++ [s]) ++ schedule)%list
      by (now rewrite <- app_assoc).
    apply (IH _ q1); [|exact Hr]. now apply (tracking_settle N K history s q).
Qed.

(** Whatever the outcomes, settling the oldest pending promise again
    and again empties the queue. *)
Lemma drain (K : Z) (now : Q) (outcomes : list (Outcome Result)) q :
  (1 <= K)%Z -> concurrency q = K -> Consistent q -> Saturated q ->
  length outcomes = length (pending q) + length (queue q) ->
  exists schedule q',
    map outcome schedule = outcomes /\
    run schedule q = Some q' /\ pending q' = [].
Proof.
  intros HK. revert q.
  induction outcomes as [|o outcomes IH]; intros q HKq Hc Hsat Hlen.
  - exists [], q. simpl in Hlen. repeat split.
    destruct (pending q); [reflexivity | simpl in Hlen; lia].
  - destruct (pending q) as [|[item st] rest] eqn:Hp.
    + exfalso. destruct Hc as [_ Ha _ _]. rewrite Hp in Ha. simpl in Ha.
      destruct Hsat as [Hq|Hq]; [rewrite Hq in Hlen; simpl in Hlen; lia | lia].
    + destruct (settle (mkSettlement 0 o now) q) as [q1|] eqn:Hs.
      2:{ unfold settle in Hs. rewrite Hp in Hs. simpl in Hs. discriminate. }
      destruct (settle_consistent _ q q1 Hc Hs) as [Hc1 Hsat1].
      destruct (settle_spec _ q q1 (consistent_paused _ _ q Hc) Hs)
        as (item' & st' & started & added & Hlk & Hpe & Hq & H1 & _).
      assert (Hlen1 : length outcomes = length (pending q1) + length (queue q1)).
      { apply (f_equal (@length Item)) in Hq.
        rewrite length_app, length_map in Hq.
        rewrite Hpe, length_app. rewrite Hp in *. simpl in *. lia. }
      destruct (IH q1 ltac:(congruence) Hc1 Hsat1 Hlen1)
        as (schedule & q' & Hm & Hr & Hfin).
      exists (mkSettlement 0 o now :: schedule), q'.
      repeat split; [simpl; now rewrite Hm | simpl; now rewrite Hs | exact Hfin].
Qed.

Lemma run_paused (schedule : list (Settlement Result)) q q' :
  paused q = false -> run schedule q = Some q' ->
  paused q' = false /\ onProgress q' = onProgress q /\
  totalTasks q' = totalTasks q.
Proof.
  revert q. induction schedule as [|s schedule IH]; intros q Hq Hr; simpl in Hr.
  - injection Hr as <-. auto.
  - destruct (settle s q) as [q1|] eqn:Hs; [|discriminate].
    destruct (settle_spec s q q1 Hq Hs)
      as (_ & _ & _ & _ & _ & _ & _ & _ & H2 & _ & H4 & H5 & _).
    destruct (IH q1 ltac:(congruence) Hr) as (Hp & Ho & Ht).
    repeat split; congruence.
Qed.

Lemma batch_paused (K : Z) (progress complete : bool) (items : list Item) (now : Q) :
  paused (batch (Result := Result) K progress complete items now) = false.
Proof.
  unfold batch, start.
  match goal with
  | |- context [process ?n ?x] =>
      destruct (process_spec n x eq_refl) as (_ & _ & _ & _ & -> & _)
  end. reflexivity.
Qed.

(** What one turn adds to the trace, seen from [onProgress]. *)
Lemma settle_progress (s : Settlement Result) q q' :
  paused q = false -> settle s q = Some q' ->
  exists item startStr rest,
    pending q !! index s = Some (item, startStr) /\
    trace q' = (trace q ++ noticeOf s startStr q ++ rest)%list /\
    countOf isProgress rest = 0.
Proof.
  intros Hp Hs.
  destruct (settle_spec s q q' Hp Hs)
    as (item & startStr & started & added & Hlk & _ & _ & _ & _ & _ &
        _ & _ & _ & _ & Htr & Hcalls & _).
  exists item, startStr, (added ++ completion q')%list.
  split; [exact Hlk|]. split; [exact Htr|].
  rewrite countOf_app.
  erewrite handlerCalls_count; [| |exact Hcalls].
  - unfold completion. now destruct (_ && _ && _).
  - intros o. unfold isHandlerCall, isProgress. now destruct (event o).
Qed.

End SchedulerFacts.








(* ================================================================== *)
(** * Pre-calculated file names                                        *)
(* ================================================================== *)

Section ResolverFacts.

Variable toLowerCase : jsstring -> jsstring.
Variable Blob : Type.

Implicit Types st : ResolverState Blob.

#[local] Abbreviation claim := (claim toLowerCase (Blob := Blob)).
#[local] Abbreviation Claimed := (Claimed toLowerCase (Blob := Blob)).
Implicit Types folderSet : gset jsstring.

Lemma claim_mk (folder final : jsstring) (file : Blob) :
  claim (mkReadyJob folder final file) = (folder, toLowerCase final).
Proof. reflexivity. Qed.

Lemma folderSetOf_insert (used : gmap jsstring (gset jsstring))
    (folder folder' : jsstring) folderSet :
  folderSetOf (<[folder := folderSet]> used) folder' =
    if decide (folder = folder') then folderSet else folderSetOf used folder'.
Proof.
  unfold folderSetOf. rewrite lookup_insert.
  destruct (decide (folder = folder')); reflexivity.
Qed.

(** The loop returns what it last tested, and that name is not in the
    set. *)
Lemma uniqueName_fresh (fuel : nat) folderSet (safeName finalName final : jsstring)
    (counter : nat) :
  uniqueName toLowerCase fuel folderSet safeName finalName counter = Some final ->
  toLowerCase final ∉ folderSet.
Proof.
  revert finalName counter.
  induction fuel as [|fuel IH]; intros finalName counter; simpl; [discriminate|].
  case_bool_decide as Hin.
  - apply IH.
  - intros H. injection H as <-. exact Hin.
Qed.

Lemma claimed_empty : Claimed (mkResolverState ∅ []).
Proof.
  constructor; simpl; [|constructor].
  intros folder x. unfold folderSetOf. rewrite lookup_empty. simpl.
  split; [set_solver | intros H; inversion H].
Qed.

Lemma resolveJob_claimed (currentFileData : gmap jsstring Blob) (now : N)
    (job : WriteJob) st st' :
  Claimed st -> resolveJob toLowerCase currentFileData now job st = Some st' ->
  Claimed st'.
Proof.
  intros [Hsets Honce]. unfold resolveJob.
  destruct (currentFileData !! fileInfo_name job) as [file|];
    [|intros H; injection H as <-; now constructor].
  destruct (uniqueName _ _ _ _ _ _) as [final|] eqn:Hu; [|discriminate].
  intros H; injection H as <-.
  apply uniqueName_fresh in Hu.
  constructor; cbn [usedNames readyJobs].
  - intros folder x. rewrite folderSetOf_insert, map_app, elem_of_app.
    cbn [map]. rewrite claim_mk, list_elem_of_singleton.
    destruct (decide (folderName job = folder)) as [<-|Hne].
    + rewrite elem_of_union, elem_of_singleton, Hsets.
      split; [intros [->|H]; auto | intros [H|H]; [auto | left; congruence]].
    + rewrite Hsets. split; [auto | intros [H|H]; [auto | congruence]].
  - rewrite map_app. apply NoDup_app. split; [exact Honce|]. split.
    + intros c Hc Hnew. cbn [map] in Hnew. rewrite claim_mk in Hnew.
      apply list_elem_of_singleton in Hnew. subst c.
      apply Hsets in Hc. contradiction.
    + apply NoDup_singleton.
Qed.

Lemma resolveFrom_claimed (currentFileData : gmap jsstring Blob)
    (clock : nat -> N) (jobs : list WriteJob) (i : nat) st st' :
  Claimed st -> resolveFrom toLowerCase currentFileData clock i jobs st = Some st' ->
  Claimed st'.
Proof.
  revert i st. induction jobs as [|job jobs IH]; intros i st Hst; simpl.
  - intros H; injection H as <-; exact Hst.
  - destruct (resolveJob _ _ _ _ _) as [st1|] eqn:Hj; [|discriminate].
    apply IH. eapply resolveJob_claimed; eauto.
Qed.

(** Without an empty or blank sanitized name the clock is not read. *)
Lemma resolveFrom_clock (currentFileData : gmap jsstring Blob)
    (clock clock' : nat -> N) (jobs : list WriteJob) (i i' : nat) st :
  Forall (fun job => isBlank (sanitize (fileInfo_name job)) = false) jobs ->
  resolveFrom toLowerCase currentFileData clock i jobs st =
  resolveFrom toLowerCase currentFileData clock' i' jobs st.
Proof.
  intros Hall. revert i i' st.
  induction Hall as [|job jobs Hjob _ IH]; intros i i' st; simpl; [reflexivity|].
  assert (Hsame : resolveJob toLowerCase currentFileData (clock i) job st =
                  resolveJob toLowerCase currentFileData (clock' i') job st).
  { unfold resolveJob, safeNameOf. now rewrite Hjob. }
  rewrite Hsame. clear Hsame.
  destruct (resolveJob toLowerCase currentFileData (clock' i') job st);
    [apply IH | reflexivity].
Qed.

Section Terminating.

(** The names the duplicate loop tries for one sanitized name differ
    from each other after lower-casing. *)
Hypothesis attempts_differ : forall safeName i j,
  toLowerCase (attempt safeName i) = toLowerCase (attempt safeName j) -> i = j.

Lemma attempts_fit (safeName : jsstring) folderSet (k : nat) :
  (forall i, i < k -> toLowerCase (attempt safeName i) ∈ folderSet) ->
  k <= size folderSet.
Proof using attempts_differ.
  intros Hin.
  set (l := map (fun i => toLowerCase (attempt safeName i)) (seq 0 k)).
  assert (Hnd : NoDup l).
  { apply NoDup_fmap_2_strong; [|apply NoDup_seq].
    intros i j _ _ H. now apply (attempts_differ safeName). }
  assert (Hsub : (list_to_set l : gset jsstring) ⊆ folderSet).
  { intros x Hx. apply elem_of_list_to_set in Hx.
    apply list_elem_of_In, in_map_iff in Hx as (i & <- & Hi).
    apply Hin. apply in_seq in Hi. lia. }
  apply subseteq_size in Hsub.
  rewrite size_list_to_set in Hsub by exact Hnd.
  unfold l in Hsub. rewrite length_map, length_seq in Hsub. exact Hsub.
Qed.

(** With enough tests allowed the loop stops at the first attempt
    not in the set. *)
Lemma uniqueName_spec (fuel : nat) folderSet (safeName : jsstring) (k : nat) :
  (forall i, i < k -> toLowerCase (attempt safeName i) ∈ folderSet) ->
  size folderSet < fuel + k ->
  exists m, k <= m /\
    uniqueName toLowerCase fuel folderSet safeName (attempt safeName k) (S k)
      = Some (attempt safeName m) /\
    (toLowerCase (attempt safeName m) ∉ folderSet) /\
    (forall i, i < m -> toLowerCase (attempt safeName i) ∈ folderSet).
Proof using attempts_differ.
  revert k. induction fuel as [|fuel IH]; intros k Hin Hsize.
  - pose proof (attempts_fit safeName folderSet k Hin). lia.
  - simpl. case_bool_decide as Hk.
    + destruct (IH (S k)) as (m & Hm & Hu & Hfresh & Hbelow).
      * intros i Hi. destruct (decide (i = k)) as [->|]; [exact Hk|].
        apply Hin. lia.
      * lia.
      * exists m. repeat split; auto; lia.
    + exists k. repeat split; auto.
Qed.

Lemma resolveJob_total (currentFileData : gmap jsstring Blob) (now : N)
    (job : WriteJob) st :
  exists st',
    resolveJob toLowerCase currentFileData now job st = Some st' /\
    length (readyJobs st') =
      length (readyJobs st) +
      (match currentFileData !! fileInfo_name job with Some _ => 1 | None => 0 end) /\
    map ready_folderName (readyJobs st') =
      (map ready_folderName (readyJobs st) ++
       (match currentFileData !! fileInfo_name job with
        | Some _ => [folderName job]
        | None => []
        end))%list.
Proof using attempts_differ.
  unfold resolveJob.
  destruct (currentFileData !! fileInfo_name job) as [file|].
  - set (folderSet := folderSetOf (usedNames st) (folderName job)).
    set (safeName := safeNameOf now (fileInfo_name job)).
    destruct (uniqueName_spec (S (size folderSet)) folderSet safeName 0)
      as (m & _ & Hu & _); [intros i Hi; lia | lia |].
    simpl attempt in Hu at 1. rewrite Hu.
    eexists. split; [reflexivity|]. cbn [readyJobs].
    rewrite length_app, map_app. simpl. split; [lia | reflexivity].
  - exists st. rewrite Nat.add_0_r, app_nil_r. auto.
Qed.

Lemma resolveFrom_total (currentFileData : gmap jsstring Blob)
    (clock : nat -> N) (jobs : list WriteJob) (i : nat) st :
  Forall (fun job => is_Some (currentFileData !! fileInfo_name job)) jobs ->
  exists st',
    resolveFrom toLowerCase currentFileData clock i jobs st = Some st' /\
    length (readyJobs st') = length (readyJobs st) + length jobs /\
    map ready_folderName (readyJobs st') =
      (map ready_folderName (readyJobs st) ++ map folderName jobs)%list.
Proof using attempts_differ.
  intros Hall. revert i st.
  induction Hall as [|job jobs [file Hfile] _ IH]; intros i st; simpl.
  - exists st. rewrite Nat.add_0_r, app_nil_r. auto.
  - destruct (resolveJob_total currentFileData (clock i) job st)
      as (st1 & Hj & Hlen & Hfolders).
    rewrite Hfile in Hlen, Hfolders. rewrite Hj.
    destruct (IH (S i) st1) as (st' & Hr & Hlen' & Hfolders').
    exists st'. split; [exact Hr|]. split; [lia|].
    rewrite Hfolders', Hfolders, <- app_assoc. reflexivity.
Qed.

(** Jobs of one folder with one sanitized name get the attempts in
    order: the name itself, then the suffixed names. *)
Lemma resolveFrom_same_name (currentFileData : gmap jsstring Blob)
    (clock : nat -> N) (folder safeName : jsstring)
    (jobs : list WriteJob) (i n : nat) st :
  (forall x, x ∈ folderSetOf (usedNames st) folder <->
             exists k, k < n /\ x = toLowerCase (attempt safeName k)) ->
  (forall k job, jobs !! k = Some job ->
     folderName job = folder /\
     is_Some (currentFileData !! fileInfo_name job) /\
     safeNameOf (clock (i + k)) (fileInfo_name job) = safeName) ->
  exists st',
    resolveFrom toLowerCase currentFileData clock i jobs st = Some st' /\
    map finalName (readyJobs st') =
      (map finalName (readyJobs st) ++
       map (attempt safeName) (seq n (length jobs)))%list.
Proof using attempts_differ.
  revert i n st. induction jobs as [|job jobs IH]; intros i n st Hset Hjobs.
  - exists st. simpl. now rewrite app_nil_r.
  - destruct (Hjobs 0 job eq_refl) as (Hfolder & [file Hfile] & Hsafe).
    rewrite Nat.add_0_r in Hsafe.
    cbn [resolveFrom]. unfold resolveJob. rewrite Hfile, Hsafe, Hfolder.
    set (folderSet := folderSetOf (usedNames st) folder).
    destruct (uniqueName_spec (S (size folderSet)) folderSet safeName 0)
      as (m & _ & Hu & Hfresh & Hbelow); [intros k Hk; lia | lia |].
    simpl attempt in Hu at 1. rewrite Hu.
    assert (Hm : m = n).
    { destruct (Nat.lt_trichotomy m n) as [Hlt|[Heq|Hgt]]; [|exact Heq|].
      - exfalso. apply Hfresh. apply Hset. eauto.
      - exfalso. apply Hbelow in Hgt. apply Hset in Hgt as (k & Hk & Heq).
        apply attempts_differ in Heq. lia. }
    subst m.
    match goal with
    | |- context [resolveFrom _ _ _ _ _ ?s] => destruct (IH (S i) (S n) s)
        as (st' & Hr & Hnames)
    end.
    + intros x. cbn [usedNames]. rewrite folderSetOf_insert.
      destruct (decide (folder = folder)) as [_|]; [|congruence].
      unfold folderSet. rewrite elem_of_union, elem_of_singleton, Hset.
      split.
      * intros [->|(k & Hk & ->)]; [exists n | exists k]; split; auto; lia.
      * intros (k & Hk & ->).
        destruct (decide (k = n)) as [->|]; [now left|].
        right. exists k. split; [lia | reflexivity].
    + intros k job' Hk. specialize (Hjobs (S k) job' Hk).
      now replace (S i + k) with (i + S k) by lia.
    + exists st'. split; [exact Hr|].
      rewrite Hnames. cbn [readyJobs]. rewrite map_app. simpl.
      now rewrite <- app_assoc.
Qed.

End Terminating.

End ResolverFacts.

(** ** ASCII case folding keeps the attempts apart *)

Lemma str_inj (s1 s2 : string) : str s1 = str s2 -> s1 = s2.
Proof.
  unfold str. intros H.
  rewrite <- (string_of_list_ascii_of_string s1),
    <- (string_of_list_ascii_of_string s2).
  f_equal. revert H.
  generalize (list_ascii_of_string s1), (list_ascii_of_string s2).
  induction l as [|a l IH]; intros [|b l']; simpl; try discriminate; auto.
  intros H. injection H as Hab Hl. f_equal; [|auto].
  rewrite <- (ascii_N_embedding a), <- (ascii_N_embedding b). now f_equal.
Qed.

Lemma decimal_inj (n m : N) : decimal n = decimal m -> n = m.
Proof.
  unfold decimal. intros H. apply str_inj in H.
  assert (Hnn : forall k, N.to_uint k <> Decimal.Nil).
  { intros [|p]; [discriminate | apply DecimalPos.Unsigned.to_uint_nonnil]. }
  apply DecimalN.Unsigned.to_uint_inj.
  pose proof (NilZero.usu _ (Hnn n)) as Hn.
  pose proof (NilZero.usu _ (Hnn m)) as Hm.
  rewrite H in Hn. congruence.
Qed.

Lemma digits_string d :
  Forall (fun c => (48 <= c <= 57)%N) (str (NilEmpty.string_of_uint d)).
Proof.
  unfold str. induction d; simpl; constructor; try assumption; simpl; lia.
Qed.

Lemma decimal_digits (n : N) : Forall (fun c => (48 <= c <= 57)%N) (decimal n).
Proof.
  unfold decimal, NilZero.string_of_uint.
  destruct (N.to_uint n); try apply digits_string.
  repeat constructor; simpl; lia.
Qed.

Lemma asciiLowerCase_digits (s : jsstring) :
  Forall (fun c => (48 <= c <= 57)%N) s -> asciiLowerCase s = s.
Proof.
  unfold asciiLowerCase. induction 1 as [|c s Hc _ IH]; simpl; [reflexivity|].
  rewrite IH. f_equal. unfold asciiLowerUnit.
  destruct (N.leb_spec 65 c); [lia | reflexivity].
Qed.

(** A suffixed name is the sanitized name with an underscore and the
    counter inserted at a fixed place. *)
Lemma suffixed_shape (safeName : jsstring) :
  exists stem ext,
    safeName = (stem ++ ext)%list /\
    forall counter,
      suffixed safeName counter =
        (stem ++ [underscore] ++ decimal (N.of_nat counter) ++ ext)%list.
Proof.
  unfold suffixed.
  destruct (0 <? lastIndexOf dot safeName)%Z.
  - exists (substring 0 (lastIndexOf dot safeName) safeName),
           (substringFrom (lastIndexOf dot safeName) safeName).
    split; [|reflexivity].
    unfold substring, substringFrom. simpl Z.to_nat. rewrite Nat.sub_0_r.
    simpl drop at 1. now rewrite take_drop.
  - exists safeName, []. split; [now rewrite app_nil_r|].
    intros counter. now rewrite app_nil_r.
Qed.

Lemma asciiLowerCase_attempts_differ (safeName : jsstring) (i j : nat) :
  asciiLowerCase (attempt safeName i) = asciiLowerCase (attempt safeName j) ->
  i = j.
Proof.
  destruct (suffixed_shape safeName) as (stem & ext & Hsafe & Hshape).
  assert (Hlen : forall k, length (attempt safeName (S k)) > length safeName).
  { intros k. simpl. rewrite Hshape, Hsafe, !length_app. simpl. lia. }
  intros H.
  assert (Hl : length (attempt safeName i) = length (attempt safeName j)).
  { apply (f_equal (@length N)) in H. unfold asciiLowerCase in H.
    now rewrite !length_map in H. }
  destruct i as [|i], j as [|j]; try reflexivity.
  - specialize (Hlen j). simpl attempt in Hl at 1. lia.
  - specialize (Hlen i). simpl attempt in Hl at 2. lia.
  - simpl attempt in H. rewrite !Hshape in H. unfold asciiLowerCase in H.
    rewrite !map_app in H.
    apply app_inv_head in H. simpl in H. injection H as H.
    assert (Hd : length (decimal (N.of_nat (S i))) = length (decimal (N.of_nat (S j)))).
    { simpl attempt in Hl. rewrite !Hshape, !length_app in Hl. simpl in Hl. lia. }
    apply app_inj_1 in H as [H _]; [|now rewrite !length_map].
    fold (asciiLowerCase (decimal (N.of_nat (S i)))) in H.
    fold (asciiLowerCase (decimal (N.of_nat (S j)))) in H.
    rewrite !asciiLowerCase_digits in H by apply decimal_digits.
    apply decimal_inj in H. lia.
Qed.

(** C4, as the code has it. Provided lower-casing keeps the names tried
    for one sanitized name apart, the jobs whose file is held in
    [currentFileData] get one final name each, in input order; no two
    jobs of a folder share a final name up to case; jobs of one folder
    with one sanitized name get that name, then the name with [_1],
    [_2], ... inserted before the extension; and the result does not
    depend on the clock as long as no sanitized name is empty or blank
    (such a name is replaced by [unnamed_] followed by the clock
    reading). *)
Theorem final_names_distinct_per_folder
    (toLowerCase : jsstring -> jsstring) (Blob : Type)
    (currentFileData : gmap jsstring Blob) (clock : nat -> N)
    (writeJobs : list WriteJob) :
  (forall safeName i j,
     toLowerCase (attempt safeName i) = toLowerCase (attempt safeName j) -> i = j) ->
  Forall (fun job => is_Some (currentFileData !! fileInfo_name job)) writeJobs ->
  exists ready,
    resolveNames toLowerCase currentFileData clock writeJobs = Some ready /\
    length ready = length writeJobs /\
    map ready_folderName ready = map folderName writeJobs /\
    NoDup (map (claim toLowerCase) ready) /\
    (forall folder,
       Forall (fun job => folderName job = folder) writeJobs ->
       NoDup (map (fun job => toLowerCase (finalName job)) ready)) /\
    (forall clock',
       Forall (fun job => isBlank (sanitize (fileInfo_name job)) = false) writeJobs ->
       resolveNames toLowerCase currentFileData clock' writeJobs = Some ready) /\
    (forall folder safeName,
       (forall k job, writeJobs !! k = Some job ->
          folderName job = folder /\
          safeNameOf (clock k) (fileInfo_name job) = safeName) ->
       map finalName ready = map (attempt safeName) (seq 0 (length writeJobs))).
Proof.
  intros Hdiffer Hfiles.
  destruct (resolveFrom_total toLowerCase Blob Hdiffer currentFileData clock
              writeJobs 0 (mkResolverState ∅ []) Hfiles)
    as (st & Hrun & Hlen & Hfolders).
  pose proof (resolveFrom_claimed toLowerCase Blob currentFileData clock
                writeJobs 0 _ st (claimed_empty toLowerCase Blob) Hrun)
    as [_ Honce].
  simpl in Hlen, Hfolders.
  exists (readyJobs st). unfold resolveNames.
  split; [now rewrite Hrun|]. split; [exact Hlen|]. split; [exact Hfolders|].
  split; [exact Honce|]. split; [|split].
  - intros folder Hsame.
    assert (Hmap : map (claim toLowerCase) (readyJobs st) =
                   map (pair folder)
                     (map (fun job => toLowerCase (finalName job)) (readyJobs st))).
    { rewrite map_map. apply map_ext_in. intros job Hjob.
      unfold claim. f_equal.
      assert (Hin : In (ready_folderName job) (map folderName writeJobs)).
      { rewrite <- Hfolders. now apply in_map. }
      apply in_map_iff in Hin as (w & <- & Hw).
      rewrite Forall_forall in Hsame. apply Hsame. now apply list_elem_of_In. }
    rewrite Hmap in Honce. now apply NoDup_fmap_1 in Honce.
  - intros clock' Hblank.
    rewrite (resolveFrom_clock toLowerCase Blob currentFileData clock' clock
               writeJobs 0 0 _ Hblank).
    now rewrite Hrun.
  - intros folder safeName Hjobs.
    destruct (resolveFrom_same_name toLowerCase Blob Hdiffer currentFileData clock
                folder safeName writeJobs 0 0 (mkResolverState ∅ []))
      as (st' & Hrun' & Hnames).
    + intros x. unfold folderSetOf. simpl. rewrite lookup_empty. simpl.
      split; [set_solver | intros (k & Hk & _); lia].
    + intros k job Hk. destruct (Hjobs k job Hk) as [Hf Hs].
      split; [exact Hf|]. split; [|exact Hs].
      rewrite Forall_forall in Hfiles. apply Hfiles.
      eapply list_elem_of_lookup_2; eauto.
    + rewrite Hrun in Hrun'. injection Hrun' as <-. exact Hnames.
Qed.

(** Three files that all sanitize to report.txt, in one folder. *)
Lemma final_names_distinct_per_folder_witness :
  let job := mkWriteJob (str "TXT") (str "report.txt") in
  let files : gmap jsstring unit := {[ str "report.txt" := tt ]} in
  exists ready,
    resolveNames asciiLowerCase files (fun _ => 0%N) [job; job; job] = Some ready /\
    map finalName ready = [str "report.txt"; str "report_1.txt"; str "report_2.txt"] /\
    NoDup (map (fun r => asciiLowerCase (finalName r)) ready).
Proof.
  cbv zeta.
  destruct (final_names_distinct_per_folder asciiLowerCase unit
              {[ str "report.txt" := tt ]} (fun _ => 0%N)
              (replicate 3 (mkWriteJob (str "TXT") (str "report.txt")))
              asciiLowerCase_attempts_differ)
    as (ready & Hrun & _ & _ & _ & Hdistinct & _ & Hnames).
  - repeat constructor; exists tt; reflexivity.
  - exists ready. split; [exact Hrun|]. split.
    + rewrite (Hnames (str "TXT") (str "report.txt")); [reflexivity|].
      intros k job Hk.
      do 3 (destruct k as [|k]; [injection Hk as <-; split; reflexivity|]).
      discriminate.
    + apply (Hdistinct (str "TXT")). repeat constructor.
Defined.

(** C4, counterexample to determinism: a file whose name is one space
    gets a final name made from the clock reading, so the same input
    gives different names at different times. *)
Lemma blank_name_depends_on_clock :
  let job := mkWriteJob (str "TXT") (str " ") in
  let files : gmap jsstring unit := {[ str " " := tt ]} in
  option_map (map finalName) (resolveNames asciiLowerCase files (fun _ => 1%N) [job])
    = Some [str "unnamed_1"] /\
  option_map (map finalName) (resolveNames asciiLowerCase files (fun _ => 2%N) [job])
    = Some [str "unnamed_2"] /\
  resolveNames asciiLowerCase files (fun _ => 1%N) [job] <>
  resolveNames asciiLowerCase files (fun _ => 2%N) [job].
Proof.
  cbv zeta. split; [vm_compute; reflexivity|]. split; [vm_compute; reflexivity|].
  vm_compute. discriminate.
Qed.

(* ================================================================== *)
(** * Further properties: rendering and matching                       *)
(* ================================================================== *)

Lemma bytesToHex_app (a b : list byte) :
  bytesToHex (a ++ b) = bytesToHex a ++ bytesToHex b.
Proof. induction a as [|x a IH]; simpl; [reflexivity | now rewrite IH]. Qed.

Lemma string_length_append (s1 s2 : string) :
  String.length (s1 ++ s2) = String.length s1 + String.length s2.
Proof. induction s1 as [|c s1 IH]; simpl; [reflexivity | now rewrite IH]. Qed.

Lemma bytesToHex_length (bytes : list byte) :
  String.length (bytesToHex bytes) = 2 * length bytes.
Proof.
  induction bytes as [|b bytes IH]; [reflexivity|].
  cbn [bytesToHex length]. rewrite string_length_append, IH.
  unfold byteToHex. cbn [String.length]. lia.
Qed.

(** X1. [bytesToHex] renders every byte as exactly two characters, each
    an upper-case hex digit, and renders a concatenation as the
    concatenation of the renderings. *)
Theorem bytesToHex_two_digits_per_byte :
  (forall bytes, String.length (bytesToHex bytes) = 2 * length bytes) /\
  (forall bytes c, In c (list_ascii_of_string (bytesToHex bytes)) -> isHexChar c) /\
  (forall a b, bytesToHex (a ++ b) = bytesToHex a ++ bytesToHex b).
Proof.
  split; [exact bytesToHex_length|].
  split; [exact bytesToHex_chars | exact bytesToHex_app].
Qed.

Lemma hexDigit_inj (n m : nat) :
  n < 16 -> m < 16 -> hexDigit n = hexDigit m -> n = m.
Proof.
  intros Hn Hm.
  do 16 (destruct n as [|n]; [do 16 (destruct m as [|m]; [first [reflexivity | discriminate]|]); lia|]).
  lia.
Qed.

Lemma byteToHex_inj (a b : byte) : byteToHex a = byteToHex b -> a = b.
Proof.
  unfold byteToHex. intros H.
  assert (H1 : hexDigit (Byte.to_nat a / 16) = hexDigit (Byte.to_nat b / 16)).
  { exact (f_equal (fun s => match s with String c _ => c | _ => "0"%char end) H). }
  assert (H2 : hexDigit (Byte.to_nat a mod 16) = hexDigit (Byte.to_nat b mod 16)).
  { exact (f_equal (fun s => match s with
                             | String _ (String c _) => c
                             | _ => "0"%char
                             end) H). }
  clear H.
  pose proof (Byte.to_nat_bounded a). pose proof (Byte.to_nat_bounded b).
  apply hexDigit_inj in H1;
    [|apply Nat.Div0.div_lt_upper_bound; lia|apply Nat.Div0.div_lt_upper_bound; lia].
  apply hexDigit_inj in H2; [|apply Nat.mod_upper_bound; lia|apply Nat.mod_upper_bound; lia].
  apply to_nat_inj.
  rewrite (Nat.div_mod_eq (Byte.to_nat a) 16), (Nat.div_mod_eq (Byte.to_nat b) 16).
  now rewrite H1, H2.
Qed.

(** X2. The rendering loses nothing: two byte sequences with the same
    hex rendering are equal. *)
Theorem bytesToHex_injective (a b : list byte) :
  bytesToHex a = bytesToHex b -> a = b.
Proof.
  revert b. induction a as [|x a IH]; intros [|y b]; simpl; try discriminate.
  - reflexivity.
  - intros H.
    assert (Hsplit : byteToHex x = byteToHex y /\ bytesToHex a = bytesToHex b).
    { unfold byteToHex in *. 
      set (c1 := hexDigit (Byte.to_nat x / 16)) in *.
      set (c2 := hexDigit (Byte.to_nat x mod 16)) in *.
      set (d1 := hexDigit (Byte.to_nat y / 16)) in *.
      set (d2 := hexDigit (Byte.to_nat y mod 16)) in *.
      clearbody c1 c2 d1 d2. cbn [String.append] in H.
      injection H as E1 E2 E3. subst c1 c2. simpl in E3. auto. }
    destruct Hsplit as [Hhead Htail].
    f_equal; [now apply byteToHex_inj | now apply IH].
Qed.

Lemma bytesToHex_injective_witness :
  bytesToHex [x89; x50] = bytesToHex [x89; x50] /\ [x89; x50] = [x89; x50].
Proof.
  split; [reflexivity|].
  apply (bytesToHex_injective [x89; x50] [x89; x50]). reflexivity.
Defined.

Lemma startsWith_length (h pattern : string) :
  startsWith h pattern = true -> String.length pattern <= String.length h.
Proof.
  intros H. apply startsWith_spec in H as [rest ->].
  rewrite string_length_append. lia.
Qed.

(** Two prefixes of one string are comparable. *)
Lemma startsWith_comparable (h p1 p2 : string) :
  startsWith h p1 = true -> startsWith h p2 = true -> comparable p1 p2 = true.
Proof.
  unfold comparable. revert p1 p2.
  induction h as [|c h IH]; intros p1 p2 H1 H2.
  - destruct p1, p2; try discriminate. reflexivity.
  - destruct p1 as [|c1 p1]; [destruct p2; reflexivity|].
    destruct p2 as [|c2 p2]; [reflexivity|].
    apply startsWith_head in H1 as (h1 & E1 & H1).
    apply startsWith_head in H2 as (h2 & E2 & H2).
    injection E1 as <- <-. injection E2 as <- <-.
    specialize (IH p1 p2 H1 H2).
    unfold startsWith in *. simpl.
    destruct (ascii_dec c c); [exact IH | congruence].
Qed.

(** X3. The worker's [detectType] answers Unknown/Unknown for every input
    shorter than two bytes, the empty input included. *)
Theorem detectType_short_input (bytes : list byte) :
  length bytes < 2 -> detectType bytes = unknownType.
Proof.
  intros Hlen. unfold detectType.
  assert (Hh : String.length (bytesToHex (take 16 bytes)) < 4).
  { rewrite bytesToHex_length, length_take. lia. }
  revert Hh. generalize (bytesToHex (take 16 bytes)). intros h Hh.
  assert (Hno : forall p, 4 <= String.length p -> startsWith h p = false).
  { intros p Hp. destruct (startsWith h p) eqn:E; [|reflexivity].
    apply startsWith_length in E. lia. }
  unfold MAGIC_SIGNATURES. simpl.
  rewrite !Hno by (simpl; lia). reflexivity.
Qed.

Lemma detectType_short_input_witness :
  detectType [] = unknownType /\ detectType [x4d] = unknownType.
Proof.
  split; [apply (detectType_short_input []) | apply (detectType_short_input [x4d])];
    simpl; lia.
Defined.

Lemma prefixFree_magicDatabase : prefixFree magicDatabase = true.
Proof. vm_compute. reflexivity. Qed.

Lemma prefixFree_spec (table : list Signature) (s1 s2 : Signature) :
  prefixFree table = true -> In s1 table -> In s2 table ->
  comparable (hex s1) (hex s2) = true -> s1 = s2.
Proof.
  unfold prefixFree. rewrite forallb_forall. intros H H1 H2 Hc.
  specialize (H s1 H1). rewrite forallb_forall in H. specialize (H s2 H2).
  rewrite Hc in H. simpl in H. now apply bool_decide_eq_true in H.
Qed.

Lemma matchMagic_In (table : list Signature) (h : string) (sig : Signature) :
  matchMagic table h = Some sig -> In sig table /\ startsWith h (hex sig) = true.
Proof.
  induction table as [|s table IH]; simpl; [discriminate|].
  destruct (startsWith h (hex s)) eqn:E.
  - intros H. injection H as <-. auto.
  - intros H. destruct (IH H). auto.
Qed.

Lemma matchMagic_None (table : list Signature) (h : string) (sig : Signature) :
  matchMagic table h = None -> In sig table -> startsWith h (hex sig) = false.
Proof.
  induction table as [|s table IH]; simpl; [tauto|].
  destruct (startsWith h (hex s)) eqn:E; [discriminate|].
  intros H [<-|Hin]; auto.
Qed.

(** X4. No pattern of [magicDatabase] is a prefix of another one, so at
    most one entry matches a header and the matching loop returns every
    entry whose pattern the header starts with: the order of the table
    decides nothing. *)
Theorem magicDatabase_unambiguous (h : string) (sig : Signature) :
  In sig magicDatabase -> startsWith h (hex sig) = true ->
  matchMagic magicDatabase h = Some sig.
Proof.
  intros Hin Hm.
  destruct (matchMagic magicDatabase h) as [sig'|] eqn:E.
  - apply matchMagic_In in E as [Hin' Hm'].
    f_equal. apply (prefixFree_spec magicDatabase sig' sig prefixFree_magicDatabase Hin' Hin).
    eapply startsWith_comparable; eauto.
  - rewrite (matchMagic_None _ _ sig E Hin) in Hm. discriminate.
Qed.

Lemma magicDatabase_unambiguous_witness :
  matchMagic magicDatabase (bytesToHex [x4d; x5a; x90; x00]) =
    Some (mkSignature "4D5A" "EXE/DLL" "Executable" "Windows Executable"
            [str ".exe"; str ".dll"; str ".sys"]).
Proof.
  apply (magicDatabase_unambiguous (bytesToHex [x4d; x5a; x90; x00])).
  - apply list_elem_of_In, (bool_decide_unpack _). vm_compute. exact I.
  - reflexivity.
Defined.

Lemma tablesAgree_tables : tablesAgree MAGIC_SIGNATURES magicDatabase = true.
Proof. vm_compute. reflexivity. Qed.

Lemma detectIn_In (table : list WorkerSignature) (h : string) :
  detectIn table h = unknownType \/
  exists w, In w table /\ startsWith h (w_hex w) = true /\
            detectIn table h = mkTypeInfo (w_type w) (w_category w).
Proof.
  induction table as [|w table IH]; simpl; [now left|].
  destruct (startsWith h (w_hex w)) eqn:E.
  - right. exists w. auto.
  - destruct IH as [IH|(w' & Hin & Hm & Hd)]; [now left|].
    right. exists w'. auto.
Qed.

Lemma header_prefix (bytes : list byte) (p : string) :
  String.length p <= 32 ->
  startsWith (bytesToHex (take 64 bytes)) p = startsWith (bytesToHex (take 16 bytes)) p.
Proof.
  intros Hp.
  destruct (Nat.le_gt_cases 16 (length bytes)) as [Hlen|Hlen].
  - replace (take 64 bytes) with (take 16 bytes ++ take 48 (drop 16 bytes))%list
      by apply (take_take_drop bytes 16 48).
    rewrite bytesToHex_app.
    assert (Hl : String.length (bytesToHex (take 16 bytes)) = 32).
    { rewrite bytesToHex_length, length_take. lia. }
    revert Hl Hp. generalize (bytesToHex (take 16 bytes)) as h16.
    generalize (bytesToHex (take 48 (drop 16 bytes))) as rest.
    intros rest h16. revert p. generalize 32.
    induction h16 as [|c h16 IH]; intros n p Hl Hp; simpl in Hl.
    + subst n. destruct p; [|simpl in Hp; lia].
      unfold startsWith. simpl. now destruct rest.
    + destruct p as [|d p]; [reflexivity|].
      unfold startsWith in *. simpl.
      destruct (ascii_dec d c); [|reflexivity].
      destruct n as [|n]; [discriminate|].
      apply (IH n); simpl in Hp; lia.
  - rewrite !take_ge by lia. reflexivity.
Qed.

(** X5. The worker's table and the main table never contradict each
    other: when the worker's [detectType] recognises a file and the
    matching loop of [analyzeFile] stops at a signature for the same
    file, both give the same type and category. *)
Theorem matchers_agree (bytes : list byte) (sig : Signature) :
  matchMagic magicDatabase (bytesToHex (take 64 bytes)) = Some sig ->
  detectType bytes <> unknownType ->
  detectType bytes = mkTypeInfo (sig_type sig) (sig_category sig).
Proof.
  intros Hm Hd. unfold detectType in *.
  apply matchMagic_In in Hm as [Hin Hs].
  assert (Hlen : String.length (hex sig) <= 32).
  { assert (Hall : forallb (fun s => String.length (hex s) <=? 32) magicDatabase = true)
      by (vm_compute; reflexivity).
    rewrite forallb_forall in Hall. apply Nat.leb_le, Hall, Hin. }
  rewrite (header_prefix bytes _ Hlen) in Hs.
  destruct (detectIn_In MAGIC_SIGNATURES (bytesToHex (take 16 bytes)))
    as [Hu|(w & Hw & Hwm & ->)]; [contradiction|].
  pose proof tablesAgree_tables as Ht. unfold tablesAgree in Ht.
  rewrite forallb_forall in Ht. specialize (Ht w Hw).
  rewrite forallb_forall in Ht. specialize (Ht sig Hin).
  rewrite (startsWith_comparable _ _ _ Hwm Hs) in Ht. simpl in Ht.
  apply andb_true_iff in Ht as [H1 H2].
  apply bool_decide_eq_true in H1, H2. now rewrite H1, H2.
Qed.

Lemma matchers_agree_witness :
  detectType [xff; xd8; xff; xe0; x00] = mkTypeInfo "JPEG" "Image".
Proof.
  apply (matchers_agree [xff; xd8; xff; xe0; x00]
           (mkSignature "FFD8FFE0" "JPEG" "Image" "JPEG Image (JFIF)"
              [str ".jpg"; str ".jpeg"])).
  - reflexivity.
  - vm_compute. discriminate.
Defined.

(* ================================================================== *)
(** * Further properties: extensions and the analysis record           *)
(* ================================================================== *)

Lemma lastIndexOf_from_spec (c : N) (s : jsstring) (i acc : Z) :
  (~ In c s /\ lastIndexOf_from c s i acc = acc) \/
  (exists pre post, s = (pre ++ c :: post)%list /\ ~ In c post /\
     lastIndexOf_from c s i acc = (i + Z.of_nat (length pre))%Z).
Proof.
  revert i acc. induction s as [|x s IH]; intros i acc; simpl.
  - left. tauto.
  - destruct (IH (i + 1)%Z (if N.eqb x c then i else acc))
      as [[Hno Hr]|(pre & post & -> & Hpost & Hr)].
    + destruct (N.eqb_spec x c) as [->|Hne].
      * right. exists [], s. simpl. rewrite Hr. repeat split; auto. lia.
      * left. split; [intros [E|E]; congruence | exact Hr].
    + right. exists (x :: pre), post. simpl. rewrite Hr.
      repeat split; auto. lia.
Qed.

Lemma lastIndexOf_absent (c : N) (s : jsstring) :
  ~ In c s -> lastIndexOf c s = (-1)%Z.
Proof.
  intros Hno. unfold lastIndexOf.
  destruct (lastIndexOf_from_spec c s 0 (-1)) as [[_ H]|(pre & post & -> & _)];
    [exact H|].
  exfalso. apply Hno, in_or_app. right. now left.
Qed.

Lemma last_occurrence_unique (c : N) (pre pre' post post' : jsstring) :
  (pre ++ c :: post)%list = (pre' ++ c :: post')%list ->
  ~ In c post -> ~ In c post' -> length pre = length pre'.
Proof.
  revert pre'. induction pre as [|x pre IH]; intros [|y pre'] Heq Hpost Hpost';
    simpl in Heq.
  - reflexivity.
  - exfalso. injection Heq as E1 E2. subst.
    apply Hpost, in_or_app. right. now left.
  - exfalso. injection Heq as E1 E2. subst.
    apply Hpost', in_or_app. right. now left.
  - injection Heq as E1 E2. simpl. f_equal. now apply IH.
Qed.

Lemma lastIndexOf_last (c : N) (pre post : jsstring) :
  ~ In c post -> lastIndexOf c (pre ++ c :: post) = Z.of_nat (length pre).
Proof.
  intros Hpost. unfold lastIndexOf.
  destruct (lastIndexOf_from_spec c (pre ++ c :: post) 0 (-1))
    as [[Hno _]|(pre' & post' & Heq & Hpost' & ->)].
  - exfalso. apply Hno, in_or_app. right. now left.
  - rewrite (last_occurrence_unique c pre pre' post post' Heq Hpost Hpost'). lia.
Qed.

(** X6. [getFileExtension] gives the empty string for a name without a
    dot; otherwise it gives the lower-cased text from the last dot of
    the name to its end, the dot included: the whole name for a name
    such as .gitignore, a single dot for a name ending in a dot. *)
Theorem getFileExtension_from_last_dot
    (toLowerCase : jsstring -> jsstring) (name : jsstring) :
  (~ In dot name -> getFileExtension toLowerCase name = []) /\
  (forall stem rest,
     name = (stem ++ dot :: rest)%list -> ~ In dot rest ->
     getFileExtension toLowerCase name = toLowerCase (dot :: rest)).
Proof.
  unfold getFileExtension. split.
  - intros Hno. now rewrite (lastIndexOf_absent dot name Hno).
  - intros stem rest -> Hrest. rewrite (lastIndexOf_last dot stem rest Hrest).
    destruct (Z.leb_spec 0 (Z.of_nat (length stem))) as [_|H]; [|lia].
    unfold substringFrom. rewrite Nat2Z.id, drop_app_length. reflexivity.
Qed.

Section RecordFacts.

Variable toLowerCase : jsstring -> jsstring.

Lemma analyzeFile_corrupt (file : File.t) :
  Result.isCorrupt (fst (analyzeFile toLowerCase file)) = true <->
  (exists message, File.content file = inl message) \/
  (exists bytes, File.content file = inr bytes /\ length bytes < 2).
Proof.
  destruct (File.content file) as [message|bytes] eqn:Hc.
  - rewrite (analyzeFile_unreadable _ _ _ Hc). simpl. split; eauto.
  - destruct (Nat.lt_ge_cases (length bytes) 2) as [Hlen|Hlen].
    + rewrite (analyzeFile_short _ _ _ Hc Hlen). simpl. split; eauto.
    + rewrite (analyzeFile_long _ _ _ Hc Hlen). cbn [fst].
      destruct (applyFallback_keeps (scored toLowerCase file bytes))
        as (_ & _ & _ & _ & -> & _).
      unfold scored.
      match goal with
      | |- context [applySignature ?m ?r] =>
          destruct (applySignature_keeps m r) as (_ & _ & _ & -> & _)
      end.
      simpl. split; [discriminate|].
      intros [(m & Hm)|(b & Hb & Hl)]; [discriminate|].
      injection Hb as <-. lia.
Qed.

Lemma analyzeFile_corrupt_defaults (file : File.t) :
  Result.isCorrupt (fst (analyzeFile toLowerCase file)) = true ->
  let r := fst (analyzeFile toLowerCase file) in
  Result.category r = "Error" /\
  Result.extensionMismatch r = false /\ Result.isEncrypted r = false /\
  Result.entropy r = 0%R /\ Result.hexPreview r = EmptyString.
Proof.
  intros H. apply analyzeFile_corrupt in H.
  destruct H as [(message & Hc)|(bytes & Hc & Hlen)]; cbv zeta.
  - rewrite (analyzeFile_unreadable _ _ _ Hc). simpl. auto.
  - rewrite (analyzeFile_short _ _ _ Hc Hlen). simpl. auto.
Qed.

End RecordFacts.

(** X7. A record is marked corrupt exactly when the content could not be
    read or has fewer than two bytes; such a record has category Error,
    is never flagged as extension mismatch or as likely encrypted, and
    keeps entropy 0 and an empty hex preview. *)
Theorem corrupt_records
    (toLowerCase : jsstring -> jsstring) (file : File.t) :
  let r := fst (analyzeFile toLowerCase file) in
  (Result.isCorrupt r = true <->
     (exists message, File.content file = inl message) \/
     (exists bytes, File.content file = inr bytes /\ length bytes < 2)) /\
  (Result.isCorrupt r = true ->
     Result.category r = "Error" /\
     Result.extensionMismatch r = false /\ Result.isEncrypted r = false /\
     Result.entropy r = 0%R /\ Result.hexPreview r = EmptyString).
Proof.
  cbv zeta. split; [apply analyzeFile_corrupt | apply analyzeFile_corrupt_defaults].
Qed.

Lemma no_signature_named_Unknown :
  forallb (fun s => negb (bool_decide (sig_type s = "Unknown"))) magicDatabase = true.
Proof. vm_compute. reflexivity. Qed.

Lemma no_empty_extension_key : lookupExtension extensionMap [] = None.
Proof. vm_compute. reflexivity. Qed.

(** X8. For readable content of two bytes or more the signature decides
    before the extension: when a signature matches, type, category and
    description are the signature's, whatever the extension says; only
    when none matches does the extension table decide, and with no
    entry there the record stays Unknown. *)
Theorem signature_before_extension
    (toLowerCase : jsstring -> jsstring) (file : File.t) (bytes : list byte) :
  File.content file = inr bytes -> 2 <= length bytes ->
  let r := fst (analyzeFile toLowerCase file) in
  match matchMagic magicDatabase (bytesToHex (take 64 bytes)) with
  | Some sig =>
      Result.type r = sig_type sig /\ Result.category r = sig_category sig /\
      Result.description r = sig_description sig
  | None =>
      match lookupExtension extensionMap
              (getFileExtension toLowerCase (File.name file)) with
      | Some fallback =>
          Result.type r = fb_type fallback /\
          Result.category r = fb_category fallback /\
          Result.description r = fb_description fallback
      | None =>
          Result.type r = "Unknown" /\ Result.category r = "Unknown" /\
          Result.description r = "Unrecognized file type"
      end
  end.
Proof.
  intros Hc Hlen. cbv zeta. rewrite (analyzeFile_long _ _ _ Hc Hlen). cbn [fst].
  unfold scored.
  destruct (matchMagic magicDatabase (bytesToHex (take 64 bytes))) as [sig|] eqn:Hm.
  - apply matchMagic_In in Hm as [Hin _].
    pose proof no_signature_named_Unknown as Hall.
    rewrite forallb_forall in Hall. specialize (Hall sig Hin).
    apply negb_true_iff in Hall.
    unfold applySignature, applyFallback.
    destruct (mismatchFor sig _); cbn [Result.type setType setExtensionMismatch
      setEntropy setHexPreview Result.actualExtension];
      rewrite Hall; simpl; auto.
  - unfold applySignature, applyFallback.
    cbn [Result.type Result.actualExtension setEntropy setHexPreview initialResult].
    replace (bool_decide ("Unknown" = "Unknown")) with true by reflexivity.
    cbn [andb].
    destruct (getFileExtension toLowerCase (File.name file)) as [|c ext] eqn:He.
    + cbn [truthy]. rewrite no_empty_extension_key. simpl. auto.
    + cbn [truthy]. unfold bind, invoke. cbn [fst snd].
      destruct (lookupExtension extensionMap (c :: ext)); simpl; auto.
Qed.

Lemma signature_before_extension_witness :
  let r := fst (analyzeFile asciiLowerCase (pngHeaderFile "notes.txt")) in
  Result.type r = "PNG" /\ Result.category r = "Image" /\
  Result.description r = "Portable Network Graphics".
Proof.
  apply (signature_before_extension asciiLowerCase (pngHeaderFile "notes.txt")
           [x89; x50; x4e; x47] eq_refl).
  simpl. lia.
Defined.

Lemma substring_bytesToHex (n : nat) (bytes : list byte) :
  String.substring 0 (2 * n) (bytesToHex bytes) = bytesToHex (take n bytes).
Proof.
  revert bytes. induction n as [|n IH]; intros bytes.
  - simpl. now destruct (bytesToHex bytes).
  - destruct bytes as [|b bytes]; [reflexivity|].
    replace (2 * S n) with (S (S (2 * n))) by lia.
    change (bytesToHex (b :: bytes)) with (byteToHex b ++ bytesToHex bytes).
    change (take (S n) (b :: bytes)) with (b :: take n bytes).
    change (bytesToHex (b :: take n bytes))
      with (byteToHex b ++ bytesToHex (take n bytes)).
    rewrite <- IH. reflexivity.
Qed.

(** X9. The hex preview of a record shows the first 32 bytes of the
    content, two hex digits each: [hexPreview] is the first 64
    characters of the rendering of the first 64 bytes. *)
Theorem hexPreview_first_32_bytes
    (toLowerCase : jsstring -> jsstring) (file : File.t) (bytes : list byte) :
  File.content file = inr bytes -> 2 <= length bytes ->
  Result.hexPreview (fst (analyzeFile toLowerCase file)) = bytesToHex (take 32 bytes).
Proof.
  intros Hc Hlen. rewrite (analyzeFile_long _ _ _ Hc Hlen). cbn [fst].
  assert (Hkeep : forall r, Result.hexPreview (fst (applyFallback r)) = Result.hexPreview r).
  { intros r. unfold applyFallback.
    destruct (bool_decide _ && truthy _); [|reflexivity].
    unfold bind, invoke. cbn [fst snd].
    now destruct (lookupExtension extensionMap (Result.actualExtension r)). }
  rewrite Hkeep. unfold scored, applySignature.
  assert (Hp : String.substring 0 64 (bytesToHex (take 64 bytes)) =
               bytesToHex (take 32 bytes)).
  { pose proof (substring_bytesToHex 32 (take 64 bytes)) as H.
    rewrite take_take in H. exact H. }
  destruct (matchMagic magicDatabase (bytesToHex (take 64 bytes))) as [sig|];
    [destruct (mismatchFor sig _)|]; simpl; exact Hp.
Qed.

Lemma hexPreview_first_32_bytes_witness :
  Result.hexPreview (fst (analyzeFile asciiLowerCase (pngHeaderFile "a.png")))
    = "89504E47".
Proof.
  rewrite (hexPreview_first_32_bytes asciiLowerCase (pngHeaderFile "a.png")
             [x89; x50; x4e; x47] eq_refl); [reflexivity | simpl; lia].
Defined.


(* ================================================================== *)
(** * Further properties: entropy                                      *)
(* ================================================================== *)

Lemma occ_Permutation (i : nat) (a b : list byte) :
  Permutation a b -> occ i a = occ i b.
Proof.
  induction 1 as [|x a b _ IH|x y a|a b c _ IH1 _ IH2]; simpl; lia.
Qed.

(** X11. The entropy depends on how often each byte value occurs, not on
    where: reordering the bytes leaves it unchanged. *)
Theorem entropy_order_independent (a b : list byte) :
  Permutation a b -> calculateEntropy a = calculateEntropy b.
Proof.
  intros Hp. unfold calculateEntropy.
  rewrite (Permutation_length Hp), !histogram_occ.
  replace (map (fun i => occ i a) (seq 0 256))
    with (map (fun i => occ i b) (seq 0 256)); [reflexivity|].
  apply map_ext. intros i. symmetry. now apply occ_Permutation.
Qed.

Lemma entropy_order_independent_witness :
  calculateEntropy [x01; x02; x01] = calculateEntropy [x01; x01; x02].
Proof.
  apply (entropy_order_independent [x01; x02; x01] [x01; x01; x02]).
  apply perm_skip, perm_swap.
Defined.

Section UniformEntropy.

#[local] Open Scope R_scope.

Lemma plogp_uniform (k : nat) :
  (0 < k)%nat -> plogp (256 * k) k = - (8 / 256).
Proof.
  intros Hk. unfold plogp.
  destruct (Nat.ltb_spec 0 k) as [_|H]; [|lia].
  assert (HkR : 0 < INR k) by (apply lt_0_INR; lia).
  rewrite mult_INR. replace (INR 256) with 256 by (simpl; lra).
  replace (INR k / (256 * INR k)) with (/ 256) by (field; lra).
  unfold log2. rewrite ln_Rinv by lra. rewrite ln_256.
  pose proof ln2_pos. field. lra.
Qed.

Lemma Rsum_constant (c : R) (l : list R) :
  Forall (eq c) l -> Rsum l = INR (length l) * c.
Proof.
  induction 1 as [|x l <- _ IH].
  - simpl. lra.
  - cbn [Rsum fold_right length]. fold (Rsum l). rewrite IH, S_INR. lra.
Qed.

Lemma sum_list_constant (k : nat) (l : list nat) :
  sum_list (map (fun _ : nat => k) l) = (length l * k)%nat.
Proof. induction l as [|x l IH]; simpl; [reflexivity | rewrite IH; lia]. Qed.

Lemma histogram_uniform (bytes : list byte) (k : nat) :
  (forall i, (i < 256)%nat -> occ i bytes = k) ->
  histogram bytes = map (fun _ : nat => k) (seq 0 256).
Proof.
  intros Hocc. rewrite histogram_occ. apply map_ext_in.
  intros i Hi. apply Hocc. apply in_seq in Hi. lia.
Qed.

Lemma entropy_uniform (bytes : list byte) (k : nat) :
  (0 < k)%nat -> (forall i, (i < 256)%nat -> occ i bytes = k) ->
  calculateEntropy bytes = 8.
Proof.
  intros Hk Hocc.
  pose proof (histogram_uniform bytes k Hocc) as Hh.
  assert (Hlen : length bytes = (256 * k)%nat).
  { rewrite <- (occ_sum bytes), <- histogram_occ, Hh, sum_list_constant, length_seq.
    reflexivity. }
  rewrite calculateEntropy_sum by (intros ->; simpl in Hlen; lia).
  rewrite Hh, Hlen, map_map.
  rewrite (Rsum_constant (- (8 / 256))).
  - rewrite length_map, length_seq. replace (INR 256) with 256 by (simpl; lra). lra.
  - apply Forall_forall. intros x Hx.
    apply list_elem_of_In, in_map_iff in Hx as (i & <- & _).
    symmetry. now apply plogp_uniform.
Qed.

End UniformEntropy.

(** X12. The upper bound is reached: a sequence in which each of the 256
    byte values occurs equally often, for instance every value once, has
    entropy exactly 8. *)
Theorem entropy_of_equidistributed_bytes (bytes : list byte) (k : nat) :
  0 < k -> (forall i, i < 256 -> occ i bytes = k) ->
  calculateEntropy bytes = 8%R.
Proof. apply entropy_uniform. Qed.

Lemma entropy_of_equidistributed_bytes_witness :
  calculateEntropy (omap Byte.of_nat (seq 0 256)) = 8%R.
Proof.
  apply (entropy_of_equidistributed_bytes (omap Byte.of_nat (seq 0 256)) 1).
  - lia.
  - assert (Hall : forallb (fun i => occ i (omap Byte.of_nat (seq 0 256)) =? 1)
                     (seq 0 256) = true) by (vm_compute; reflexivity).
    rewrite forallb_forall in Hall.
    intros i Hi. apply Nat.eqb_eq, Hall, in_seq. lia.
Defined.

(* ================================================================== *)
(** * Further properties: the scheduler                                *)
(* ================================================================== *)

Section SchedulerMore.

Variables Item Result : Type.

Implicit Types q : DynamicTaskQueue Item Result.

Lemma pushTime_length (duration : Q) (times : list Q) :
  length times <= 50 ->
  length (pushTime duration times) = Nat.min 50 (S (length times)).
Proof.
  intros H. unfold pushTime. cbv zeta.
  destruct (Nat.ltb_spec 50 (length (times ++ [duration]))) as [Hlt|Hge];
    rewrite ?length_drop, length_app in *; cbn [length] in *; lia.
Qed.

(** What one turn does to the results and to the latency window. *)
Lemma settle_times (s : Settlement Result) q q' :
  paused q = false -> settle s q = Some q' ->
  exists item startStr,
    pending q !! index s = Some (item, startStr) /\
    match outcome s with
    | Fulfilled r =>
        results q' = (results q ++ [r])%list /\
        times q' = pushTime (at_time s - startStr)%Q (times q)
    | Rejected => results q' = results q /\ times q' = times q
    end.
Proof.
  intros Hp Hs. unfold settle in Hs.
  destruct (pending q !! index s) as [[item startStr]|] eqn:Hl; [|discriminate].
  injection Hs as <-. exists item, startStr. split; [reflexivity|].
  destruct (outcome s) as [r|].
  - unfold onFulfilled. cbv zeta.
    match goal with
    | |- context [process ?n ?x] =>
        destruct (process_spec Item Result n x) as (_ & -> & _ & _ & _ & _ & -> & _)
    end.
    + cbn [removePending paused]. destruct (onProgress _); exact Hp.
    + destruct (onProgress _); split; reflexivity.
  - unfold onRejected. cbv zeta.
    match goal with
    | |- context [process ?n ?x] =>
        destruct (process_spec Item Result n x) as (_ & -> & _ & _ & _ & _ & -> & _)
    end.
    + exact Hp.
    + split; reflexivity.
Qed.

Lemma run_window (schedule : list (Settlement Result)) q q' :
  paused q = false ->
  length (times q) = Nat.min 50 (length (results q)) ->
  run schedule q = Some q' ->
  length (times q') = Nat.min 50 (length (results q')).
Proof.
  revert q. induction schedule as [|s schedule IH]; intros q Hp Hw Hr; simpl in Hr.
  - now injection Hr as <-.
  - destruct (settle s q) as [q1|] eqn:Hs; [|discriminate].
    apply (IH q1); [| |exact Hr].
    + destruct (run_paused Item Result [s] q q1 Hp) as [H _]; [|exact H].
      simpl. now rewrite Hs.
    + destruct (settle_times s q q1 Hp Hs) as (item & startStr & _ & H).
      destruct (outcome s) as [r|]; destruct H as [-> ->].
      * rewrite pushTime_length by lia. rewrite length_app. cbn [length]. lia.
      * exact Hw.
Qed.

Lemma run_results (schedule : list (Settlement Result)) q q' :
  paused q = false -> run schedule q = Some q' ->
  results q' = (results q ++ fulfilledResults schedule)%list.
Proof.
  revert q. induction schedule as [|s schedule IH]; intros q Hp Hr; simpl in Hr.
  - injection Hr as <-. now rewrite app_nil_r.
  - destruct (settle s q) as [q1|] eqn:Hs; [|discriminate].
    destruct (run_paused Item Result [s] q q1 Hp) as (Hp1 & _);
      [simpl; now rewrite Hs|].
    rewrite (IH q1 Hp1 Hr).
    destruct (settle_times s q q1 Hp Hs) as (item & startStr & _ & H).
    simpl. destruct (outcome s) as [r|]; destruct H as [-> _];
      [now rewrite <- app_assoc | reflexivity].
Qed.

Lemma handlerItems_app (t1 t2 : list (Observation Item Result)) :
  handlerItems (t1 ++ t2) = (handlerItems t1 ++ handlerItems t2)%list.
Proof.
  induction t1 as [|o t1 IH]; simpl; [reflexivity|].
  destruct (event o); simpl; now rewrite IH.
Qed.

Lemma progressCompleted_app (t1 t2 : list (Observation Item Result)) :
  progressCompleted (t1 ++ t2) = (progressCompleted t1 ++ progressCompleted t2)%list.
Proof.
  induction t1 as [|o t1 IH]; simpl; [reflexivity|].
  destruct (event o); simpl; now rewrite IH.
Qed.

Lemma completion_silent q :
  handlerItems (completion q) = [] /\ progressCompleted (completion q) = [].
Proof. unfold completion. now destruct (_ && _ && _). Qed.

Lemma noticeOf_no_handler (s : Settlement Result) (startStr : Q) q :
  handlerItems (noticeOf s startStr q) = [].
Proof. unfold noticeOf. destruct (outcome s); [destruct (onProgress q)|]; reflexivity. Qed.

Lemma handlerCalls_no_progress lo hi (t : list (Observation Item Result)) :
  handlerCalls lo hi t -> progressCompleted t = [].
Proof.
  induction 1 as [|o t [Ho _] _ IH]; [reflexivity|].
  cbn [progressCompleted]. rewrite IH.
  unfold isHandlerCall in Ho. now destruct (event o).
Qed.

(** The [while] loop calls the handler with the items it takes from the
    head of the queue, in order. *)
Lemma fill_order (now : Q) (items : list Item) q :
  queue q = items ->
  (handlerItems (trace (fill now items q)) ++ queue (fill now items q))%list =
  (handlerItems (trace q) ++ items)%list.
Proof.
  revert q. induction items as [|item rest IH]; intros q Hq; cbn [fill].
  - now rewrite Hq.
  - destruct (activeCount q <? concurrency q)%Z.
    + rewrite (IH (dispatch now item rest q) eq_refl).
      cbn [dispatch observe trace]. rewrite handlerItems_app. simpl.
      now rewrite <- app_assoc.
    + now rewrite Hq.
Qed.

Lemma process_order (now : Q) q :
  (handlerItems (trace (process now q)) ++ queue (process now q))%list =
  (handlerItems (trace q) ++ queue q)%list.
Proof.
  unfold process. destruct (paused q); [reflexivity|]. cbv zeta.
  pose proof (fill_order now (queue q) q eq_refl) as H.
  destruct (_ && _ && _); [|exact H].
  cbn [observe trace queue]. rewrite handlerItems_app. simpl.
  now rewrite app_nil_r.
Qed.

Lemma settle_order (s : Settlement Result) q q' :
  settle s q = Some q' ->
  (handlerItems (trace q') ++ queue q')%list =
  (handlerItems (trace q) ++ queue q)%list.
Proof.
  unfold settle. destruct (pending q !! index s) as [[item startStr]|]; [|discriminate].
  intros H. injection H as <-.
  destruct (outcome s) as [r|].
  - unfold onFulfilled. cbv zeta. rewrite process_order.
    cbn [removePending onProgress]. destruct (onProgress q);
      cbn [observe trace queue]; rewrite ?handlerItems_app; simpl;
      now rewrite ?app_nil_r.
  - unfold onRejected. cbv zeta. rewrite process_order.
    cbn [removePending observe trace queue]. rewrite handlerItems_app. simpl.
    now rewrite app_nil_r.
Qed.

Lemma run_order (schedule : list (Settlement Result)) q q' :
  run schedule q = Some q' ->
  (handlerItems (trace q') ++ queue q')%list =
  (handlerItems (trace q) ++ queue q)%list.
Proof.
  revert q. induction schedule as [|s schedule IH]; intros q Hr; simpl in Hr.
  - now injection Hr as <-.
  - destruct (settle s q) as [q1|] eqn:Hs; [|discriminate].
    rewrite (IH q1 Hr). exact (settle_order s q q1 Hs).
Qed.

Lemma batch_order (K : Z) (progress complete : bool) (items : list Item) (now : Q) :
  let q : DynamicTaskQueue Item Result := batch K progress complete items now in
  (handlerItems (trace q) ++ queue q)%list = items.
Proof. cbv zeta. unfold batch, start. now rewrite process_order. Qed.

Lemma run_progress (schedule : list (Settlement Result)) q q' :
  paused q = false -> onProgress q = true ->
  progressCompleted (trace q) = seq 1 (length (results q)) ->
  run schedule q = Some q' ->
  progressCompleted (trace q') = seq 1 (length (results q')).
Proof.
  revert q. induction schedule as [|s schedule IH]; intros q Hp Hon Hq Hr; simpl in Hr.
  - now injection Hr as <-.
  - destruct (settle s q) as [q1|] eqn:Hs; [|discriminate].
    destruct (run_paused Item Result [s] q q1 Hp) as (Hp1 & Hon1 & _);
      [simpl; now rewrite Hs|].
    apply (IH q1); [exact Hp1 | congruence | | exact Hr].
    destruct (settle_spec Item Result s q q1 Hp Hs)
      as (item & startStr & started & added & Hlk & _ & _ & _ & _ & _ & _ & _ &
          _ & Hres & Htr & Hcalls & _).
    rewrite Htr, Hres, !progressCompleted_app, Hq.
    rewrite (handlerCalls_no_progress _ _ _ Hcalls).
    destruct (completion_silent q1) as [_ ->].
    rewrite !app_nil_r, length_app.
    unfold noticeOf, resultOf. destruct (outcome s) as [r|].
    + rewrite Hon. cbn [progressCompleted event completed length].
      rewrite length_app. simpl length. rewrite seq_app. simpl.
      now rewrite Nat.add_1_r.
    + simpl. now rewrite app_nil_r, Nat.add_0_r.
Qed.

End SchedulerMore.

(** X13. The latency window of a batch never holds more than 50
    durations: after any number of turns it holds one duration for each
    fulfilled task up to 50. *)
Theorem latency_window_bounded
    (Item Result : Type) (K : Z) (progress complete : bool)
    (items : list Item) (now : Q)
    (schedule : list (Settlement Result)) (q : DynamicTaskQueue Item Result) :
  run schedule (batch K progress complete items now) = Some q ->
  length (times q) = Nat.min 50 (length (fulfilledResults schedule)) /\
  length (times q) <= 50.
Proof.
  intros Hrun.
  pose proof (batch_paused Item Result K progress complete items now) as Hp.
  destruct (batch_fields Item Result K progress complete items now)
    as (_ & _ & _ & _ & Hres & _).
  assert (Htimes : times (batch (Result := Result) K progress complete items now) = []).
  { unfold batch, start.
    match goal with
    | |- context [process ?n ?x] =>
        destruct (process_spec Item Result n x eq_refl)
          as (_ & _ & _ & _ & _ & _ & -> & _)
    end. reflexivity. }
  pose proof (run_window Item Result schedule _ q Hp) as Hw.
  rewrite Htimes, Hres in Hw. specialize (Hw eq_refl Hrun).
  assert (Hq : results q = fulfilledResults schedule).
  { rewrite (run_results Item Result schedule _ q Hp Hrun), Hres. reflexivity. }
  rewrite Hq in Hw. split; [exact Hw | lia].
Qed.

Lemma latency_window_bounded_witness :
  exists q : DynamicTaskQueue nat nat,
    run [mkSettlement 0 (Fulfilled 7) 5%Q] (batch 2 true true [10; 20; 30] 0%Q) = Some q /\
    length (times q) = 1.
Proof.
  eexists. split; [vm_compute; reflexivity|].
  match goal with
  | |- length (times ?q) = 1 =>
      destruct (latency_window_bounded nat nat 2 true true [10; 20; 30] 0%Q
                  [mkSettlement 0 (Fulfilled 7) 5%Q] q) as [H _]
  end.
  - vm_compute; reflexivity.
  - exact H.
Defined.

(** X14. The handler is called with the items in the order they were
    added, each item once: at any point of a batch the items handed to
    the handler so far, followed by the items still queued, are the
    submitted items. *)
Theorem handler_called_in_submission_order
    (Item Result : Type) (K : Z) (progress complete : bool)
    (items : list Item) (now : Q)
    (schedule : list (Settlement Result)) (q : DynamicTaskQueue Item Result) :
  run schedule (batch K progress complete items now) = Some q ->
  (handlerItems (trace q) ++ queue q)%list = items.
Proof.
  intros Hrun. rewrite (run_order Item Result schedule _ q Hrun).
  apply batch_order.
Qed.

Lemma handler_called_in_submission_order_witness :
  exists q : DynamicTaskQueue nat nat,
    run [mkSettlement 1 (Fulfilled 7) 5%Q] (batch 2 true true [10; 20; 30] 0%Q) = Some q /\
    handlerItems (trace q) = [10; 20; 30] /\ queue q = [].
Proof.
  eexists. split; [vm_compute; reflexivity|].
  match goal with
  | |- handlerItems (trace ?q) = _ /\ _ =>
      pose proof (handler_called_in_submission_order nat nat 2 true true
                    [10; 20; 30] 0%Q [mkSettlement 1 (Fulfilled 7) 5%Q] q) as H
  end.
  split; [|reflexivity].
  rewrite <- H; [|vm_compute; reflexivity]. vm_compute. reflexivity.
Defined.

(** X15. The completed counts reported to [onProgress] are 1, 2, 3, ...:
    the k-th call reports k, one call for each fulfilled task, so the
    reported count never decreases and never repeats. *)
Theorem progress_counts_consecutive
    (Item Result : Type) (K : Z) (complete : bool)
    (items : list Item) (now : Q)
    (schedule : list (Settlement Result)) (q : DynamicTaskQueue Item Result) :
  run schedule (batch K true complete items now) = Some q ->
  progressCompleted (trace q) = seq 1 (length (fulfilledResults schedule)) /\
  length (results q) = length (fulfilledResults schedule).
Proof.
  intros Hrun.
  pose proof (batch_paused Item Result K true complete items now) as Hp.
  destruct (batch_fields Item Result K true complete items now)
    as (_ & Hon & _ & _ & Hres & _).
  assert (H0 : progressCompleted
                 (trace (batch (Result := Result) K true complete items now)) = []).
  { unfold batch, start.
    match goal with
    | |- context [process ?n ?x] =>
        destruct (process_spec Item Result n x eq_refl)
          as (_ & _ & _ & _ & _ & _ & _ & started & added & _ & _ & _ & -> & Hc & _)
    end.
    rewrite !progressCompleted_app, (handlerCalls_no_progress _ _ _ _ _ Hc).
    match goal with
    | |- context [completion ?x] =>
        destruct (completion_silent Item Result x) as [_ ->]
    end. reflexivity. }
  pose proof (run_progress Item Result schedule _ q Hp Hon) as Hseq.
  rewrite H0, Hres in Hseq. specialize (Hseq eq_refl Hrun).
  assert (Hq : results q = fulfilledResults schedule).
  { rewrite (run_results Item Result schedule _ q Hp Hrun), Hres. reflexivity. }
  rewrite Hq in Hseq. split; [exact Hseq | now rewrite Hq].
Qed.

Lemma progress_counts_consecutive_witness :
  exists q : DynamicTaskQueue nat nat,
    run [mkSettlement 1 (Fulfilled 7) 5%Q; mkSettlement 0 Rejected 6%Q;
         mkSettlement 0 (Fulfilled 9) 8%Q]
        (batch 2 true true [10; 20; 30] 0%Q) = Some q /\
    progressCompleted (trace q) = [1; 2].
Proof.
  eexists. split; [vm_compute; reflexivity|].
  match goal with
  | |- progressCompleted (trace ?q) = _ =>
      destruct (progress_counts_consecutive nat nat 2 true [10; 20; 30] 0%Q
                  [mkSettlement 1 (Fulfilled 7) 5%Q; mkSettlement 0 Rejected 6%Q;
                   mkSettlement 0 (Fulfilled 9) 8%Q] q) as [H _]
  end.
  - vm_compute; reflexivity.
  - exact H.
Defined.

(** X16. With a limit of 0 or less and at least one item nothing ever
    happens: [start] calls no handler, no promise is pending, so no turn
    can follow and [onComplete] is never called. *)
Theorem nonpositive_limit_stalls
    (Item Result : Type) (K : Z) (progress complete : bool)
    (items : list Item) (now : Q)
    (schedule : list (Settlement Result)) (q : DynamicTaskQueue Item Result) :
  (K <= 0)%Z -> items <> [] ->
  run schedule (batch K progress complete items now) = Some q ->
  schedule = [] /\ trace q = [] /\ pending q = [] /\ queue q = items.
Proof.
  intros HK Hne.
  assert (Hb : batch (Result := Result) K progress complete items now =
               {| concurrency := K; queue := items; activeCount := 0;
                  results := []; onProgress := progress; onComplete := complete;
                  paused := false; times := []; startTime := now;
                  totalTasks := length items; pending := []; trace := [] |}).
  { unfold batch, start, process, add, installCallbacks, constructor.
    cbn [paused queue app]. destruct items as [|item rest]; [congruence|].
    cbn [fill activeCount concurrency].
    destruct (Z.ltb_spec 0 K); [lia|]. reflexivity. }
  rewrite Hb. destruct schedule as [|s schedule]; simpl.
  - intros H. injection H as <-. auto.
  - unfold settle. cbn [pending]. discriminate.
Qed.

Lemma nonpositive_limit_stalls_witness :
  trace (batch (Result := nat) 0 true true [10; 20] 0%Q) = [].
Proof.
  destruct (nonpositive_limit_stalls nat nat 0 true true [10; 20] 0%Q []
              (batch 0 true true [10; 20] 0%Q)) as (_ & H & _).
  - lia.
  - discriminate.
  - reflexivity.
  - exact H.
Defined.

(* ================================================================== *)
(** * Further properties: the concurrency profile                      *)
(* ================================================================== *)

Lemma analysisConcurrency_cases (sizes : list nat) (K : Z) :
  analysisConcurrency sizes = Some K ->
  sizes <> [] /\
  ((K = 128%Z /\ (averageSize sizes < 1024 * 1024)%Q) \/
   (K = 32%Z /\ (1024 * 1024 <= averageSize sizes)%Q /\
               (averageSize sizes <= 50 * 1024 * 1024)%Q) \/
   (K = 4%Z /\ (50 * 1024 * 1024 < averageSize sizes)%Q)).
Proof.
  unfold analysisConcurrency.
  destruct sizes as [|x sizes]; [discriminate|]. cbn [length Nat.eqb]. cbv zeta.
  intros H. split; [discriminate|].
  destruct (Qlt_le_dec (averageSize (x :: sizes)) (1024 * 1024)) as [H1|H1].
  - injection H as <-. left. auto.
  - destruct (Qlt_le_dec (50 * 1024 * 1024) (averageSize (x :: sizes))) as [H2|H2];
      injection H as <-.
    + right. right. auto.
    + right. left. auto.
Qed.

(** X17. For a batch that is not empty [analyzeFiles] runs its queue with
    a limit of 128, 32 or 4, so with at least 1; and a batch with a
    larger average file size never gets a larger limit. *)
Theorem analysis_limit_profile :
  (forall sizes, sizes <> [] ->
     exists K, analysisConcurrency sizes = Some K /\
               (K = 128 \/ K = 32 \/ K = 4)%Z /\ (1 <= K)%Z) /\
  (forall sizes1 sizes2 K1 K2,
     analysisConcurrency sizes1 = Some K1 ->
     analysisConcurrency sizes2 = Some K2 ->
     (averageSize sizes1 <= averageSize sizes2)%Q ->
     (K2 <= K1)%Z).
Proof.
  split.
  - intros sizes Hne.
    destruct (analysisConcurrency sizes) as [K|] eqn:E.
    + exists K. split; [reflexivity|].
      apply analysisConcurrency_cases in E as [_ [[-> _]|[[-> _]|[-> _]]]];
        split; auto; lia.
    + exfalso. unfold analysisConcurrency in E.
      destruct sizes as [|x sizes]; [congruence|]. cbn [length Nat.eqb] in E.
      cbv zeta in E.
      destruct (Qlt_le_dec _ _); [discriminate|].
      destruct (Qlt_le_dec _ _); discriminate.
  - intros sizes1 sizes2 K1 K2 H1 H2 Havg.
    apply analysisConcurrency_cases in H1 as [_ H1].
    apply analysisConcurrency_cases in H2 as [_ H2].
    assert (Hlt : (1024 * 1024 < 50 * 1024 * 1024)%Q) by reflexivity.
    destruct H1 as [[-> A1]|[[-> [A1 B1]]|[-> A1]]];
      destruct H2 as [[-> A2]|[[-> [A2 B2]]|[-> A2]]]; try lia; exfalso.
    + apply (Qlt_irrefl (averageSize sizes1)).
      eapply Qle_lt_trans; [exact Havg|]. eapply Qlt_le_trans; [exact A2|exact A1].
    + apply (Qlt_irrefl (averageSize sizes1)).
      eapply Qle_lt_trans; [exact Havg|]. eapply Qlt_trans; [exact A2|].
      eapply Qlt_trans; [exact Hlt|exact A1].
    + apply (Qlt_irrefl (averageSize sizes1)).
      eapply Qle_lt_trans; [exact Havg|]. eapply Qle_lt_trans; [exact B2|exact A1].
Qed.

(* ================================================================== *)
(** * Further properties: the names given to the organized files       *)
(* ================================================================== *)

Lemma replaceIllegal_legal (s : jsstring) :
  Forall (fun c => illegalUnit c = false) (replaceIllegal s).
Proof.
  unfold replaceIllegal. induction s as [|c s IH]; simpl; constructor; auto.
  destruct (illegalUnit c) eqn:E; [reflexivity|exact E].
Qed.

Lemma dropDots_suffix (s : jsstring) : exists pre, s = (pre ++ dropDots s)%list.
Proof.
  induction s as [|c s [pre IH]]; simpl.
  - exists []. reflexivity.
  - destruct (N.eqb c dot).
    + exists (c :: pre). simpl. now rewrite <- IH.
    + exists []. reflexivity.
Qed.

Lemma dropDots_head (s : jsstring) : head (dropDots s) <> Some dot.
Proof.
  induction s as [|c s IH]; simpl; [discriminate|].
  destruct (N.eqb_spec c dot) as [->|Hne]; [exact IH|].
  simpl. intros [= E]. contradiction.
Qed.

Lemma replaceLeadingDots_legal (s : jsstring) :
  Forall (fun c => illegalUnit c = false) s ->
  Forall (fun c => illegalUnit c = false) (replaceLeadingDots s).
Proof.
  intros H. unfold replaceLeadingDots. destruct s as [|c s]; [constructor|].
  destruct (N.eqb c dot); [|exact H].
  constructor; [reflexivity|].
  destruct (dropDots_suffix (c :: s)) as [pre E].
  rewrite E in H. apply Forall_app in H. apply H.
Qed.

Lemma replaceLeadingDots_head (s : jsstring) :
  head (replaceLeadingDots s) <> Some dot.
Proof.
  unfold replaceLeadingDots. destruct s as [|c s]; [discriminate|].
  destruct (N.eqb_spec c dot) as [->|Hne]; simpl.
  - discriminate.
  - intros [= E]. contradiction.
Qed.

Lemma replaceLeadingDots_id (s : jsstring) :
  head s <> Some dot -> replaceLeadingDots s = s.
Proof.
  unfold replaceLeadingDots. destruct s as [|c s]; [reflexivity|].
  destruct (N.eqb_spec c dot) as [->|Hne]; simpl; [congruence|reflexivity].
Qed.

Lemma replaceIllegal_id (s : jsstring) :
  Forall (fun c => illegalUnit c = false) s -> replaceIllegal s = s.
Proof.
  unfold replaceIllegal. induction 1 as [|c s Hc _ IH]; simpl; [reflexivity|].
  now rewrite Hc, IH.
Qed.

Lemma head_take {A} (n : nat) (l : list A) : 0 < n -> head (take n l) = head l.
Proof. destruct n; [lia|]. destruct l; reflexivity. Qed.

Lemma head_app_nonempty {A} (l l' : list A) : l <> [] -> head (l ++ l') = head l.
Proof. destruct l; [congruence|reflexivity]. Qed.

Lemma sanitize_facts (name : jsstring) :
  Forall (fun c => illegalUnit c = false) (sanitize name) /\
  length (sanitize name) <= 200 /\
  head (sanitize name) <> Some dot.
Proof.
  unfold sanitize, substring. change (Z.to_nat 200 - Z.to_nat 0) with 200.
  change (Z.to_nat 0) with 0. rewrite drop_0.
  split; [|split].
  - apply Forall_take, replaceLeadingDots_legal, replaceIllegal_legal.
  - rewrite length_take. lia.
  - rewrite head_take by lia. apply replaceLeadingDots_head.
Qed.

Lemma isBlank_app (a b : jsstring) : isBlank (a ++ b) = isBlank a && isBlank b.
Proof. apply forallb_app. Qed.

Lemma safeNameOf_legal (now : N) (name : jsstring) : legalName (safeNameOf now name).
Proof.
  unfold safeNameOf. cbv zeta.
  destruct (isBlank (sanitize name)) eqn:E.
  - split; [|split].
    + apply Forall_app. split.
      * apply Forall_forall. intros c Hc. apply list_elem_of_In in Hc.
        simpl in Hc. repeat (destruct Hc as [<-|Hc]; [reflexivity|]). contradiction.
      * eapply Forall_impl; [apply decimal_digits|].
        intros c Hc. cbv beta in Hc. unfold illegalUnit.
        apply orb_false_intro; [apply N.leb_gt; lia|].
        apply bool_decide_eq_false. intros Hin. apply list_elem_of_In in Hin.
        simpl in Hin. repeat (destruct Hin as [<-|Hin]; [lia|]). contradiction.
    + reflexivity.
    + discriminate.
  - destruct (sanitize_facts name) as (H1 & _ & H3). split; [exact H1|]. split; assumption.
Qed.

Lemma suffixed_legal (safeName : jsstring) (counter : nat) :
  legalName safeName -> legalName (suffixed safeName counter).
Proof.
  intros (Hl & Hb & Hh).
  assert (Hne : safeName <> []) by (intros ->; discriminate).
  assert (Hdigits : Forall (fun c => illegalUnit c = false)
                      (decimal (N.of_nat counter))).
  { eapply Forall_impl; [apply decimal_digits|].
    intros c Hc. cbv beta in Hc. unfold illegalUnit.
    apply orb_false_intro; [apply N.leb_gt; lia|].
    apply bool_decide_eq_false. intros Hin. apply list_elem_of_In in Hin.
    simpl in Hin. repeat (destruct Hin as [<-|Hin]; [lia|]). contradiction. }
  unfold suffixed. cbv zeta.
  destruct (0 <? lastIndexOf dot safeName)%Z eqn:E.
  - apply Z.ltb_lt in E. unfold substring, substringFrom.
    change (Z.to_nat 0) with 0. rewrite drop_0, Nat.sub_0_r.
    set (n := Z.to_nat (lastIndexOf dot safeName)).
    assert (Hn : 0 < n) by (unfold n; lia).
    split; [|split].
    + repeat (apply Forall_app; split); auto using Forall_take, Forall_drop.
    + rewrite !isBlank_app. simpl. now rewrite andb_false_r.
    + rewrite head_app_nonempty.
      * now rewrite head_take.
      * destruct safeName; [congruence|]. destruct n; [lia|]. discriminate.
  - split; [|split].
    + repeat (apply Forall_app; split); auto.
    + rewrite isBlank_app, Hb. reflexivity.
    + now rewrite head_app_nonempty.
Qed.

Lemma attempt_legal (safeName : jsstring) (k : nat) :
  legalName safeName -> legalName (attempt safeName k).
Proof. destruct k; [auto|]. apply suffixed_legal. Qed.

Section NamesGiven.

Variable toLowerCase : jsstring -> jsstring.
Variable Blob : Type.

Lemma uniqueName_attempt (fuel : nat) folderSet (safeName final : jsstring) (k : nat) :
  uniqueName toLowerCase fuel folderSet safeName (attempt safeName k) (S k)
    = Some final ->
  exists m, k <= m /\ final = attempt safeName m /\
            (forall i, k <= i < m -> toLowerCase (attempt safeName i) ∈ folderSet).
Proof.
  revert k. induction fuel as [|fuel IH]; intros k; simpl; [discriminate|].
  destruct (bool_decide (toLowerCase (attempt safeName k) ∈ folderSet)) eqn:E.
  - intros H. apply bool_decide_eq_true in E.
    destruct (IH (S k) H) as (m & Hm & -> & Hin).
    exists m. split; [lia|]. split; [reflexivity|].
    intros i Hi. destruct (Nat.eq_dec i k) as [->|Hne]; [exact E|].
    apply Hin. lia.
  - intros [= <-]. exists k. split; [lia|]. split; [reflexivity|]. intros i Hi. lia.
Qed.

Lemma resolveJob_resolved (currentFileData : gmap jsstring Blob) (now : N)
    (jobs : list WriteJob) (job : WriteJob) st st' :
  In job jobs ->
  Forall (Resolved currentFileData jobs) (readyJobs st) ->
  resolveJob toLowerCase currentFileData now job st = Some st' ->
  Forall (Resolved currentFileData jobs) (readyJobs st').
Proof.
  intros Hin Hst. unfold resolveJob.
  destruct (currentFileData !! fileInfo_name job) as [file|] eqn:Hfile.
  - cbv zeta.
    destruct (uniqueName _ _ _ _ _ _) as [final|] eqn:Hu; [|discriminate].
    intros [= <-]. cbn [readyJobs]. apply Forall_app. split; [exact Hst|].
    constructor; [|constructor].
    apply (uniqueName_attempt _ _ _ _ 0) in Hu as (m & _ & -> & _).
    split.
    + cbn [finalName]. apply attempt_legal, safeNameOf_legal.
    + exists job, now, m. cbn [finalName ready_folderName fileBlob]. auto.
  - intros [= <-]. exact Hst.
Qed.

Lemma resolveFrom_resolved (currentFileData : gmap jsstring Blob)
    (clock : nat -> N) (all jobs : list WriteJob) (i : nat) st st' :
  (forall job, In job jobs -> In job all) ->
  Forall (Resolved currentFileData all) (readyJobs st) ->
  resolveFrom toLowerCase currentFileData clock i jobs st = Some st' ->
  Forall (Resolved currentFileData all) (readyJobs st').
Proof.
  revert i st. induction jobs as [|job rest IH]; intros i st Hsub Hst; simpl.
  - now intros [= <-].
  - destruct (resolveJob toLowerCase currentFileData (clock i) job st)
      as [st1|] eqn:E; [|discriminate].
    apply IH.
    + intros j Hj. apply Hsub. now right.
    + eapply resolveJob_resolved; [|exact Hst|exact E]. apply Hsub. now left.
Qed.

Lemma resolveJob_skips (currentFileData : gmap jsstring Blob) (now : N)
    (job : WriteJob) st :
  currentFileData !! fileInfo_name job = None ->
  resolveJob toLowerCase currentFileData now job st = Some st.
Proof. intros H. unfold resolveJob. now rewrite H. Qed.

Lemma resolveFrom_clock_ext (currentFileData : gmap jsstring Blob)
    (clock clock' : nat -> N) (jobs : list WriteJob) (i j : nat) st :
  (forall n, clock (i + n) = clock' (j + n)) ->
  resolveFrom toLowerCase currentFileData clock i jobs st =
  resolveFrom toLowerCase currentFileData clock' j jobs st.
Proof.
  revert i j st. induction jobs as [|job rest IH]; intros i j st H; simpl;
    [reflexivity|].
  pose proof (H 0) as H0. rewrite !Nat.add_0_r in H0. rewrite H0.
  destruct (resolveJob _ _ _ _ _) as [st1|]; [|reflexivity].
  apply IH. intros n. specialize (H (S n)).
  replace (S i + n) with (i + S n) by lia.
  now replace (S j + n) with (j + S n) by lia.
Qed.

Lemma resolveFrom_skip (currentFileData : gmap jsstring Blob)
    (clock clock' : nat -> N) (before after : list WriteJob) (job : WriteJob)
    (i : nat) st :
  currentFileData !! fileInfo_name job = None ->
  (forall n, n < length before -> clock' (i + n) = clock (i + n)) ->
  (forall n, length before <= n -> clock' (i + n) = clock (S (i + n))) ->
  resolveFrom toLowerCase currentFileData clock i (before ++ job :: after) st =
  resolveFrom toLowerCase currentFileData clock' i (before ++ after) st.
Proof.
  intros Hmissing. revert i st.
  induction before as [|b before IH]; intros i st H1 H2.
  - cbn [app resolveFrom]. rewrite (resolveJob_skips _ _ _ _ Hmissing).
    apply resolveFrom_clock_ext. intros n. cbn [Nat.add].
    symmetry. apply H2. simpl. lia.
  - cbn [app resolveFrom].
    pose proof (H1 0) as H0. rewrite !Nat.add_0_r in H0. rewrite H0 by (simpl; lia).
    destruct (resolveJob _ _ _ _ _) as [st1|]; [|reflexivity].
    apply IH.
    + intros n Hn. replace (S i + n) with (i + S n) by lia. apply H1. simpl. lia.
    + intros n Hn. replace (S i + n) with (i + S n) by lia. apply H2. simpl. lia.
Qed.

End NamesGiven.

(** X18. The sanitized name holds none of the characters the first
    [replace] removes, has at most 200 code units and does not begin
    with a dot; and sanitizing a sanitized name changes nothing. *)
Theorem sanitize_safe_and_idempotent (name : jsstring) :
  Forall (fun c => illegalUnit c = false) (sanitize name) /\
  length (sanitize name) <= 200 /\
  head (sanitize name) <> Some dot /\
  sanitize (sanitize name) = sanitize name.
Proof.
  destruct (sanitize_facts name) as (H1 & H2 & H3).
  split; [exact H1|]. split; [exact H2|]. split; [exact H3|].
  unfold sanitize at 1.
  rewrite replaceIllegal_id by exact H1.
  rewrite replaceLeadingDots_id by exact H3.
  unfold substring. change (Z.to_nat 200 - Z.to_nat 0) with 200.
  change (Z.to_nat 0) with 0. rewrite drop_0. apply take_ge. exact H2.
Qed.

(** X19. Every name [organizeFiles] writes a file under is free of the
    characters the sanitizer removes, is not blank and does not begin
    with a dot; it is the sanitized name of one of the write jobs or that
    name with a counter, and the job carries that file's folder and
    data. *)
Theorem final_names_legal
    (toLowerCase : jsstring -> jsstring) (Blob : Type)
    (currentFileData : gmap jsstring Blob) (clock : nat -> N)
    (writeJobs : list WriteJob) (ready : list (ReadyJob Blob)) :
  resolveNames toLowerCase currentFileData clock writeJobs = Some ready ->
  Forall (fun r =>
            legalName (finalName r) /\
            exists job now k,
              In job writeJobs /\
              ready_folderName r = folderName job /\
              currentFileData !! fileInfo_name job = Some (fileBlob r) /\
              finalName r = attempt (safeNameOf now (fileInfo_name job)) k) ready.
Proof.
  unfold resolveNames.
  destruct (resolveFrom _ _ _ _ _ _) as [st|] eqn:E; [|discriminate].
  intros [= <-].
  apply (resolveFrom_resolved toLowerCase Blob currentFileData clock writeJobs
           writeJobs 0 (mkResolverState ∅ []) st); [auto|constructor|exact E].
Qed.

Lemma final_names_legal_witness :
  let jobs := [mkWriteJob (str "TXT") (str "..a<b.txt");
               mkWriteJob (str "TXT") (str "_a_b.txt")] in
  let files : gmap jsstring unit :=
    {[ str "..a<b.txt" := tt; str "_a_b.txt" := tt ]} in
  exists ready,
    resolveNames asciiLowerCase files (fun _ => 0%N) jobs = Some ready /\
    map finalName ready = [str "_a_b.txt"; str "_a_b_1.txt"] /\
    Forall (fun r => legalName (finalName r)) ready.
Proof.
  cbv zeta. eexists. split; [vm_compute; reflexivity|].
  split; [reflexivity|].
  eapply Forall_impl.
  - apply (final_names_legal asciiLowerCase unit
             {[ str "..a<b.txt" := tt; str "_a_b.txt" := tt ]} (fun _ => 0%N)
             [mkWriteJob (str "TXT") (str "..a<b.txt");
              mkWriteJob (str "TXT") (str "_a_b.txt")]).
    vm_compute; reflexivity.
  - intros r [H _]. exact H.
Defined.

(** X20. A write job whose file data is missing is passed over: the
    ready jobs are those of the list without it, the clock being read
    for the other jobs as before. *)
Theorem missing_data_skipped
    (toLowerCase : jsstring -> jsstring) (Blob : Type)
    (currentFileData : gmap jsstring Blob) (clock : nat -> N)
    (before after : list WriteJob) (job : WriteJob) :
  currentFileData !! fileInfo_name job = None ->
  resolveNames toLowerCase currentFileData clock (before ++ job :: after) =
  resolveNames toLowerCase currentFileData
    (fun i => if i <? length before then clock i else clock (S i))
    (before ++ after).
Proof.
  intros Hmissing. unfold resolveNames. f_equal.
  apply resolveFrom_skip; [exact Hmissing| |]; intros n Hn; cbn [Nat.add].
  - destruct (Nat.ltb_spec n (length before)); [reflexivity|lia].
  - destruct (Nat.ltb_spec n (length before)); [lia|reflexivity].
Qed.

Lemma missing_data_skipped_witness :
  let files : gmap jsstring unit := {[ str "a.txt" := tt ]} in
  resolveNames asciiLowerCase files (fun i => N.of_nat i)
    [mkWriteJob (str "TXT") (str "a.txt"); mkWriteJob (str "TXT") (str "gone.txt");
     mkWriteJob (str "TXT") (str "a.txt")] =
  resolveNames asciiLowerCase files
    (fun i => if i <? 1 then N.of_nat i else N.of_nat (S i))
    [mkWriteJob (str "TXT") (str "a.txt"); mkWriteJob (str "TXT") (str "a.txt")].
Proof.
  cbv zeta.
  apply (missing_data_skipped asciiLowerCase unit {[ str "a.txt" := tt ]}
           (fun i => N.of_nat i) [mkWriteJob (str "TXT") (str "a.txt")]
           [mkWriteJob (str "TXT") (str "a.txt")]
           (mkWriteJob (str "TXT") (str "gone.txt"))).
  vm_compute; reflexivity.
Defined.

(* ================================================================== *)
(** * Further properties: escaping for attributes                      *)
(* ================================================================== *)

Lemma replaceAll_app (c : N) (by_ a b : jsstring) :
  replaceAll c by_ (a ++ b) = (replaceAll c by_ a ++ replaceAll c by_ b)%list.
Proof. unfold replaceAll. apply flat_map_app. Qed.

Lemma replaceAll_flat_map (c : N) (by_ : jsstring) (f : N -> jsstring) (s : jsstring) :
  replaceAll c by_ (flat_map f s) = flat_map (fun x => replaceAll c by_ (f x)) s.
Proof.
  induction s as [|x s IH]; [reflexivity|].
  simpl. now rewrite replaceAll_app, IH.
Qed.

Lemma escapeAttr_unit (c : N) : escapeAttr [c] = escapeUnit c.
Proof.
  unfold escapeAttr, escapeUnit.
  unfold replaceAll at 5. cbn [flat_map]. rewrite app_nil_r.
  destruct (N.eqb_spec c ampersand) as [->|H1]; [reflexivity|].
  unfold replaceAll at 4. cbn [flat_map]. rewrite app_nil_r.
  destruct (N.eqb_spec c doubleQuote) as [->|H2]; [reflexivity|].
  unfold replaceAll at 3. cbn [flat_map]. rewrite app_nil_r.
  destruct (N.eqb_spec c apostrophe) as [->|H3]; [reflexivity|].
  unfold replaceAll at 2. cbn [flat_map]. rewrite app_nil_r.
  destruct (N.eqb_spec c lessThan) as [->|H4]; [reflexivity|].
  unfold replaceAll. cbn [flat_map]. rewrite app_nil_r.
  destruct (N.eqb_spec c greaterThan) as [->|H5]; reflexivity.
Qed.

Lemma escapeAttr_one_pass (text : jsstring) :
  escapeAttr text = flat_map escapeUnit text.
Proof.
  unfold escapeAttr.
  unfold replaceAll at 5. rewrite !replaceAll_flat_map.
  apply flat_map_ext. intros c. rewrite <- escapeAttr_unit.
  unfold escapeAttr.
  replace (replaceAll ampersand (str "&amp;") [c])
    with (if N.eqb c ampersand then str "&amp;" else [c]); [reflexivity|].
  unfold replaceAll. cbn [flat_map]. now rewrite app_nil_r.
Qed.

Lemma escapeUnit_clean (c : N) :
  Forall (fun x => breaksAttribute x = false) (escapeUnit c).
Proof.
  unfold escapeUnit.
  destruct (N.eqb_spec c ampersand); [repeat constructor|].
  destruct (N.eqb_spec c doubleQuote); [repeat constructor|].
  destruct (N.eqb_spec c apostrophe); [repeat constructor|].
  destruct (N.eqb_spec c lessThan); [repeat constructor|].
  destruct (N.eqb_spec c greaterThan); [repeat constructor|].
  constructor; [|constructor]. unfold breaksAttribute.
  repeat (apply orb_false_intro); now apply N.eqb_neq.
Qed.

Lemma escapeUnit_cancel (x y : N) (a b : jsstring) :
  (escapeUnit x ++ a = escapeUnit y ++ b)%list -> x = y /\ a = b.
Proof.
  unfold escapeUnit.
  destruct (N.eqb_spec x ampersand) as [->|X1];
    [|destruct (N.eqb_spec x doubleQuote) as [->|X2];
      [|destruct (N.eqb_spec x apostrophe) as [->|X3];
        [|destruct (N.eqb_spec x lessThan) as [->|X4];
          [|destruct (N.eqb_spec x greaterThan) as [->|X5]]]]];
  (destruct (N.eqb_spec y ampersand) as [->|Y1];
    [|destruct (N.eqb_spec y doubleQuote) as [->|Y2];
      [|destruct (N.eqb_spec y apostrophe) as [->|Y3];
        [|destruct (N.eqb_spec y lessThan) as [->|Y4];
          [|destruct (N.eqb_spec y greaterThan) as [->|Y5]]]]]);
  cbn; intros H; try discriminate H;
  try (injection H as H; subst; first [contradiction | split; reflexivity]).
Qed.

(** X21. [escapeAttr] works as one pass over the text: each character is
    replaced by its entity or kept, an entity is never escaped again, and
    the result holds no double quote, apostrophe, less-than or
    greater-than character. *)
Theorem escapeAttr_one_pass_and_clean (text : jsstring) :
  escapeAttr text = flat_map escapeUnit text /\
  Forall (fun c => breaksAttribute c = false) (escapeAttr text) /\
  (forall a b, escapeAttr (a ++ b) = (escapeAttr a ++ escapeAttr b)%list).
Proof.
  split; [apply escapeAttr_one_pass|]. split.
  - rewrite escapeAttr_one_pass. induction text as [|c text IH]; [constructor|].
    simpl. apply Forall_app. split; [apply escapeUnit_clean|exact IH].
  - intros a b. rewrite !escapeAttr_one_pass. apply flat_map_app.
Qed.

(** X22. Two texts with the same escaped form are the same text: the
    row attributes built with [escapeAttr] identify the file name. *)
Theorem escapeAttr_injective (a b : jsstring) :
  escapeAttr a = escapeAttr b -> a = b.
Proof.
  rewrite !escapeAttr_one_pass. revert b.
  induction a as [|x a IH]; intros [|y b] H.
  - reflexivity.
  - exfalso. simpl in H. unfold escapeUnit in H.
    repeat (destruct (N.eqb _ _); [discriminate H|]). discriminate H.
  - exfalso. simpl in H. unfold escapeUnit in H.
    repeat (destruct (N.eqb _ _); [discriminate H|]). discriminate H.
  - simpl in H. apply escapeUnit_cancel in H as [-> H]. f_equal. now apply IH.
Qed.

Lemma escapeAttr_injective_witness :
  escapeAttr (str "a<b") = escapeAttr [97; 60; 98]%N /\
  str "a<b" = [97; 60; 98]%N.
Proof.
  split; [reflexivity|].
  apply (escapeAttr_injective (str "a<b") [97; 60; 98]%N). reflexivity.
Defined.

(* ================================================================== *)
(** * Further properties: string extraction                            *)
(* ================================================================== *)

Lemma run_unique (r1 r2 p1 p2 : list byte) :
  (r1 ++ p1 = r2 ++ p2)%list ->
  forallb printable r1 = true -> forallb printable r2 = true ->
  (forall b, head p1 = Some b -> printable b = false) ->
  (forall b, head p2 = Some b -> printable b = false) ->
  r1 = r2 /\ p1 = p2.
Proof.
  revert r2. induction r1 as [|x r1 IH]; intros [|y r2] E H1 H2 N1 N2; simpl in *.
  - auto.
  - exfalso. subst p1. apply andb_prop in H2 as [Hy _].
    rewrite (N1 y eq_refl) in Hy. discriminate.
  - exfalso. subst p2. apply andb_prop in H1 as [Hx _].
    rewrite (N2 x eq_refl) in Hx. discriminate.
  - injection E as -> E. apply andb_prop in H1 as [_ H1]. apply andb_prop in H2 as [_ H2].
    destruct (IH r2 E H1 H2 N1 N2) as [-> ->]. auto.
Qed.

Lemma suffix_run_unique (pre1 run1 pre2 run2 : list byte) :
  (pre1 ++ run1 = pre2 ++ run2)%list ->
  forallb printable run1 = true -> forallb printable run2 = true ->
  (forall b, last pre1 = Some b -> printable b = false) ->
  (forall b, last pre2 = Some b -> printable b = false) ->
  pre1 = pre2 /\ run1 = run2.
Proof.
  intros E H1 H2 N1 N2.
  apply (f_equal reverse) in E. rewrite !reverse_app in E.
  destruct (run_unique (reverse run1) (reverse run2) (reverse pre1) (reverse pre2) E)
    as [Er Ep].
  - rewrite forallb_forall in *. intros b Hb. apply H1.
    apply list_elem_of_In. apply list_elem_of_In in Hb. now apply elem_of_reverse.
  - rewrite forallb_forall in *. intros b Hb. apply H2.
    apply list_elem_of_In. apply list_elem_of_In in Hb. now apply elem_of_reverse.
  - intros b. rewrite head_reverse. apply N1.
  - intros b. rewrite head_reverse. apply N2.
  - split; apply (inj reverse); assumption.
Qed.

Lemma LoopState_printable done i cur b :
  LoopState done i cur -> printable b = true ->
  LoopState (done ++ [b]) (i + 1) (cur ++ [Byte.to_N b]).
Proof.
  intros (-> & pre & run & -> & -> & Hr & Hp) Hb. split.
  - rewrite !length_app. simpl. lia.
  - exists pre, (run ++ [b])%list. split; [now rewrite <- app_assoc|].
    split; [now rewrite map_app|]. split; [|exact Hp].
    rewrite forallb_app, Hr. simpl. now rewrite Hb.
Qed.

Lemma LoopState_reset done i cur b :
  LoopState done i cur -> printable b = false ->
  LoopState (done ++ [b]) (i + 1) [].
Proof.
  intros (-> & _) Hb. split.
  - rewrite !length_app. simpl. lia.
  - exists (done ++ [b])%list, []. split; [now rewrite app_nil_r|].
    split; [reflexivity|]. split; [reflexivity|].
    intros b'. rewrite last_snoc. now intros [= <-].
Qed.

Lemma extractLoop_mono (minLength : Z) (rest : list byte) i strings cur strings' cur' :
  extractLoop minLength rest i strings cur = (strings', cur') ->
  forall e, In e strings -> In e strings'.
Proof.
  revert i strings cur. induction rest as [|b rest IH]; intros i strings cur; simpl.
  - now intros [= <- <-].
  - destruct (printable b).
    + apply IH.
    + intros H e He. apply (IH _ _ _ H).
      destruct (minLength <=? lengthZ cur)%Z; [|exact He].
      apply in_or_app. now left.
Qed.

Lemma extractLoop_sound (minLength : Z) (bytes rest : list byte) :
  forall done i strings cur strings' cur',
    bytes = (done ++ rest)%list ->
    LoopState done i cur ->
    (forall e, In e strings ->
       exists before run after,
         MaximalRun bytes before run after /\
         offset e = Z.of_nat (length before) /\ value e = map Byte.to_N run /\
         (minLength <= Z.of_nat (length run))%Z) ->
    extractLoop minLength rest i strings cur = (strings', cur') ->
    LoopState bytes (Z.of_nat (length bytes)) cur' /\
    (forall e, In e strings' ->
       exists before run after,
         MaximalRun bytes before run after /\
         offset e = Z.of_nat (length before) /\ value e = map Byte.to_N run /\
         (minLength <= Z.of_nat (length run))%Z).
Proof.
  induction rest as [|b rest IH]; intros done i strings cur strings' cur' E St Hs; simpl.
  - intros [= <- <-]. rewrite app_nil_r in E. subst done.
    split; [|exact Hs]. destruct St as [-> St]. split; [reflexivity|exact St].
  - assert (E' : bytes = ((done ++ [b]) ++ rest)%list)
      by (now rewrite <- app_assoc).
    destruct (printable b) eqn:Hb.
    + apply (IH (done ++ [b])%list); [exact E'| |exact Hs].
      now apply LoopState_printable.
    + apply (IH (done ++ [b])%list); [exact E'| |].
      * now apply (LoopState_reset done i cur).
      * intros e He.
        destruct (minLength <=? lengthZ cur)%Z eqn:Hmin; [|now apply Hs].
        apply in_app_or in He as [He|[<-|[]]]; [now apply Hs|].
        destruct St as (-> & pre & run & -> & -> & Hr & Hp).
        exists pre, run, (b :: rest). cbn [offset value].
        split; [|split; [|split]].
        -- split; [now rewrite E, <- app_assoc|]. split; [exact Hr|].
           split; [exact Hp|]. now intros b' [= <-].
        -- unfold lengthZ. rewrite length_map, length_app. lia.
        -- reflexivity.
        -- apply Z.leb_le in Hmin. unfold lengthZ in Hmin.
           now rewrite length_map in Hmin.
Qed.

Lemma extractLoop_complete (minLength : Z) (bytes before run after rest : list byte) :
  MaximalRun bytes before run after ->
  (minLength <= Z.of_nat (length run))%Z ->
  forall done i strings cur strings' cur',
    bytes = (done ++ rest)%list ->
    LoopState done i cur ->
    length done <= length (before ++ run) ->
    extractLoop minLength rest i strings cur = (strings', cur') ->
    (after <> [] ->
     In (mkFoundString (Z.of_nat (length before)) (map Byte.to_N run)) strings') /\
    (after = [] -> cur' = map Byte.to_N run).
Proof.
  intros (Eb & Hr & Hbefore & Hafter) Hmin.
  induction rest as [|b rest IH]; intros done i strings cur strings' cur' E St Hlen;
    simpl.
  - intros [= <- <-]. rewrite app_nil_r in E. subst done.
    assert (Ha : after = []).
    { apply (f_equal (@length byte)) in Eb. rewrite !length_app in *.
      destruct after; [reflexivity|]. simpl in Eb. lia. }
    split; [congruence|]. intros _. subst after. rewrite app_nil_r in Eb.
    destruct St as (_ & pre & run' & E' & -> & Hr' & Hp'). rewrite Eb in E'.
    now destruct (suffix_run_unique before run pre run' E' Hr Hr' Hbefore Hp')
      as [_ ->].
  - assert (E' : bytes = ((done ++ [b]) ++ rest)%list)
      by (now rewrite <- app_assoc).
    destruct (Nat.eq_dec (length done) (length (before ++ run))) as [Heq|Hne].
    + assert (Hd : done = (before ++ run)%list /\ b :: rest = after).
      { rewrite Eb, app_assoc in E.
        apply app_inj_1 in E; [|now symmetry]. destruct E as [E1 E2]. auto. }
      destruct Hd as [-> <-].
      destruct St as (-> & pre & run' & E2 & -> & Hr' & Hp').
      destruct (suffix_run_unique before run pre run' E2 Hr Hr' Hbefore Hp')
        as [<- <-].
      rewrite (Hafter b eq_refl). intros H.
      split; [|discriminate]. intros _.
      apply (extractLoop_mono _ _ _ _ _ _ _ H).
      unfold lengthZ. rewrite length_map.
      destruct (Z.leb_spec minLength (Z.of_nat (length run))) as [_|Hc]; [|lia].
      apply in_or_app. right. left. f_equal. rewrite length_app. lia.
    + assert (Hlen' : length (done ++ [b]) <= length (before ++ run))
        by (rewrite length_app; simpl; lia).
      destruct (printable b) eqn:Hb.
      * apply (IH (done ++ [b])%list); [exact E'| |exact Hlen'].
        now apply LoopState_printable.
      * apply (IH (done ++ [b])%list); [exact E'| |exact Hlen'].
        now apply (LoopState_reset done i cur).
Qed.

(** X23. [extractStrings] reports exactly the runs of printable bytes
    that cannot be extended and have at least [minLength] bytes: an
    entry is in the result if and only if its value is such a run and
    its offset the position where the run begins. *)
Theorem extractStrings_maximal_runs (bytes : list byte) (minLength : Z)
    (e : FoundString) :
  In e (extractStrings bytes minLength) <->
  exists before run after,
    MaximalRun bytes before run after /\
    (minLength <= Z.of_nat (length run))%Z /\
    offset e = Z.of_nat (length before) /\
    value e = map Byte.to_N run.
Proof.
  unfold extractStrings.
  destruct (extractLoop minLength bytes 0 [] []) as [strings cur] eqn:El.
  assert (St0 : LoopState [] 0 []).
  { split; [reflexivity|]. exists [], []. repeat split; try reflexivity.
    intros b [=]. }
  split.
  - intros He.
    destruct (extractLoop_sound minLength bytes bytes [] 0 [] [] strings cur
                eq_refl St0) as [St Hs]; [intros ? []|exact El|].
    assert (Hin : In e strings \/
                  ((minLength <= lengthZ cur)%Z /\
                   e = mkFoundString (Z.of_nat (length bytes) - lengthZ cur) cur)).
    { destruct (Z.leb_spec minLength (lengthZ cur)) as [Hmin|_]; [|now left].
      apply in_app_or in He as [He|[<-|[]]]; [now left|]. right. auto. }
    destruct Hin as [Hin|[Hmin ->]].
    + destruct (Hs e Hin) as (before & run & after & Hm & Ho & Hv & Hl).
      exists before, run, after. auto.
    + destruct St as (_ & pre & run & E & -> & Hr & Hp).
      exists pre, run, []. cbn [offset value]. unfold lengthZ in *.
      rewrite length_map in *. split; [|split; [exact Hmin|split; [|reflexivity]]].
      * split; [now rewrite app_nil_r|]. split; [exact Hr|]. split; [exact Hp|].
        intros b [=].
      * rewrite E, length_app. lia.
  - intros (before & run & after & Hm & Hmin & Ho & Hv).
    assert (He : e = mkFoundString (Z.of_nat (length before)) (map Byte.to_N run))
      by (destruct e; cbn in *; congruence).
    destruct (extractLoop_complete minLength bytes before run after bytes Hm Hmin
                [] 0 [] [] strings cur eq_refl St0) as [Hne Hnil];
      [simpl; lia|exact El|].
    destruct after as [|a after].
    + specialize (Hnil eq_refl). subst cur. unfold lengthZ. rewrite length_map.
      destruct (Z.leb_spec minLength (Z.of_nat (length run))) as [_|Hc]; [|lia].
      apply in_or_app. right. left. rewrite He. f_equal.
      destruct Hm as (-> & _). rewrite !length_app. simpl. lia.
    + assert (Hin : In e strings) by (rewrite He; apply Hne; discriminate).
      destruct (minLength <=? lengthZ cur)%Z; [|exact Hin].
      apply in_or_app. now left.
Qed.

(* ================================================================== *)
(** * Further properties: the summary statistics                       *)
(* ================================================================== *)

Section ObjectFacts.

Context {V : Type}.

Lemma getOwn_setOwn_same (k : string) (v : V) (o : JsObject V) :
  getOwn k (setOwn k v o) = Some v.
Proof.
  induction o as [|[k' v'] o IH]; simpl.
  - now rewrite String.eqb_refl.
  - destruct (String.eqb k' k) eqn:E; simpl; now rewrite E.
Qed.

Lemma getOwn_setOwn_other (k k' : string) (v : V) (o : JsObject V) :
  k <> k' -> getOwn k' (setOwn k v o) = getOwn k' o.
Proof.
  intros Hne. induction o as [|[k0 v0] o IH]; simpl.
  - destruct (String.eqb_spec k k'); [contradiction|reflexivity].
  - destruct (String.eqb_spec k0 k) as [->|Hk]; simpl.
    + destruct (String.eqb_spec k k'); [contradiction|reflexivity].
    + now rewrite IH.
Qed.

Lemma setOwn_absent (k : string) (v : V) (o : JsObject V) :
  getOwn k o = None -> setOwn k v o = (o ++ [(k, v)])%list.
Proof.
  induction o as [|[k' v'] o IH]; simpl; [reflexivity|].
  destruct (String.eqb k' k); [discriminate|]. intros H. now rewrite IH.
Qed.

Lemma setOwn_present_keys (k : string) (v old : V) (o : JsObject V) :
  getOwn k o = Some old -> keysOf (setOwn k v o) = keysOf o.
Proof.
  induction o as [|[k' v'] o IH]; simpl; [discriminate|].
  destruct (String.eqb k' k); [reflexivity|]. intros H. simpl. now rewrite IH.
Qed.

Lemma setOwn_setOwn (k : string) (v v' : V) (o : JsObject V) :
  setOwn k v (setOwn k v' o) = setOwn k v o.
Proof.
  induction o as [|[k0 v0] o IH]; simpl.
  - now rewrite String.eqb_refl.
  - destruct (String.eqb k0 k) eqn:E; simpl; rewrite E; [reflexivity|].
    now rewrite IH.
Qed.

Lemma getOwn_keys (k : string) (o : JsObject V) :
  getOwn k o = None <-> existsb (String.eqb k) (keysOf o) = false.
Proof.
  induction o as [|[k' v'] o IH]; simpl; [tauto|].
  rewrite (String.eqb_sym k k').
  destruct (String.eqb k' k); simpl; [split; discriminate|exact IH].
Qed.

End ObjectFacts.

Lemma sumOver_app (g : TypeStat -> nat) (o o' : JsObject TypeStat) :
  sumOver g (o ++ o')%list = sumOver g o + sumOver g o'.
Proof.
  unfold sumOver. induction o as [|kv o IH]; simpl; [reflexivity|].
  rewrite IH. lia.
Qed.

Lemma sumOver_setOwn (g : TypeStat -> nat) (k : string) (v old : TypeStat)
    (o : JsObject TypeStat) :
  getOwn k o = Some old ->
  sumOver g (setOwn k v o) + g old = sumOver g o + g v.
Proof.
  induction o as [|[k' v'] o IH]; simpl; [discriminate|].
  destruct (String.eqb k' k).
  - intros [= ->]. unfold sumOver. simpl. lia.
  - intros H. specialize (IH H). unfold sumOver in *. simpl. lia.
Qed.

Lemma recordStat_inherited (o : JsObject TypeStat) (f : Result.t) :
  inherited (Result.type f) = true -> recordStat o f = o.
Proof. intros H. unfold recordStat. now rewrite H. Qed.

Lemma recordStat_present (o : JsObject TypeStat) (f : Result.t) (s : TypeStat) :
  inherited (Result.type f) = false ->
  getOwn (Result.type f) o = Some s ->
  recordStat o f =
    setOwn (Result.type f)
      (mkTypeStat (stat_count s + 1) (stat_size s + Result.size f) (stat_category s)) o.
Proof.
  intros Hi Hs. unfold recordStat. rewrite Hi, Hs. cbv zeta. rewrite Hs.
  rewrite getOwn_setOwn_same. cbn [stat_count stat_size stat_category].
  apply setOwn_setOwn.
Qed.

Lemma recordStat_absent (o : JsObject TypeStat) (f : Result.t) :
  inherited (Result.type f) = false ->
  getOwn (Result.type f) o = None ->
  recordStat o f =
    (o ++ [(Result.type f, mkTypeStat 1 (Result.size f) (Result.category f))])%list.
Proof.
  intros Hi Hs. unfold recordStat. rewrite Hi, Hs. cbv zeta.
  rewrite getOwn_setOwn_same. cbn [stat_count stat_size stat_category].
  rewrite getOwn_setOwn_same. cbn [stat_count stat_size stat_category].
  rewrite !setOwn_setOwn. now apply setOwn_absent.
Qed.

Lemma recordStat_other (o : JsObject TypeStat) (f : Result.t) (ty : string) :
  Result.type f <> ty -> getOwn ty (recordStat o f) = getOwn ty o.
Proof.
  intros Hne. destruct (inherited (Result.type f)) eqn:Hi.
  - now rewrite recordStat_inherited.
  - destruct (getOwn (Result.type f) o) as [s|] eqn:Hs.
    + rewrite (recordStat_present _ _ s Hi Hs). now apply getOwn_setOwn_other.
    + rewrite (recordStat_absent _ _ Hi Hs).
      rewrite <- (setOwn_absent _ _ _ Hs). now apply getOwn_setOwn_other.
Qed.

Lemma totalSizeOfResults_from (rs : list Result.t) (n : nat) :
  fold_left (fun sum f => sum + Result.size f) rs n = n + totalSizeOfResults rs.
Proof.
  unfold totalSizeOfResults. revert n.
  induction rs as [|f rs IH]; intros n; simpl; [lia|].
  rewrite (IH (n + Result.size f)), (IH (Result.size f)). lia.
Qed.

Lemma totalSizeOfResults_cons (f : Result.t) (rs : list Result.t) :
  totalSizeOfResults (f :: rs) = Result.size f + totalSizeOfResults rs.
Proof.
  unfold totalSizeOfResults at 1. simpl. apply totalSizeOfResults_from.
Qed.

Lemma tally_typeStats (rs : list Result.t) (t : Tally) :
  typeStats (fold_left tallyStep rs t) = fold_left recordStat rs (typeStats t).
Proof. revert t. induction rs as [|f rs IH]; intros t; simpl; [reflexivity|apply IH]. Qed.

Lemma tally_issues (rs : list Result.t) (t : Tally) :
  issues (fold_left tallyStep rs t) =
  issues t +
  length (List.filter (fun f => Result.isCorrupt f || Result.extensionMismatch f) rs).
Proof.
  revert t. induction rs as [|f rs IH]; intros t; simpl; [lia|].
  rewrite IH. cbn [tallyStep issues]. cbn [List.filter].
  destruct (Result.isCorrupt f || Result.extensionMismatch f); simpl; lia.
Qed.

Lemma tally_encrypted (rs : list Result.t) (t : Tally) :
  encryptedCount (fold_left tallyStep rs t) =
  encryptedCount t + length (List.filter Result.isEncrypted rs).
Proof.
  revert t. induction rs as [|f rs IH]; intros t; simpl; [lia|].
  rewrite IH. cbn [tallyStep encryptedCount]. cbn [List.filter].
  destruct (Result.isEncrypted f); simpl; lia.
Qed.

(** The entry of one type after the results [rs], from the entry before. *)
Lemma stats_of_type (ty : string) (rs : list Result.t) (o : JsObject TypeStat) :
  inherited ty = false ->
  let fs := List.filter (fun f => String.eqb (Result.type f) ty) rs in
  getOwn ty (fold_left recordStat rs o) =
    match getOwn ty o, fs with
    | None, [] => None
    | None, f0 :: _ =>
        Some (mkTypeStat (length fs) (totalSizeOfResults fs) (Result.category f0))
    | Some s, _ =>
        Some (mkTypeStat (stat_count s + length fs)
                (stat_size s + totalSizeOfResults fs) (stat_category s))
    end.
Proof.
  intros Hi. cbv zeta. revert o.
  induction rs as [|f rs IH]; intros o.
  - simpl. destruct (getOwn ty o) as [[c s cat]|]; [|reflexivity].
    simpl. unfold totalSizeOfResults. simpl. f_equal; f_equal; lia.
  - cbn [fold_left List.filter]. rewrite IH.
    destruct (String.eqb_spec (Result.type f) ty) as [E|E].
    + subst ty. rewrite totalSizeOfResults_cons. cbn [length].
      destruct (getOwn (Result.type f) o) as [s|] eqn:Hs.
      * rewrite (recordStat_present _ _ s Hi Hs), getOwn_setOwn_same.
        cbn [stat_count stat_size stat_category]. f_equal; f_equal; lia.
      * rewrite (recordStat_absent _ _ Hi Hs), <- (setOwn_absent _ _ _ Hs),
          getOwn_setOwn_same.
        cbn [stat_count stat_size stat_category]. f_equal; f_equal; lia.
    + now rewrite (recordStat_other _ _ _ E).
Qed.

Lemma stats_inherited (ty : string) (rs : list Result.t) (o : JsObject TypeStat) :
  inherited ty = true -> getOwn ty (fold_left recordStat rs o) = getOwn ty o.
Proof.
  intros Hi. revert o. induction rs as [|f rs IH]; intros o; simpl; [reflexivity|].
  rewrite IH. destruct (String.eqb_spec (Result.type f) ty) as [E|E].
  - rewrite recordStat_inherited; [reflexivity|]. now rewrite E.
  - now apply recordStat_other.
Qed.

Lemma stats_totals (rs : list Result.t) (o : JsObject TypeStat) :
  Forall (fun f => inherited (Result.type f) = false) rs ->
  sumOver stat_count (fold_left recordStat rs o) = sumOver stat_count o + length rs /\
  sumOver stat_size (fold_left recordStat rs o) =
    sumOver stat_size o + totalSizeOfResults rs /\
  keysOf (fold_left recordStat rs o) = setFrom (keysOf o) (map Result.type rs).
Proof.
  intros H. revert o. induction H as [|f rs Hi _ IH]; intros o.
  - simpl. unfold totalSizeOfResults. simpl. repeat split; lia.
  - cbn [fold_left map setFrom length]. rewrite totalSizeOfResults_cons.
    destruct (IH (recordStat o f)) as (-> & -> & ->).
    destruct (getOwn (Result.type f) o) as [s|] eqn:Hs.
    + rewrite (recordStat_present _ _ s Hi Hs).
      pose proof (sumOver_setOwn stat_count _
                    (mkTypeStat (stat_count s + 1) (stat_size s + Result.size f)
                       (stat_category s)) s o Hs) as Hc.
      pose proof (sumOver_setOwn stat_size _
                    (mkTypeStat (stat_count s + 1) (stat_size s + Result.size f)
                       (stat_category s)) s o Hs) as Hz.
      cbn [stat_count stat_size] in Hc, Hz.
      rewrite (setOwn_present_keys _ _ s _ Hs).
      assert (Hk : existsb (String.eqb (Result.type f)) (keysOf o) = true).
      { destruct (existsb _ _) eqn:E; [reflexivity|].
        apply getOwn_keys in E. congruence. }
      rewrite Hk. repeat split; lia.
    + rewrite (recordStat_absent _ _ Hi Hs), !sumOver_app.
      assert (Hk : existsb (String.eqb (Result.type f)) (keysOf o) = false)
        by (now apply getOwn_keys).
      rewrite Hk. unfold keysOf at 1. rewrite map_app. unfold sumOver at 2 5. simpl.
      repeat split; lia.
Qed.

Lemma lookupExtension_In (table : list (jsstring * Fallback)) (ext : jsstring)
    (fallback : Fallback) :
  lookupExtension table ext = Some fallback -> In fallback (map snd table).
Proof.
  induction table as [|[k v] table IH]; simpl; [discriminate|].
  destruct (bool_decide (k = ext)).
  - intros [= ->]. now left.
  - intros H. right. now apply IH.
Qed.

Section RecordTypes.

Variable toLowerCase : jsstring -> jsstring.

Lemma analyzeFile_type_own (file : File.t) :
  inherited (Result.type (fst (analyzeFile toLowerCase file))) = false.
Proof.
  destruct (File.content file) as [message|bytes] eqn:Hc.
  - rewrite (analyzeFile_unreadable _ _ _ Hc). reflexivity.
  - destruct (Nat.lt_ge_cases (length bytes) 2) as [Hlen|Hlen].
    + rewrite (analyzeFile_short _ _ _ Hc Hlen). reflexivity.
    + rewrite (analyzeFile_long _ _ _ Hc Hlen). cbn [fst].
      assert (Hs : inherited (Result.type (scored toLowerCase file bytes)) = false).
      { unfold scored, applySignature.
        destruct (matchMagic magicDatabase _) as [sig|] eqn:Hm; [|reflexivity].
        apply matchMagic_In in Hm as [Hin _]. cbv zeta.
        assert (Hty : inherited (sig_type sig) = false).
        { assert (Hall : forallb (fun s => negb (inherited (sig_type s))) magicDatabase
                         = true) by (vm_compute; reflexivity).
          rewrite forallb_forall in Hall. now apply negb_true_iff, Hall. }
        destruct (mismatchFor sig _); exact Hty. }
      unfold applyFallback.
      destruct (bool_decide _ && truthy _); [|exact Hs].
      unfold bind, invoke, ret. cbn [fst snd].
      destruct (lookupExtension extensionMap _) as [fallback|] eqn:Hl; [|exact Hs].
      cbn [fst]. apply lookupExtension_In in Hl.
      assert (Hall : forallb (fun v => negb (inherited (fb_type v)))
                       (map snd extensionMap) = true) by (vm_compute; reflexivity).
      rewrite forallb_forall in Hall. cbn [setType Result.type].
      now apply negb_true_iff, Hall.
Qed.

Lemma recordsOf_own (files : list File.t) :
  Forall (fun f => inherited (Result.type f) = false) (recordsOf toLowerCase files).
Proof.
  unfold recordsOf. apply Forall_forall. intros f Hin.
  apply list_elem_of_In, in_map_iff in Hin as (file & <- & _).
  apply analyzeFile_type_own.
Qed.

Lemma recordsOf_never_both (files : list File.t) :
  Forall (fun f => Result.isCorrupt f && Result.extensionMismatch f = false)
    (recordsOf toLowerCase files).
Proof.
  unfold recordsOf. apply Forall_forall. intros f Hin.
  apply list_elem_of_In, in_map_iff in Hin as (file & <- & _).
  destruct (Result.isCorrupt (fst (analyzeFile toLowerCase file))) eqn:E;
    [|reflexivity].
  now destruct (analyzeFile_corrupt_defaults toLowerCase file E) as (_ & -> & _).
Qed.

Lemma analyzeFile_size (file : File.t) :
  Result.size (fst (analyzeFile toLowerCase file)) = File.size file.
Proof.
  destruct (File.content file) as [message|bytes] eqn:Hc.
  - now rewrite (analyzeFile_unreadable _ _ _ Hc).
  - destruct (Nat.lt_ge_cases (length bytes) 2) as [Hlen|Hlen].
    + now rewrite (analyzeFile_short _ _ _ Hc Hlen).
    + rewrite (analyzeFile_long _ _ _ Hc Hlen). cbn [fst].
      assert (Hs : Result.size (scored toLowerCase file bytes) = File.size file).
      { unfold scored, applySignature.
        destruct (matchMagic magicDatabase _) as [sig|]; [|reflexivity].
        cbv zeta. now destruct (mismatchFor sig _). }
      unfold applyFallback.
      destruct (bool_decide _ && truthy _); [|exact Hs].
      unfold bind, invoke, ret. cbn [fst snd].
      now destruct (lookupExtension extensionMap _).
Qed.

Lemma recordsOf_size (files : list File.t) :
  totalSizeOfResults (recordsOf toLowerCase files) = totalSizeOf (map File.size files).
Proof.
  unfold totalSizeOf.
  assert (H : forall n,
             fold_left Nat.add (map File.size files) n =
             n + totalSizeOfResults (recordsOf toLowerCase files)).
  { induction files as [|file files IH]; intros n.
    - unfold totalSizeOfResults. simpl. lia.
    - cbn [map fold_left recordsOf]. fold (recordsOf toLowerCase files).
      rewrite IH, totalSizeOfResults_cons, analyzeFile_size. lia. }
  now rewrite H.
Qed.

End RecordTypes.

Lemma filter_either (rs : list Result.t) :
  Forall (fun f => Result.isCorrupt f && Result.extensionMismatch f = false) rs ->
  length (List.filter (fun f => Result.isCorrupt f || Result.extensionMismatch f) rs) =
  length (List.filter Result.isCorrupt rs) +
  length (List.filter Result.extensionMismatch rs).
Proof.
  induction 1 as [|f rs Hf _ IH]; [reflexivity|]. cbn [List.filter].
  destruct (Result.isCorrupt f), (Result.extensionMismatch f);
    try discriminate; cbn [orb length]; lia.
Qed.

Lemma saveToHistory_take (history : list HistoryEntry) (date : jsstring)
    (rs : list Result.t) :
  length history <= 20 ->
  saveToHistory history date rs = take 20 (historyEntry date rs :: history).
Proof.
  intros Hlen. unfold saveToHistory. cbv zeta.
  destruct (Nat.ltb_spec 20 (length (historyEntry date rs :: history))) as [H|H].
  - rewrite removelast_firstn_len. f_equal. simpl in *. lia.
  - symmetry. apply take_ge. exact H.
Qed.

(** X24. After [displayResults] has gone through the results, the entry
    of [typeStats] for a type holds the number of results of that type,
    the sum of their sizes and the category of the first of them; a type
    no result has, or one that names a property of [Object.prototype],
    has no entry. *)
Theorem typeStats_per_type (analysisResults : list Result.t) (ty : string) :
  let fs := List.filter (fun f => String.eqb (Result.type f) ty) analysisResults in
  getOwn ty (typeStats (tally analysisResults)) =
    if inherited ty then None
    else match fs with
         | [] => None
         | f0 :: _ =>
             Some (mkTypeStat (length fs) (totalSizeOfResults fs) (Result.category f0))
         end.
Proof.
  cbv zeta. unfold tally. rewrite tally_typeStats. cbn [typeStats].
  destruct (inherited ty) eqn:Hi.
  - now rewrite stats_inherited.
  - now rewrite (stats_of_type ty analysisResults [] Hi).
Qed.

(** X25. For the records of a batch of files the counts of [typeStats]
    add up to the number of files and its sizes to the total size of the
    files, which is the size the total-size card shows; and the card of
    file types shows the number of unique types of the exported
    report. *)
Theorem summary_totals
    (toLowerCase : jsstring -> jsstring) (files : list File.t) :
  let analysisResults := recordsOf toLowerCase files in
  let stats := typeStats (tally analysisResults) in
  sumOver stat_count stats = length files /\
  sumOver stat_size stats = totalSizeOf (map File.size files) /\
  card_totalSize (displayResults analysisResults) = totalSizeOf (map File.size files) /\
  card_fileTypes (displayResults analysisResults) =
    report_uniqueTypes (exportReport analysisResults).
Proof.
  cbv zeta.
  destruct (stats_totals (recordsOf toLowerCase files) []
              (recordsOf_own toLowerCase files)) as (Hc & Hs & Hk).
  unfold displayResults, exportReport, tally. cbv zeta.
  cbn [card_totalSize card_fileTypes report_uniqueTypes].
  rewrite tally_typeStats. cbn [typeStats].
  rewrite Hc, Hs, Hk, recordsOf_size.
  unfold recordsOf at 1. rewrite length_map. simpl. auto.
Qed.

(** X26. For the records of a batch of files the issues card, the
    issues of the history entry and the corrupt and mismatched counts of
    the report agree: no record is both corrupt and mismatched, so the
    issues are the sum of the two counts. The encrypted counts agree as
    well. *)
Theorem issue_counts_agree
    (toLowerCase : jsstring -> jsstring) (files : list File.t) (date : jsstring) :
  let analysisResults := recordsOf toLowerCase files in
  card_issues (displayResults analysisResults) =
    entry_issues (historyEntry date analysisResults) /\
  card_issues (displayResults analysisResults) =
    report_corruptFiles (exportReport analysisResults) +
    report_mismatchedFiles (exportReport analysisResults) /\
  card_encryptedFiles (displayResults analysisResults) =
    report_encryptedFiles (exportReport analysisResults).
Proof.
  cbv zeta. unfold displayResults, exportReport, historyEntry, tally. cbv zeta.
  cbn [card_issues card_encryptedFiles entry_issues report_corruptFiles
       report_mismatchedFiles report_encryptedFiles].
  rewrite tally_issues, tally_encrypted. cbn [issues encryptedCount].
  split; [reflexivity|]. split; [|reflexivity].
  rewrite Nat.add_0_l. apply filter_either, recordsOf_never_both.
Qed.

(** X27. A history of at most 20 entries stays at most 20 entries long
    however many scans are saved, and holds the latest entries, newest
    first. *)
Theorem history_keeps_latest
    (history : list HistoryEntry) (scans : list (jsstring * list Result.t)) :
  length history <= 20 ->
  let history' :=
    fold_left (fun h scan => saveToHistory h (fst scan) (snd scan)) scans history in
  history' =
    take 20 (rev (map (fun scan => historyEntry (fst scan) (snd scan)) scans)
             ++ history)%list /\
  length history' <= 20.
Proof.
  intros Hlen. cbv zeta. revert history Hlen.
  induction scans as [|scan scans IH]; intros history Hlen.
  - simpl. split; [|exact Hlen]. symmetry. now apply take_ge.
  - cbn [fold_left map rev].
    assert (Hs : length (saveToHistory history (fst scan) (snd scan)) <= 20).
    { rewrite saveToHistory_take by exact Hlen. rewrite length_take. lia. }
    destruct (IH _ Hs) as [-> Hl]. split; [|exact Hl].
    rewrite saveToHistory_take by exact Hlen.
    rewrite <- app_assoc. cbn [app].
    set (newer := rev _).
    set (e := historyEntry _ _).
    destruct (Nat.le_gt_cases 20 (length newer)) as [Hn|Hn].
    + rewrite !take_app_le by exact Hn. reflexivity.
    + rewrite !take_app_ge by lia. f_equal.
      rewrite take_take. f_equal. lia.
Qed.

Lemma history_keeps_latest_witness :
  let scan (n : nat) : jsstring * list Result.t := (decimal (N.of_nat n), []) in
  map entry_date
    (fold_left (fun h s => saveToHistory h (fst s) (snd s)) (map scan (seq 0 22)) []) =
  map (fun n => decimal (N.of_nat n)) (rev (seq 2 20)).
Proof.
  cbv zeta.
  destruct (history_keeps_latest []
              (map (fun n => (decimal (N.of_nat n), @nil Result.t)) (seq 0 22)))
    as [-> _].
  - simpl. lia.
  - vm_compute. reflexivity.
Defined.

(* ================================================================== *)
(** * Further properties: the suggested names                          *)
(* ================================================================== *)

Lemma suggestions_fit_table : forallb suggestionFits magicDatabase = true.
Proof. vm_compute. reflexivity. Qed.

Lemma suggestion_of (sig : Signature) :
  In sig magicDatabase ->
  (str ".unknown" ∉ extensions sig) /\
  exists sig0 e more,
    findByType (sig_type sig) = Some sig0 /\
    extensions sig0 = e :: more /\
    (e = [] \/
     exists rest, e = dot :: rest /\ ~ In dot rest /\ e ∈ extensions sig).
Proof.
  intros Hin. pose proof suggestions_fit_table as H.
  rewrite forallb_forall in H. specialize (H sig Hin). unfold suggestionFits in H.
  apply andb_prop in H as [Hunk H]. split.
  { apply negb_true_iff in Hunk. unfold includes in Hunk.
    now apply bool_decide_eq_false in Hunk. }
  destruct (findByType (sig_type sig)) as [sig0|]; [|discriminate].
  destruct (extensions sig0) as [|[|c rest] more] eqn:Hexts; try discriminate.
  - exists sig0, [], more. split; [reflexivity|]. split; [exact Hexts|]. now left.
  - apply andb_prop in H as [H Hinc]. apply andb_prop in H as [Hc Hrest].
    apply N.eqb_eq in Hc. subst c.
    exists sig0, (dot :: rest), more. split; [reflexivity|]. split; [exact Hexts|].
    right. exists rest. split; [reflexivity|]. split.
    + intros Hd. apply negb_true_iff in Hrest.
      assert (existsb (N.eqb dot) rest = true); [|congruence].
      apply existsb_exists. exists dot. split; [exact Hd|apply N.eqb_refl].
    + unfold includes in Hinc. now apply bool_decide_eq_true in Hinc.
Qed.

Section Suggestions.

Variable toLowerCase : jsstring -> jsstring.

Lemma getFileExtension_last (stem rest : jsstring) :
  ~ In dot rest ->
  getFileExtension toLowerCase (stem ++ dot :: rest) = toLowerCase (dot :: rest).
Proof.
  intros H. unfold getFileExtension. cbv zeta. rewrite (lastIndexOf_last _ _ _ H).
  destruct (Z.leb_spec 0 (Z.of_nat (length stem))) as [_|Hc]; [|lia].
  unfold substringFrom. rewrite Nat2Z.id. now rewrite drop_app_length.
Qed.

Lemma matched_record (file : File.t) (bytes : list byte) (sig : Signature) :
  File.content file = inr bytes -> 2 <= length bytes ->
  matchMagic magicDatabase (bytesToHex (take 64 bytes)) = Some sig ->
  let f := fst (analyzeFile toLowerCase file) in
  Result.type f = sig_type sig /\
  Result.name f = File.name file /\
  Result.actualExtension f = getFileExtension toLowerCase (File.name file) /\
  Result.extensionMismatch f =
    mismatchFor sig (getFileExtension toLowerCase (File.name file)).
Proof.
  intros Hc Hlen Hm. cbv zeta. rewrite (analyzeFile_long _ _ _ Hc Hlen). cbn [fst].
  destruct (applyFallback_keeps (scored toLowerCase file bytes))
    as (-> & _ & _ & _ & _ & ->).
  rewrite scored_mismatch, Hm.
  assert (Hs : Result.type (scored toLowerCase file bytes) = sig_type sig /\
               Result.name (scored toLowerCase file bytes) = File.name file /\
               Result.actualExtension (scored toLowerCase file bytes) =
                 getFileExtension toLowerCase (File.name file)).
  { unfold scored. rewrite Hm. unfold applySignature. cbv zeta.
    destruct (mismatchFor sig _); simpl; auto. }
  destruct Hs as (Hty & Hname & Hext).
  assert (Hfb : fst (applyFallback (scored toLowerCase file bytes)) =
                scored toLowerCase file bytes).
  { unfold applyFallback. rewrite Hty.
    pose proof no_signature_named_Unknown as Hu. rewrite forallb_forall in Hu.
    apply matchMagic_In in Hm as [Hin _]. specialize (Hu sig Hin).
    apply negb_true_iff in Hu. now rewrite Hu. }
  rewrite Hfb. auto.
Qed.

End Suggestions.

(** X28. Where [showFixExtensions] suggests an extension of the table,
    the suggested name settles the mismatch: the same content analysed
    under that name gets the same type and the suggested extension, and
    is no longer flagged. *)
Theorem suggested_name_settles_mismatch
    (toLowerCase : jsstring -> jsstring) (file : File.t) :
  (forall sig e, In sig magicDatabase -> e ∈ extensions sig -> toLowerCase e = e) ->
  let f := fst (analyzeFile toLowerCase file) in
  Result.extensionMismatch f = true ->
  suggestedExt f <> str ".unknown" ->
  let f' := fst (analyzeFile toLowerCase (renamed file (suggestedName f))) in
  Result.type f' = Result.type f /\
  Result.actualExtension f' = suggestedExt f /\
  Result.extensionMismatch f' = false.
Proof.
  intros Hlower. cbv zeta. intros Hmis Hknown.
  apply analyzeFile_mismatch in Hmis
    as (bytes & sig & Hc & Hlen & Hm & _).
  destruct (matched_record toLowerCase file bytes sig Hc Hlen Hm)
    as (Hty & Hname & _ & _).
  pose proof (matchMagic_In _ _ _ Hm) as [Hin _].
  destruct (suggestion_of sig Hin)
    as (_ & sig0 & e & more & Hfind & Hexts & Hcase).
  set (f := fst (analyzeFile toLowerCase file)) in *.
  destruct Hcase as [->|(rest & -> & Hrest & He)].
  { exfalso. apply Hknown. unfold suggestedExt. now rewrite Hty, Hfind, Hexts. }
  assert (Hsug : suggestedExt f = dot :: rest).
  { unfold suggestedExt. now rewrite Hty, Hfind, Hexts. }
  assert (Hext : getFileExtension toLowerCase (suggestedName f) = dot :: rest).
  { unfold suggestedName. rewrite Hsug, getFileExtension_last by exact Hrest.
    now apply (Hlower sig). }
  destruct (matched_record toLowerCase (renamed file (suggestedName f)) bytes sig
              Hc Hlen Hm) as (Hty' & _ & Hext' & Hmis').
  cbn [renamed File.name] in Hext', Hmis'. rewrite Hext in Hext', Hmis'.
  split; [congruence|]. split; [congruence|].
  rewrite Hmis'. destruct (mismatchFor sig (dot :: rest)) eqn:E; [|reflexivity].
  apply (mismatchFor_true toLowerCase) in E as (_ & _ & Hnot). contradiction.
Qed.

Lemma suggested_name_settles_mismatch_witness :
  let file := pngHeaderFile "photo.final.jpg" in
  let f := fst (analyzeFile asciiLowerCase file) in
  suggestedName f = str "photo.final.png" /\
  Result.extensionMismatch
    (fst (analyzeFile asciiLowerCase (renamed file (suggestedName f)))) = false.
Proof.
  cbv zeta. split; [vm_compute; reflexivity|].
  apply (suggested_name_settles_mismatch asciiLowerCase
           (pngHeaderFile "photo.final.jpg")).
  - intros sig e Hin He.
    assert (H : forallb (fun s => forallb (fun x => bool_decide (asciiLowerCase x = x))
                                    (extensions s)) magicDatabase = true)
      by (vm_compute; reflexivity).
    rewrite forallb_forall in H. specialize (H sig Hin). rewrite forallb_forall in H.
    apply list_elem_of_In in He. specialize (H e He).
    now apply bool_decide_eq_true in H.
  - vm_compute. reflexivity.
  - vm_compute. discriminate.
Defined.

(** X29. Where the first signature of the type has an empty first
    extension (the ELF and Mach-O entries) the suggestion is
    [.unknown], and the suggested name does not settle the mismatch: the
    same content analysed under it is flagged again. *)
Theorem unknown_suggestion_stays_mismatched
    (toLowerCase : jsstring -> jsstring) (file : File.t) :
  toLowerCase (str ".unknown") = str ".unknown" ->
  let f := fst (analyzeFile toLowerCase file) in
  Result.extensionMismatch f = true ->
  suggestedExt f = str ".unknown" ->
  let f' := fst (analyzeFile toLowerCase (renamed file (suggestedName f))) in
  Result.type f' = Result.type f /\
  Result.actualExtension f' = str ".unknown" /\
  Result.extensionMismatch f' = true.
Proof.
  intros Hlower. cbv zeta. intros Hmis Hunknown.
  apply analyzeFile_mismatch in Hmis
    as (bytes & sig & Hc & Hlen & Hm & Hne & _).
  destruct (matched_record toLowerCase file bytes sig Hc Hlen Hm)
    as (Hty & Hname & _ & _).
  pose proof (matchMagic_In _ _ _ Hm) as [Hin _].
  destruct (suggestion_of sig Hin) as (Hnot & _).
  set (f := fst (analyzeFile toLowerCase file)) in *.
  assert (Hext : getFileExtension toLowerCase (suggestedName f) = str ".unknown").
  { unfold suggestedName. rewrite Hunknown.
    change (str ".unknown") with (dot :: str "unknown") at 1.
    rewrite getFileExtension_last; [exact Hlower|].
    simpl. unfold dot. intros H.
    repeat (destruct H as [H|H]; [discriminate H|]). exact H. }
  destruct (matched_record toLowerCase (renamed file (suggestedName f)) bytes sig
              Hc Hlen Hm) as (Hty' & _ & Hext' & Hmis').
  cbn [renamed File.name] in Hext', Hmis'. rewrite Hext in Hext', Hmis'.
  split; [congruence|]. split; [exact Hext'|].
  rewrite Hmis'. apply (mismatchFor_true toLowerCase). split; [exact Hne|].
  split; [discriminate|exact Hnot].
Qed.

Lemma unknown_suggestion_stays_mismatched_witness :
  let file := File.mk (str "tool.bin") [] 4 [] (inr [x7f; x45; x4c; x46]) in
  let f := fst (analyzeFile asciiLowerCase file) in
  Result.type f = "ELF"%string /\
  suggestedName f = str "tool.unknown" /\
  Result.extensionMismatch
    (fst (analyzeFile asciiLowerCase (renamed file (suggestedName f)))) = true.
Proof.
  cbv zeta. split; [vm_compute; reflexivity|]. split; [vm_compute; reflexivity|].
  apply (unknown_suggestion_stays_mismatched asciiLowerCase
           (File.mk (str "tool.bin") [] 4 [] (inr [x7f; x45; x4c; x46]))).
  - vm_compute. reflexivity.
  - vm_compute. reflexivity.
  - vm_compute. reflexivity.
Defined.

(* ================================================================== *)
(** * Further properties: the worker pool                              *)
(* ================================================================== *)

Section FindIndex.

Context {A : Type} (p : A -> bool).

Lemma findIndex_Some (l : list A) (i : nat) :
  findIndex p l = Some i -> exists x, l !! i = Some x /\ p x = true.
Proof.
  revert i. induction l as [|y l IH]; intros i; simpl; [discriminate|].
  destruct (p y) eqn:E.
  - intros [= <-]. exists y. auto.
  - destruct (findIndex p l) as [j|]; [|discriminate]. intros [= <-].
    destruct (IH j eq_refl) as (x & Hx & Hp). exists x. auto.
Qed.

Lemma findIndex_None (l : list A) :
  findIndex p l = None -> countIf p l = 0.
Proof.
  unfold countIf. induction l as [|y l IH]; simpl; [reflexivity|].
  destruct (p y); [discriminate|].
  destruct (findIndex p l); [discriminate|]. intros _. now apply IH.
Qed.

Lemma countIf_zero (l : list A) :
  countIf p l = 0 -> Forall (fun x => p x = false) l.
Proof.
  unfold countIf. induction l as [|y l IH]; simpl; [constructor|].
  destruct (p y) eqn:E; [discriminate|]. intros H. constructor; auto.
Qed.

Lemma countIf_insert (l : list A) (i : nat) (x y : A) :
  l !! i = Some x -> p x = true -> p y = false ->
  countIf p (<[i := y]> l) + 1 = countIf p l.
Proof.
  unfold countIf. revert i. induction l as [|z l IH]; intros [|i]; simpl;
    try discriminate.
  - intros [= ->] Hx Hy. rewrite Hx, Hy. simpl. lia.
  - intros Hl Hx Hy. specialize (IH i Hl Hx Hy). destruct (p z); simpl; lia.
Qed.

Lemma countIf_insert_le (l : list A) (i : nat) (y : A) :
  countIf p (<[i := y]> l) <= countIf p l + 1.
Proof.
  unfold countIf. revert i. induction l as [|z l IH]; intros [|i]; simpl; try lia.
  - destruct (p y), (p z); simpl; lia.
  - specialize (IH i). destruct (p z); simpl; lia.
Qed.

Lemma countIf_delete (l : list A) (i : nat) :
  countIf p (delete i l) <= countIf p l.
Proof.
  unfold countIf. revert i. induction l as [|z l IH]; intros [|i]; simpl; try lia.
  - destruct (p z); simpl; lia.
  - specialize (IH i). destruct (p z); simpl; lia.
Qed.

Lemma countIf_snoc (l : list A) (y : A) :
  countIf p (l ++ [y]) = countIf p l + (if p y then 1 else 0).
Proof.
  unfold countIf. rewrite List.filter_app, length_app. simpl.
  destruct (p y); reflexivity.
Qed.

End FindIndex.

Lemma processQueue_conserving (p : Pool) :
  countIf negb (workerPool p) <= 1 \/
  countIf (fun t => negb (sent t)) (workerQueue p) <= 1 ->
  Conserving (processQueue p).
Proof.
  intros Hpre. unfold processQueue, Conserving.
  destruct (findIndex negb (workerPool p)) as [w|] eqn:Hw.
  - destruct (findIndex (fun t => negb (sent t)) (workerQueue p)) as [i|] eqn:Hi.
    + destruct (findIndex_Some _ _ _ Hw) as (b & Hb & Hfree).
      destruct (findIndex_Some _ _ _ Hi) as (t & Ht & Hunsent).
      rewrite Ht. cbn [workerPool workerQueue].
      pose proof (countIf_insert negb _ w b true Hb Hfree eq_refl) as H1.
      pose proof (countIf_insert (fun t => negb (sent t)) _ i t
                    (mkPoolTask (task_id t) true) Ht Hunsent eq_refl) as H2.
      lia.
    + right. now apply findIndex_None.
  - left. now apply findIndex_None.
Qed.

Lemma processQueue_ids (p : Pool) : PoolIds p -> PoolIds (processQueue p).
Proof.
  intros [Hd Hb Hpb Hpo Hu]. unfold processQueue.
  destruct (findIndex negb (workerPool p)) as [w|]; [|now constructor].
  destruct (findIndex (fun t => negb (sent t)) (workerQueue p)) as [i|] eqn:Hi;
    [|now constructor].
  destruct (findIndex_Some _ _ _ Hi) as (t & Ht & Hunsent).
  rewrite Ht. apply negb_true_iff in Hunsent.
  assert (Hids : map task_id (<[i := mkPoolTask (task_id t) true]> (workerQueue p)) =
                 map task_id (workerQueue p)).
  { rewrite list_fmap_insert. cbn [task_id].
    apply list_insert_id. now rewrite list_lookup_fmap, Ht. }
  constructor; cbn [workerQueue workerIdCounter postedMessages].
  - now rewrite Hids.
  - apply Forall_insert; [exact Hb|]. cbn [task_id].
    exact (proj1 (Forall_lookup _ _) Hb i t Ht).
  - apply Forall_app. split; [exact Hpb|]. constructor; [|constructor].
    exact (proj1 (Forall_lookup _ _) Hb i t Ht).
  - rewrite map_app. apply NoDup_app. split; [exact Hpo|]. split.
    + intros x Hx Hx'. apply list_elem_of_In in Hx'. simpl in Hx'.
      destruct Hx' as [Hx'|[]]. subst x. apply (Hu i t Ht Hunsent).
      now apply list_elem_of_In.
    + apply NoDup_singleton.
  - intros j t' Hj Hs' Hin.
    destruct (Nat.eq_dec i j) as [<-|Hne].
    + rewrite list_lookup_insert_eq in Hj by (now apply lookup_lt_Some in Ht).
      injection Hj as <-. discriminate Hs'.
    + rewrite list_lookup_insert_ne in Hj by exact Hne.
      rewrite map_app in Hin. apply in_app_or in Hin as [Hin|[Hin|[]]].
      * exact (Hu j t' Hj Hs' Hin).
      * cbn [posted_id] in Hin. apply Hne.
        apply (NoDup_lookup (map task_id (workerQueue p)) i j (task_id t)).
        -- exact Hd.
        -- now rewrite list_lookup_fmap, Ht.
        -- now rewrite list_lookup_fmap, Hj, Hin.
Qed.

Lemma runOnWorker_ids (p : Pool) : PoolIds p -> PoolIds (runOnWorker p).
Proof.
  intros [Hd Hb Hpb Hpo Hu]. unfold runOnWorker.
  destruct (length (workerPool p) =? 0); [now constructor|].
  apply processQueue_ids.
  constructor; cbn [workerQueue workerIdCounter postedMessages].
  - rewrite map_app. apply NoDup_app. split; [exact Hd|]. split.
    + intros x Hx Hx'. apply list_elem_of_In in Hx'. simpl in Hx'.
      destruct Hx' as [Hx'|[]]. subst x.
      apply list_elem_of_fmap in Hx as (t & Ht & Hin).
      rewrite Forall_forall in Hb. specialize (Hb t Hin). cbn [task_id] in Ht. lia.
    + apply NoDup_singleton.
  - apply Forall_app. split.
    + eapply Forall_impl; [exact Hb|]. intros t Ht. cbv beta in *. lia.
    + constructor; [cbn; lia|constructor].
  - eapply Forall_impl; [exact Hpb|]. intros m Hm. cbv beta in *. lia.
  - exact Hpo.
  - intros i t Hi Hs Hin.
    apply lookup_app_Some in Hi as [Hi|[_ Hi]].
    + exact (Hu i t Hi Hs Hin).
    + apply list_lookup_singleton_Some in Hi as [_ <-]. cbn [task_id] in Hin.
      apply in_map_iff in Hin as (m & Hm & Hin).
      rewrite Forall_forall in Hpb. apply list_elem_of_In in Hin.
      specialize (Hpb m Hin). cbv beta in Hpb. lia.
Qed.

Lemma handleWorkerMessage_ids (worker : nat) (m : WorkerMessage) (p : Pool) :
  PoolIds p -> PoolIds (handleWorkerMessage worker m p).
Proof.
  intros Hp. destruct m as [|id success]; [exact Hp|].
  destruct Hp as [Hd Hb Hpb Hpo Hu]. cbn [handleWorkerMessage].
  apply processQueue_ids.
  destruct (findIndex (fun t => task_id t =? id) (workerQueue p)) as [k|];
    [|now constructor].
  constructor; cbn [workerQueue workerIdCounter postedMessages].
  - rewrite list_fmap_delete. apply (sublist_NoDup _ (map task_id (workerQueue p)));
      [exact Hd|apply sublist_delete].
  - now apply Forall_delete.
  - exact Hpb.
  - exact Hpo.
  - intros i t Hi Hs. rewrite list_lookup_delete in Hi.
    destruct (decide (i < k)); eauto.
Qed.

Lemma runOnWorker_conserving (p : Pool) : Conserving p -> Conserving (runOnWorker p).
Proof.
  intros Hc. unfold runOnWorker.
  destruct (length (workerPool p) =? 0); [exact Hc|].
  apply processQueue_conserving. cbn [workerPool workerQueue].
  rewrite countIf_snoc. cbn [sent negb]. destruct Hc as [Hc|Hc]; lia.
Qed.

Lemma handleWorkerMessage_conserving (worker : nat) (m : WorkerMessage) (p : Pool) :
  Conserving p -> Conserving (handleWorkerMessage worker m p).
Proof.
  intros Hc. destruct m as [|id success]; [exact Hc|]. cbn [handleWorkerMessage].
  apply processQueue_conserving. cbn [workerPool workerQueue].
  destruct Hc as [Hc|Hc].
  - left. pose proof (countIf_insert_le negb (workerPool p) worker false). lia.
  - right. destruct (findIndex _ (workerQueue p)) as [k|]; [|lia].
    pose proof (countIf_delete (fun t => negb (sent t)) (workerQueue p) k). lia.
Qed.

Lemma processQueue_size (p : Pool) :
  length (workerPool (processQueue p)) = length (workerPool p).
Proof.
  unfold processQueue.
  destruct (findIndex negb (workerPool p)) as [w|]; [|reflexivity].
  destruct (findIndex _ (workerQueue p)) as [i|]; [|reflexivity].
  destruct (workerQueue p !! i); [|reflexivity].
  cbn [workerPool]. apply length_insert.
Qed.

Lemma runPool_invariant (events : list PoolEvent) (p : Pool) :
  PoolIds p -> Conserving p ->
  PoolIds (runPool events p) /\ Conserving (runPool events p) /\
  length (workerPool (runPool events p)) = length (workerPool p).
Proof.
  unfold runPool. revert p.
  induction events as [|e events IH]; intros p Hi Hc; [now simpl|].
  cbn [fold_left].
  assert (Hstep : PoolIds (poolStep p e) /\ Conserving (poolStep p e) /\
                  length (workerPool (poolStep p e)) = length (workerPool p)).
  { destruct e as [|worker m]; cbn [poolStep].
    - split; [now apply runOnWorker_ids|]. split; [now apply runOnWorker_conserving|].
      unfold runOnWorker. destruct (length (workerPool p) =? 0); [reflexivity|].
      now rewrite processQueue_size.
    - split; [now apply handleWorkerMessage_ids|].
      split; [now apply handleWorkerMessage_conserving|].
      destruct m as [|id success]; [reflexivity|]. cbn [handleWorkerMessage].
      rewrite processQueue_size. cbn [workerPool]. apply length_insert. }
  destruct Hstep as (Hi' & Hc' & Hl').
  destruct (IH _ Hi' Hc') as (H1 & H2 & H3). rewrite H3, Hl'. auto.
Qed.

(** X30. Whatever tasks are submitted and whatever messages the workers
    send, the pool keeps its size, no worker is idle while a queued task
    waits to be sent, and no task id is posted to a worker twice. *)
Theorem pool_work_conserving (count : nat) (events : list PoolEvent) :
  let p := runPool events (initWorkerPool count) in
  length (workerPool p) = count /\
  (forall w t, workerPool p !! w = Some false -> In t (workerQueue p) ->
               sent t = true) /\
  NoDup (map posted_id (postedMessages p)) /\
  Forall (fun m => posted_id m < workerIdCounter p) (postedMessages p).
Proof.
  cbv zeta.
  destruct (runPool_invariant events (initWorkerPool count)) as (Hi & Hc & Hl).
  - constructor; cbn; try constructor. intros i t Hi. now rewrite lookup_nil in Hi.
  - right. reflexivity.
  - split; [|split; [|split]].
    + rewrite Hl. cbn [initWorkerPool workerPool]. apply length_replicate.
    + intros w t Hw Ht. destruct Hc as [Hc|Hc].
      * apply countIf_zero in Hc. rewrite Forall_lookup in Hc.
        specialize (Hc w false Hw). discriminate Hc.
      * apply countIf_zero in Hc. rewrite Forall_forall in Hc.
        apply list_elem_of_In in Ht. specialize (Hc t Ht).
        now apply negb_false_iff in Hc.
    + apply Hi.
    + apply Hi.
Qed.
